(** * Receipt extraction and validation pipeline (utils/ethiotelecomReceipt.js)

    A shallow embedding of the extraction and validation pipeline:
    identifier and URL safety gate, text normaliser, raw pair extractor,
    junk filter, canonical field resolver, name segmenter and acceptance
    gate, followed by the properties proved about them.

    JavaScript strings are sequences of UTF-16 code units; a code unit is
    an [N].  What the module takes from its platform (the WHATWG URL
    parser, cheerio, the Unicode lower-casing table, the process
    environment and the headless browser) is the interface [Platform];
    every theorem holds for every platform.

    After the pipeline come the HTTP front end (server.js:
    [getStatusCodeForError] and the two receipt handlers) and, in the
    module [Browser], the browser session call by call ([getBrowser],
    [closeBrowser] and the [try], [catch] and [finally] blocks of
    [fetchReceiptWithPuppeteer]). *)

From Stdlib Require Import NArith Bool Lia.
From stdpp Require Import base tactics option list gmap strings.

Open Scope N_scope.

(** ** Strings *)

Abbreviation jsstring := (list N).

(** Code units of a source literal: the literal's bytes are UTF-8. *)
Fixpoint utf16_of_utf8 (bs : list N) : jsstring :=
  match bs with
  | [] => []
  | b0 :: t0 =>
    if b0 <? 128 then b0 :: utf16_of_utf8 t0
    else match t0 with
    | [] => [65533]
    | b1 :: t1 =>
      if b0 <? 224 then ((b0 mod 32) * 64 + b1 mod 64) :: utf16_of_utf8 t1
      else match t1 with
      | [] => [65533]
      | b2 :: t2 =>
        if b0 <? 240
        then ((b0 mod 16) * 4096 + (b1 mod 64) * 64 + b2 mod 64) :: utf16_of_utf8 t2
        else match t2 with
        | [] => [65533]
        | b3 :: t3 =>
          let cp := (b0 mod 8) * 262144 + (b1 mod 64) * 4096
                    + (b2 mod 64) * 64 + b3 mod 64 - 65536 in
          (55296 + cp / 1024) :: (56320 + cp mod 1024) :: utf16_of_utf8 t3
        end
      end
    end
  end.

Definition js (s : string) : jsstring :=
  utf16_of_utf8 (List.map Ascii.N_of_ascii (String.list_ascii_of_string s)).

(** JS truthiness of a value that is a string, [null] or [undefined]. *)
Definition truthy (v : option jsstring) : bool :=
  match v with Some (_ :: _) => true | _ => false end.

(** [a || b] on such values. *)
Definition js_or (a b : option jsstring) : option jsstring :=
  if truthy a then a else b.

(** [String(text || "")]. *)
Definition String_or_empty (text : option jsstring) : jsstring :=
  match text with Some s => s | None => [] end.

(** ** Character classes *)

(** WhiteSpace and LineTerminator of ECMAScript: the class [\s] and the
    characters [String.prototype.trim] removes. *)
Definition is_space (c : N) : bool :=
  ((9 <=? c) && (c <=? 13)) || (c =? 32) || (c =? 160) || (c =? 5760)
  || ((8192 <=? c) && (c <=? 8202)) || (c =? 8232) || (c =? 8233)
  || (c =? 8239) || (c =? 8287) || (c =? 12288) || (c =? 65279).

Definition is_digit (c : N) : bool := (48 <=? c) && (c <=? 57).
Definition is_upper (c : N) : bool := (65 <=? c) && (c <=? 90).
Definition is_lower (c : N) : bool := (97 <=? c) && (c <=? 122).
Definition is_alnum (c : N) : bool := is_upper c || is_lower c || is_digit c.

(** The class [\w] that [\b] tests. *)
Definition is_word (c : N) : bool := is_alnum c || (c =? 95).

(** U+00A0, the no-break space. *)
Definition is_nbsp (c : N) : bool := c =? 160.

(** [[:：]]: U+003A and U+FF1A. *)
Definition is_colon (c : N) : bool := (c =? 58) || (c =? 65306).

(** [[0-9,]] *)
Definition is_digit_or_comma (c : N) : bool := is_digit c || (c =? 44).

(** Canonicalize of a non-unicode, ignore-case RegExp, restricted to what
    it does to the comparison with an ASCII pattern character: a
    character equals an ASCII letter up to case exactly when it is that
    letter in either case (a non-ASCII character never canonicalizes to an
    ASCII one). *)
Definition ascii_upper (c : N) : N := if is_lower c then c - 32 else c.

Definition ci_eqb (p c : N) : bool := ascii_upper p =? ascii_upper c.

(** ** Regular expressions

    The fragment of RegExp the module uses: classes, sequence,
    alternation, greedy quantifiers over a class, a greedy optional
    group, one capture group, and the assertions [^], [$] and [\b]. *)

Inductive regex : Type :=
| Eps
| Chr (p : N → bool)
| Cat (r1 r2 : regex)
| Alt (r1 r2 : regex)
| Rep (p : N → bool) (lo : nat) (hi : option nat)
| Opt (r : regex)
| Cap (r : regex)
| Bol
| Eol
| WordB.

(** A matcher state: the character before the cursor, the text after it,
    and what group 1 captured so far. *)
Record mstate := MState {
  m_prev : option N;
  m_rest : jsstring;
  m_cap : option jsstring;
}.

Definition word_before (prev : option N) : bool :=
  match prev with Some c => is_word c | None => false end.

Definition word_after (rest : jsstring) : bool :=
  match rest with c :: _ => is_word c | [] => false end.

(** The cursors after [p{lo,hi}], longest first (greedy). *)
Fixpoint rep_ends (p : N → bool) (lo : nat) (hi : option nat)
    (prev : option N) (rest : jsstring) : list (option N * jsstring) :=
  let stop := match lo with O => [(prev, rest)] | S _ => [] end in
  match hi with
  | Some O => stop
  | _ =>
    match rest with
    | x :: tl =>
      if p x then rep_ends p (Nat.pred lo) (Nat.pred <$> hi) (Some x) tl ++ stop
      else stop
    | [] => stop
    end
  end.

(** The states a backtracking match of [r] from [st] can end in, in the
    order in which backtracking tries them. *)
Fixpoint ends (r : regex) (st : mstate) : list mstate :=
  match r with
  | Eps => [st]
  | Chr p =>
    match m_rest st with
    | x :: tl => if p x then [MState (Some x) tl (m_cap st)] else []
    | [] => []
    end
  | Cat r1 r2 => flat_map (ends r2) (ends r1 st)
  | Alt r1 r2 => ends r1 st ++ ends r2 st
  | Rep p lo hi =>
    List.map (λ e, MState (fst e) (snd e) (m_cap st))
             (rep_ends p lo hi (m_prev st) (m_rest st))
  | Opt r1 => ends r1 st ++ [st]
  | Cap r1 =>
    List.map (λ e, MState (m_prev e) (m_rest e)
                     (Some (take (length (m_rest st) - length (m_rest e)) (m_rest st))))
             (ends r1 st)
  | Bol => match m_prev st with None => [st] | Some _ => [] end
  | Eol => match m_rest st with [] => [st] | _ :: _ => [] end
  | WordB => if xorb (word_before (m_prev st)) (word_after (m_rest st)) then [st] else []
  end.

(** A literal under the [i] flag. *)
Fixpoint lit_i (s : jsstring) : regex :=
  match s with
  | [] => Eps
  | c :: tl => Cat (Chr (ci_eqb c)) (lit_i tl)
  end.

(** The leftmost match: the text before it (reversed in [pre]) and the
    state the match ends in. *)
Fixpoint search (r : regex) (pre : jsstring) (rest : jsstring)
    : option (jsstring * mstate) :=
  match ends r (MState (head pre) rest None) with
  | st :: _ => Some (rev pre, st)
  | [] =>
    match rest with
    | [] => None
    | x :: tl => search r (x :: pre) tl
    end
  end.

(** [re.test(s)] *)
Definition test (r : regex) (s : jsstring) : bool :=
  match search r [] s with Some _ => true | None => false end.

(** [s.match(re)] for a RegExp without the [g] flag, read at [m[1]]. *)
Definition match_group1 (r : regex) (s : jsstring) : option (option jsstring) :=
  match search r [] s with
  | Some (_, st) => Some (m_cap st)
  | None => None
  end.

(** [s.replace(re, by)] for a RegExp without the [g] flag. *)
Definition replace (r : regex) (by_ : jsstring) (s : jsstring) : jsstring :=
  match search r [] s with
  | Some (before, st) => before ++ by_ ++ m_rest st
  | None => s
  end.

(** [s.replace(re, by)] for a RegExp with the [g] flag.  [skip] counts the
    characters of the current match that are still to be dropped; after an
    empty match the next character is copied. *)
Fixpoint replace_all_go (r : regex) (by_ : jsstring) (skip : nat)
    (prev : option N) (rest : jsstring) : jsstring :=
  match skip with
  | S k =>
    match rest with
    | x :: tl => replace_all_go r by_ k (Some x) tl
    | [] => []
    end
  | O =>
    match ends r (MState prev rest None) with
    | st :: _ =>
      by_ ++
      match rest with
      | [] => []
      | x :: tl =>
        match length rest - length (m_rest st) with
        | O => x :: replace_all_go r by_ O (Some x) tl
        | S k => replace_all_go r by_ k (Some x) tl
        end
      end
    | [] =>
      match rest with
      | [] => []
      | x :: tl => x :: replace_all_go r by_ O (Some x) tl
      end
    end
  end%nat.

Definition replace_all (r : regex) (by_ : jsstring) (s : jsstring) : jsstring :=
  replace_all_go r by_ O None s.

(** [String.prototype.trim] *)
Fixpoint drop_while (p : N → bool) (s : jsstring) : jsstring :=
  match s with
  | [] => []
  | x :: tl => if p x then drop_while p tl else s
  end.

Fixpoint strip_trailing (p : N → bool) (s : jsstring) : jsstring :=
  match s with
  | [] => []
  | x :: tl => if forallb p s then [] else x :: strip_trailing p tl
  end.

Definition trim (s : jsstring) : jsstring :=
  strip_trailing is_space (drop_while is_space s).

(** ** Text normaliser *)

(** The patterns [/(U+00A0)/g], [/\s+/g] and [/[:：]+$/]. *)
Definition re_nbsp : regex := Chr is_nbsp.
Definition re_spaces : regex := Rep is_space 1 None.
Definition re_trailing_colons : regex := Cat (Rep is_colon 1 None) Eol.

Definition cleanText (text : option jsstring) : jsstring :=
  trim
    (replace re_trailing_colons []
       (replace_all re_spaces [32]
          (replace_all re_nbsp [32] (String_or_empty text)))).

(** ** Other string operations of the JavaScript library *)

Definition nonempty (s : jsstring) : bool :=
  match s with [] => false | _ :: _ => true end.

(** [s.split(sep)] for a one-character separator. *)
Fixpoint split_on (sep : N) (s : jsstring) : list jsstring :=
  match s with
  | [] => [[]]
  | c :: tl =>
    if c =? sep then [] :: split_on sep tl
    else match split_on sep tl with
         | w :: ws => (c :: w) :: ws
         | [] => [[c]]
         end
  end.

(** [parts.join(sep)] *)
Fixpoint join (sep : jsstring) (l : list jsstring) : jsstring :=
  match l with
  | [] => []
  | x :: tl =>
    match tl with
    | [] => x
    | _ :: _ => x ++ sep ++ join sep tl
    end
  end.

Fixpoint starts_with (p s : jsstring) : bool :=
  match p, s with
  | [], _ => true
  | a :: p', b :: s' => (a =? b) && starts_with p' s'
  | _ :: _, [] => false
  end.

(** [s.includes(needle)] *)
Fixpoint includes (s needle : jsstring) : bool :=
  starts_with needle s
  || match s with [] => false | _ :: tl => includes tl needle end.

(** [s.replace(pat, by)] for a string pattern: the first occurrence.  The
    replacement texts of the module hold no [$]. *)
Fixpoint replace_str (pat by_ s : jsstring) : jsstring :=
  if starts_with pat s then by_ ++ drop (length pat) s
  else match s with
       | [] => []
       | c :: tl => c :: replace_str pat by_ tl
       end.

Definition hex_digit (n : N) : N := if n <? 10 then 48 + n else 55 + n.

Definition percent (b : N) : jsstring :=
  [37; hex_digit (b / 16); hex_digit (b mod 16)].

(** The characters [encodeURIComponent] leaves alone:
    [A-Z a-z 0-9 - _ . ! ~ * ' ( )]. *)
Definition uri_unreserved (c : N) : bool :=
  is_alnum c
  || existsb (N.eqb c) [45; 95; 46; 33; 126; 42; 39; 40; 41].

(** [encodeURIComponent(s)]; [None] is the URIError of a lone surrogate. *)
Fixpoint encodeURIComponent (s : jsstring) : option jsstring :=
  match s with
  | [] => Some []
  | c :: tl =>
    if uri_unreserved c then cons c <$> encodeURIComponent tl
    else if c <? 128 then app (percent c) <$> encodeURIComponent tl
    else if c <? 2048 then
      app (percent (192 + c / 64) ++ percent (128 + c mod 64))
        <$> encodeURIComponent tl
    else if (c <? 55296) || (57344 <=? c) then
      app (percent (224 + c / 4096) ++ percent (128 + (c / 64) mod 64)
           ++ percent (128 + c mod 64))
        <$> encodeURIComponent tl
    else if c <? 56320 then
      match tl with
      | lo :: tl' =>
        if (56320 <=? lo) && (lo <? 57344) then
          let cp := 65536 + (c - 55296) * 1024 + (lo - 56320) in
          app (percent (240 + cp / 262144) ++ percent (128 + (cp / 4096) mod 64)
               ++ percent (128 + (cp / 64) mod 64) ++ percent (128 + cp mod 64))
            <$> encodeURIComponent tl'
        else None
      | [] => None
      end
    else None
  end.

(** ** Objects used as maps

    [raw] and [out] are object literals [{}]: their own properties are
    the pairs stored so far, and a read [raw[k]] that finds no own
    property goes on to [Object.prototype].  The order in which the own
    properties are enumerated is not modelled: nothing in the pipeline
    depends on it. *)

Definition Object_prototype_names : list jsstring :=
  Eval vm_compute in
  List.map js
    [ "constructor"; "__defineGetter__"; "__defineSetter__"; "hasOwnProperty";
      "__lookupGetter__"; "__lookupSetter__"; "isPrototypeOf";
      "propertyIsEnumerable"; "toString"; "valueOf"; "__proto__";
      "toLocaleString" ]%string.

Definition inherited (k : jsstring) : bool :=
  bool_decide (k ∈ Object_prototype_names).

(** What a read [o[k]] yields: an own string, or a function or object of
    [Object.prototype]. *)
Inductive prop_value : Type :=
| Own (v : jsstring)
| Inherited.

Definition obj_get (o : gmap jsstring jsstring) (k : jsstring) : option prop_value :=
  match o !! k with
  | Some v => Some (Own v)
  | None => if inherited k then Some Inherited else None
  end.

Definition prop_truthy (v : option prop_value) : bool :=
  match v with
  | Some (Own s) => nonempty s
  | Some Inherited => true
  | None => false
  end.

(** [o[k] = v] for a string [v]: the setter of [__proto__] ignores it. *)
Definition obj_set (o : gmap jsstring jsstring) (k v : jsstring)
    : gmap jsstring jsstring :=
  if bool_decide (k = js "__proto__") then o else <[k:=v]> o.

(** The string a property read yields where the pipeline goes on with
    one. *)
Definition own_string (v : option prop_value) : option jsstring :=
  match v with Some (Own s) => Some s | _ => None end.

(** ** Data model *)

Record URL := {
  protocol : jsstring;
  hostname : jsstring;
  pathname : jsstring;
  searchParams : list (jsstring * jsstring);
}.

(** [searchParams.get(name)]: the first value of that name. *)
Fixpoint searchParams_get (ps : list (jsstring * jsstring)) (name : jsstring)
    : option jsstring :=
  match ps with
  | [] => None
  | (k, v) :: tl => if bool_decide (k = name) then Some v else searchParams_get tl name
  end.

Record NameParts := {
  full : jsstring;
  first : option jsstring;
  father : option jsstring;
  grandfather : option jsstring;
  rest : option jsstring;
}.

Record CanonicalReceipt := {
  payerName : option jsstring;
  payerNameParts : option NameParts;
  payerTelebirrNo : option jsstring;
  creditedPartyName : option jsstring;
  creditedPartyNameParts : option NameParts;
  creditedPartyAccountNo : option jsstring;
  transactionStatus : option jsstring;
  invoiceNo : option jsstring;
  paymentDate : option jsstring;
  settledAmount : option jsstring;
  rawData : gmap jsstring jsstring;
  sourceUrl : option jsstring;
}.

(** The [code] of a thrown error.  [Foreign] is a code set by the browser
    library or the runtime on an error the module rethrows as it is (such
    a code is none of the module's own), and [Uncaught] an error without a
    code.  The message of an error is the entry of [ERROR_CODES] for its
    code and is left out. *)
Inductive error_code : Type :=
| TX_FORMAT | INVALID_URL | HOST_NOT_ALLOWED | INVALID_PROTOCOL
| BROWSER_LAUNCH_FAILED | PAGE_LOAD_FAILED | PAGE_TIMEOUT | EMPTY_HTML
| TX_NOT_FOUND | PARSE_FAIL | NAVIGATION_ERROR | UNKNOWN_ERROR
| HTTP_ERROR | TX_EXTRACT_FAILED
| Foreign (c : jsstring)
| Uncaught (name : jsstring).

Inductive error_details : Type :=
| DetailText (s : jsstring)
| DetailPresence (hasInvoiceNo hasSettledAmount hasCreditedPartyAccountNo : bool).

Record error := Error {
  code : error_code;
  details : option error_details;
}.

Inductive result (A : Type) : Type :=
| Ok (a : A)
| Throw (e : error).
Arguments Ok {A} a.
Arguments Throw {A} e.

#[global] Instance result_ret : MRet result := λ A a, Ok a.
#[global] Instance result_bind : MBind result :=
  λ A B f m, match m with Ok a => f a | Throw e => Throw e end.

(** [if (c) throw e] *)
Definition throw_if (c : bool) (e : error) : result unit :=
  if c then Throw e else Ok tt.

(** ** The platform *)

(** [Number(process.env.RECEIPT_FETCH_TIMEOUT_MS || 30000)], kept as
    written: the number, or the text [Number] is applied to. *)
Inductive js_number : Type :=
| Num (n : N)
| NumberOf (s : jsstring).

(** What one session with the headless browser comes to, as
    [fetchReceiptWithPuppeteer] tells the cases apart. *)
Inductive browser_outcome : Type :=
| LaunchFails
| Throws (name : jsstring) (code : option jsstring)
| NoResponse (requestError : option jsstring)
| Responds (status : N) (html : jsstring) (url : jsstring).

Class Platform := {
  (** [new URL(url)]; [None] when it throws *)
  URL_new : jsstring → option URL;
  (** cheerio: a selection of one node; [cheerio.load(html)] is the root *)
  Cheerio : Type;
  cheerio_load : jsstring → Cheerio;
  (** [$(selector)] at the root, [$(node).find(selector)] elsewhere *)
  cheerio_find : Cheerio → jsstring → list Cheerio;
  (** [clone = node.clone(); clone.find(selector).remove()] *)
  cheerio_clone_without : Cheerio → jsstring → Cheerio;
  (** [selection.text()] *)
  cheerio_text : list Cheerio → jsstring;
  (** [s.toLowerCase()] *)
  toLowerCase : jsstring → jsstring;
  (** [process.env[name]] *)
  process_env : jsstring → option jsstring;
  (** the browser session of one fetch *)
  browse : jsstring → js_number → browser_outcome;
}.

(** ** Patterns of the pipeline *)

Declare Scope regex_scope.
Delimit Scope regex_scope with re.
Notation "a ⨾ b" := (Cat a b) (at level 41, right associativity) : regex_scope.
Notation "a ∥ b" := (Alt a b) (at level 42, right associativity) : regex_scope.

(** [/^[A-Za-z0-9]{10}$/] *)
Definition re_tx : regex :=
  (Bol ⨾ Rep is_alnum 10 (Some 10%nat) ⨾ Eol)%re.

(** [/no\s+data|not\s+found|invalid\s+invoice|does\s+not\s+exist/i] *)
Definition re_not_found : regex :=
  ( (lit_i (js "no") ⨾ Rep is_space 1 None ⨾ lit_i (js "data"))
  ∥ (lit_i (js "not") ⨾ Rep is_space 1 None ⨾ lit_i (js "found"))
  ∥ (lit_i (js "invalid") ⨾ Rep is_space 1 None ⨾ lit_i (js "invoice"))
  ∥ (lit_i (js "does") ⨾ Rep is_space 1 None ⨾ lit_i (js "not")
       ⨾ Rep is_space 1 None ⨾ lit_i (js "exist")) )%re.

(** [/download the pdf/gi] *)
Definition re_download_the_pdf : regex := lit_i (js "download the pdf").

(** [/\bInvoice No\.\s*([A-Z0-9]{6,})\b/i]: under the [i] flag the class
    [[A-Z0-9]] holds the ASCII letters of both cases and the digits. *)
Definition re_invoice : regex :=
  (WordB ⨾ lit_i (js "Invoice No.") ⨾ Rep is_space 0 None
   ⨾ Cap (Rep is_alnum 6 None) ⨾ WordB)%re.

Definition is_dash_or_slash (c : N) : bool := (c =? 45) || (c =? 47).

(** [/\bPayment date\s*([0-9]{2}[-/][0-9]{2}[-/][0-9]{4}\s+[0-9]{2}:[0-9]{2}:[0-9]{2})\b/i] *)
Definition re_payment_date : regex :=
  (WordB ⨾ lit_i (js "Payment date") ⨾ Rep is_space 0 None
   ⨾ Cap (Rep is_digit 2 (Some 2%nat) ⨾ Chr is_dash_or_slash
          ⨾ Rep is_digit 2 (Some 2%nat) ⨾ Chr is_dash_or_slash
          ⨾ Rep is_digit 4 (Some 4%nat) ⨾ Rep is_space 1 None
          ⨾ Rep is_digit 2 (Some 2%nat) ⨾ Chr (N.eqb 58)
          ⨾ Rep is_digit 2 (Some 2%nat) ⨾ Chr (N.eqb 58)
          ⨾ Rep is_digit 2 (Some 2%nat))
   ⨾ WordB)%re.

(** [/\bSettled Amount\s*([0-9,]+(?:\.[0-9]{1,2})?)\s*Birr\b/i] *)
Definition re_settled_amount : regex :=
  (WordB ⨾ lit_i (js "Settled Amount") ⨾ Rep is_space 0 None
   ⨾ Cap (Rep is_digit_or_comma 1 None
          ⨾ Opt (Chr (N.eqb 46) ⨾ Rep is_digit 1 (Some 2%nat)))
   ⨾ Rep is_space 0 None ⨾ lit_i (js "Birr") ⨾ WordB)%re.

(** [ALLOWED_HOSTS] *)
Definition ALLOWED_HOSTS : gset jsstring :=
  {[ js "transactioninfo.ethiotelecom.et" ]}.

(** ** The pipeline *)

Section Pipeline.
Context `{Platform}.

(** [RECEIPT_URL_TEMPLATE] *)
Definition RECEIPT_URL_TEMPLATE : jsstring :=
  String_or_empty
    (js_or (process_env (js "RECEIPT_URL_TEMPLATE"))
       (Some (js "https://transactioninfo.ethiotelecom.et/receipt/{tx}"))).

Record fetched := Fetched {
  f_html : jsstring;
  f_status : N;
  f_url : jsstring;
}.

(** [buildReceiptUrlFromTx(tx)] *)
Definition buildReceiptUrlFromTx (tx : jsstring) : result jsstring :=
  match encodeURIComponent tx with
  | Some enc => Ok (replace_str (js "{tx}") enc RECEIPT_URL_TEMPLATE)
  | None => Throw (Error (Uncaught (js "URIError")) None)
  end.

(** [extractTxFromUrl(url)] *)
Definition extractTxFromUrl (url : jsstring) : option jsstring :=
  match URL_new url with
  | None => None
  | Some urlObj =>
    let pathParts := List.filter nonempty (split_on 47 (pathname urlObj)) in
    if (2 <=? length pathParts)%nat
       && bool_decide (pathParts !! 0%nat = Some (js "receipt"))
    then pathParts !! 1%nat
    else
      let txParam :=
        js_or (searchParams_get (searchParams urlObj) (js "tx"))
              (searchParams_get (searchParams urlObj) (js "id")) in
      if truthy txParam then txParam
      else js_or (last pathParts) None
  end.

(** [assertAllowedHost(url)] *)
Definition assertAllowedHost (url : jsstring) : result unit :=
  match URL_new url with
  | None => Throw (Error INVALID_URL None)
  | Some u =>
    _ ← throw_if
          (negb (bool_decide (protocol u ∈ [js "http:"; js "https:"])))
          (Error INVALID_PROTOCOL None);
    throw_if
      (negb (bool_decide (hostname u ∈ ALLOWED_HOSTS)))
      (Error HOST_NOT_ALLOWED
         (Some (DetailText (js "Host " ++ [34] ++ hostname u ++ [34]
                            ++ js " is not in the allowed list."))))
  end.

(** [normalizeKey(s)] *)
Definition normalizeKey (s : option jsstring) : jsstring :=
  trim (replace_all re_spaces [32] (toLowerCase (cleanText s))).

(** [parseEthiopianName(fullName)] *)
Definition parseEthiopianName (fullName : option jsstring) : option NameParts :=
  let cleaned := cleanText fullName in
  if negb (nonempty cleaned) then None
  else
    let parts := List.filter nonempty (split_on 32 cleaned) in
    let rest_ := drop 3 parts in
    Some {|
      full := join [32] parts;
      first := js_or (parts !! 0%nat) None;
      father := js_or (parts !! 1%nat) None;
      grandfather := js_or (parts !! 2%nat) None;
      rest := if (0 <? length rest_)%nat then Some (join [32] rest_) else None;
    |}.

(** [isPdfJunkValue(v)] *)
Definition isPdfJunkValue (v : option jsstring) : bool :=
  let t := normalizeKey v in
  bool_decide (t = js "download the pdf")
  || bool_decide (t = js "download pdf")
  || (includes t (js "download") && includes t (js "pdf")).

(** [isJunkPair(key, value)] *)
Definition isJunkPair (key value : option jsstring) : bool :=
  if negb (truthy key) || negb (truthy value) then true
  else if isPdfJunkValue value then true
  else if bool_decide (normalizeKey key = normalizeKey value) then true
  else false.

(** [extractByRegex(text, re)] *)
Definition extractByRegex (text : option jsstring) (re : regex) : option jsstring :=
  match match_group1 re (String_or_empty text) with
  | Some m1 => Some (cleanText m1)
  | None => None
  end.

(** [cellTextNoLinks($cell)] *)
Definition cellTextNoLinks (cell : Cheerio) : jsstring :=
  let clone := cheerio_clone_without cell (js "a,button,svg,script,style") in
  let t := cleanText (Some (cheerio_text [clone])) in
  if isPdfJunkValue (Some t) then [] else t.

(** The loop [for (let i = 0; i < arr.length - 1; i += 2)] of
    [extractReceiptRawPairs]. *)
Fixpoint pair_loop (raw : gmap jsstring jsstring) (arr : list jsstring)
    : gmap jsstring jsstring :=
  match arr with
  | k :: v :: tl =>
    pair_loop
      (if negb (nonempty k) || negb (nonempty v) then raw
       else if negb (prop_truthy (obj_get raw k)) then obj_set raw k v
       else raw)
      tl
  | _ => raw
  end.

(** The callback of [$("table tr").each]. *)
Definition row_step (raw : gmap jsstring jsstring) (row : Cheerio)
    : gmap jsstring jsstring :=
  let cells := cheerio_find row (js "th, td") in
  if (length cells <? 2)%nat then raw
  else pair_loop raw (List.map cellTextNoLinks cells).

(** [extractReceiptRawPairs(html)] *)
Definition extractReceiptRawPairs (html : jsstring) : gmap jsstring jsstring :=
  let doc := cheerio_load html in
  fold_left row_step (cheerio_find doc (js "table tr")) ∅.

(** [cleanRawPairs(rawPairs)] *)
Definition cleanRawPairs (rawPairs : gmap jsstring jsstring)
    : gmap jsstring jsstring :=
  map_fold
    (λ k v out, if isJunkPair (Some k) (Some v) then out else obj_set out k v)
    ∅ rawPairs.

(** [pickExact(raw, keys)] *)
Fixpoint pickExact (raw : gmap jsstring jsstring) (keys : list jsstring)
    : option prop_value :=
  match keys with
  | [] => None
  | k :: tl => if prop_truthy (obj_get raw k) then obj_get raw k else pickExact raw tl
  end.

(** The page text the resolver searches:
    [cleanText($("body").text()).replace(/download the pdf/gi, "")]. *)
Definition resolverBodyText (html : jsstring) : jsstring :=
  let doc := cheerio_load html in
  replace_all re_download_the_pdf []
    (cleanText (Some (cheerio_text (cheerio_find doc (js "body"))))).

(** [extractCanonical(html, tx)].  The labels looked up are literals, none
    of them a name of [Object.prototype], so each lookup yields an own
    string or nothing ([own_string]). *)
Definition extractCanonical (html tx : jsstring) : CanonicalReceipt :=
  let rawPairs := extractReceiptRawPairs html in
  let raw := cleanRawPairs rawPairs in
  let bodyText := resolverBodyText html in
  let payerNameStr :=
    own_string (pickExact raw [js "የከፋይ ስም/Payer Name"; js "Payer Name"]) in
  let creditedNameStr :=
    own_string (pickExact raw
      [ js "የገንዘብ ተቀባይ ስም/Credited Party name";
        js "የገንዘብ ተቀባይ ስም/Credited party name";
        js "Credited Party name" ]) in
  {|
    payerName :=
      if truthy payerNameStr then Some (cleanText payerNameStr) else None;
    payerNameParts := parseEthiopianName payerNameStr;
    payerTelebirrNo :=
      own_string (pickExact raw
        [js "የከፋይ ቴሌብር ቁ./Payer telebirr no."; js "Payer telebirr no."]);
    creditedPartyName :=
      if truthy creditedNameStr then Some (cleanText creditedNameStr) else None;
    creditedPartyNameParts := parseEthiopianName creditedNameStr;
    creditedPartyAccountNo :=
      own_string (pickExact raw
        [ js "የገንዘብ ተቀባይ ቴሌብር ቁ./Credited party account no";
          js "Credited party account no" ]);
    transactionStatus :=
      own_string (pickExact raw
        [js "የክፍያው ሁኔታ/transaction status"; js "Transaction status"]);
    invoiceNo := js_or (extractByRegex (Some bodyText) re_invoice) (Some tx);
    paymentDate := js_or (extractByRegex (Some bodyText) re_payment_date) None;
    settledAmount := js_or (extractByRegex (Some bodyText) re_settled_amount) None;
    rawData := raw;
    sourceUrl := None;
  |}.

(** [fetchReceiptWithPuppeteer(url, timeoutMs)] *)
Definition fetchReceiptWithPuppeteer (url : jsstring) (timeoutMs : js_number)
    : result fetched :=
  match browse url timeoutMs with
  | LaunchFails => Throw (Error BROWSER_LAUNCH_FAILED None)
  | Throws name c =>
    if bool_decide (name = js "TimeoutError") then Throw (Error PAGE_TIMEOUT None)
    else match c with
         | Some (x :: xs) => Throw (Error (Foreign (x :: xs)) None)
         | _ => Throw (Error NAVIGATION_ERROR None)
         end
  | NoResponse requestError =>
    Throw (Error PAGE_LOAD_FAILED
             (if truthy requestError then DetailText <$> requestError else None))
  | Responds status html url' =>
    if 400 <=? status then Throw (Error HTTP_ERROR None)
    else Ok (Fetched html status url')
  end.

(** The check under [// Require critical fields] in
    [getReceiptCanonical]. *)
Definition requireCriticalFields (canonical : CanonicalReceipt) : result unit :=
  throw_if
    (negb (truthy (invoiceNo canonical))
     || negb (truthy (settledAmount canonical))
     || negb (truthy (creditedPartyAccountNo canonical)))
    (Error PARSE_FAIL
       (Some (DetailPresence
                (truthy (invoiceNo canonical))
                (truthy (settledAmount canonical))
                (truthy (creditedPartyAccountNo canonical))))).

(** The page text [getReceiptCanonical] inspects for the operator's
    not-found wording: [cleanText($("body").text())]. *)
Definition pageBodyText (html : jsstring) : jsstring :=
  cleanText (Some (cheerio_text (cheerio_find (cheerio_load html) (js "body")))).

Definition with_sourceUrl (c : CanonicalReceipt) (u : jsstring) : CanonicalReceipt :=
  {|
    payerName := payerName c;
    payerNameParts := payerNameParts c;
    payerTelebirrNo := payerTelebirrNo c;
    creditedPartyName := creditedPartyName c;
    creditedPartyNameParts := creditedPartyNameParts c;
    creditedPartyAccountNo := creditedPartyAccountNo c;
    transactionStatus := transactionStatus c;
    invoiceNo := invoiceNo c;
    paymentDate := paymentDate c;
    settledAmount := settledAmount c;
    rawData := rawData c;
    sourceUrl := Some u;
  |}.

(** [Number(process.env.RECEIPT_FETCH_TIMEOUT_MS || 30000)] *)
Definition fetchTimeoutMs : js_number :=
  match js_or (process_env (js "RECEIPT_FETCH_TIMEOUT_MS")) None with
  | Some s => NumberOf s
  | None => Num 30000
  end.

(** [getReceiptCanonical(tx)] *)
Definition getReceiptCanonical (tx : jsstring) : result CanonicalReceipt :=
  _ ← throw_if (negb (test re_tx tx)) (Error TX_FORMAT None);
  receiptUrl ← buildReceiptUrlFromTx tx;
  _ ← assertAllowedHost receiptUrl;
  page ← fetchReceiptWithPuppeteer receiptUrl fetchTimeoutMs;
  let html := f_html page in
  _ ← throw_if (negb (nonempty html) || (length html <? 200)%nat)
        (Error EMPTY_HTML None);
  let bodyText := pageBodyText html in
  _ ← throw_if (test re_not_found bodyText) (Error TX_NOT_FOUND None);
  let canonical := extractCanonical html tx in
  _ ← requireCriticalFields canonical;
  Ok (with_sourceUrl canonical (f_url page)).

(** [getReceiptFromUrl(url)] *)
Definition getReceiptFromUrl (url : jsstring) : result CanonicalReceipt :=
  _ ← assertAllowedHost url;
  let tx := extractTxFromUrl url in
  _ ← throw_if (negb (truthy tx)) (Error TX_EXTRACT_FAILED None);
  let tx := String_or_empty tx in
  _ ← throw_if (negb (test re_tx tx))
        (Error TX_FORMAT
           (Some (DetailText (js "Extracted code: " ++ [34] ++ tx ++ [34]))));
  getReceiptCanonical tx.

End Pipeline.

(** ** A reference platform

    An instance of [Platform] on which the pipeline runs on concrete
    pages: documents are trees, selectors are the comma-separated
    descendant chains of tag names the module uses, URLs are the absolute
    [scheme://host/path?query] ones, lower-casing is that of ASCII, the
    environment is empty.  The browser's outcome and the document cheerio
    builds from the page it returns are given. *)

#[warnings="-register-all"]
Inductive dom : Type :=
| DText (data : jsstring)
| DElem (tag : jsstring) (children : list dom).

Fixpoint dom_text (n : dom) : jsstring :=
  match n with
  | DText d => d
  | DElem _ ch => flat_map dom_text ch
  end.

(** [chain] (innermost tag first) lies, in order, on the path [ancs]
    (innermost ancestor first). *)
Fixpoint on_path (chain ancs : list jsstring) : bool :=
  match chain with
  | [] => true
  | t :: chain' =>
    match ancs with
    | [] => false
    | a :: ancs' =>
      if bool_decide (a = t) then on_path chain' ancs' else on_path chain ancs'
    end
  end.

(** A selector: alternatives split at [,], each a chain split at blanks. *)
Definition parse_selector (sel : jsstring) : list (list jsstring) :=
  List.map (λ alt, rev (List.filter nonempty (split_on 32 alt))) (split_on 44 sel).

Definition selected (sel : list (list jsstring)) (ancs : list jsstring)
    (tag : jsstring) : bool :=
  existsb
    (λ chain,
       match chain with
       | [] => false
       | t :: outer => bool_decide (t = tag) && on_path outer ancs
       end)
    sel.

(** The elements below [n] that the selector selects, in document order. *)
Fixpoint dom_select (sel : list (list jsstring)) (ancs : list jsstring) (n : dom)
    : list dom :=
  match n with
  | DText _ => []
  | DElem tag ch =>
    flat_map
      (λ c,
         match c with
         | DText _ => []
         | DElem t _ =>
           (if selected sel (tag :: ancs) t then [c] else [])
           ++ dom_select sel (tag :: ancs) c
         end)
      ch
  end.

Definition dom_find (n : dom) (sel : jsstring) : list dom :=
  match n with
  | DText _ => []
  | DElem tag ch =>
    flat_map
      (λ c,
         match c with
         | DText _ => []
         | DElem t _ =>
           (if selected (parse_selector sel) [] t then [c] else [])
           ++ dom_select (parse_selector sel) [] c
         end)
      ch
  end.

(** [n] without the elements below it that have one of the tags. *)
Fixpoint dom_prune (tags : list jsstring) (n : dom) : dom :=
  match n with
  | DText d => DText d
  | DElem tag ch =>
    DElem tag
      ((fix go (l : list dom) : list dom :=
          match l with
          | [] => []
          | c :: tl =>
            match c with
            | DText _ => c :: go tl
            | DElem t _ =>
              if bool_decide (t ∈ tags) then go tl else dom_prune tags c :: go tl
            end
          end) ch)
  end.

Definition dom_without (n : dom) (sel : jsstring) : dom :=
  dom_prune (split_on 44 sel) n.

Definition ascii_lower (c : N) : N := if is_upper c then c + 32 else c.

Fixpoint break_at (p : N → bool) (s : jsstring) : jsstring * jsstring :=
  match s with
  | [] => ([], [])
  | c :: tl =>
    if p c then ([], s)
    else let '(a, b) := break_at p tl in (c :: a, b)
  end.

Definition query_pairs (q : jsstring) : list (jsstring * jsstring) :=
  List.map
    (λ kv, let '(k, v) := break_at (N.eqb 61) kv in (k, drop 1 v))
    (List.filter nonempty (split_on 38 q)).

(** Absolute URLs [scheme://host/path?query#fragment]; anything else does
    not parse.  Scheme and host are lower-cased. *)
Definition simple_URL (url : jsstring) : option URL :=
  let '(scheme, after) := break_at (λ c, negb (is_alnum c || (c =? 43) || (c =? 45) || (c =? 46))) url in
  match scheme, after with
  | c :: _, 58 :: 47 :: 47 :: loc =>
    if is_upper c || is_lower c then
      let '(host, after_host) :=
        break_at (λ c, (c =? 47) || (c =? 63) || (c =? 35)) loc in
      let '(path, after_path) :=
        break_at (λ c, (c =? 63) || (c =? 35)) after_host in
      let '(query, _) := break_at (N.eqb 35) (drop 1 after_path) in
      if nonempty host then
        Some {|
          protocol := List.map ascii_lower scheme ++ [58];
          hostname := List.map ascii_lower host;
          pathname := if nonempty path then path else [47];
          searchParams :=
            match after_path with
            | 63 :: _ => query_pairs query
            | _ => []
            end;
        |}
      else None
    else None
  | _, _ => None
  end.

Definition reference_platform (outcome : browser_outcome) (doc : dom) : Platform := {|
  URL_new := simple_URL;
  Cheerio := dom;
  cheerio_load := λ _, doc;
  cheerio_find := dom_find;
  cheerio_clone_without := dom_without;
  cheerio_text := flat_map dom_text;
  toLowerCase := List.map ascii_lower;
  process_env := λ _, None;
  browse := λ _ _, outcome;
|}.

(** Builders for documents; a table holds its rows in a [tbody], as the
    HTML parser builds it. *)
Definition el (tag : string) (children : list dom) : dom := DElem (js tag) children.
Definition txt (s : string) : dom := DText (js s).
Definition page_of (body : list dom) : dom :=
  DElem (js "#document") [el "html" [el "head" []; el "body" body]].
Definition table_of (rows : list dom) : dom := el "table" [el "tbody" rows].

(** A receipt page: two name rows, the account row, the amount text. *)
Definition sample_receipt : dom :=
  page_of
    [ table_of
        [ el "tr" [el "td" [txt "Payer Name"]; el "td" [txt "Abebe Kebede"]];
          el "tr" [el "td" [txt "Payer Name"]; el "td" [txt "Duplicate Value"]];
          el "tr" [el "td" [txt "Credited party account no:"];
                   el "td" [txt " 0911000000 "; el "a" [txt "Download the PDF"]]];
          el "tr" [el "td" [txt "Invoice No."]; el "td" [txt "ABC12345XYZ"]] ];
      el "p" [txt " Settled Amount 1,234.50 Birr "] ].

(** * Vocabulary of the statements

    List functions and predicates the properties are stated with; none of
    them is part of the pipeline. *)

(** The longest prefix of [s] whose characters satisfy [p]. *)
Fixpoint take_while (p : N → bool) (s : jsstring) : jsstring :=
  match s with
  | [] => []
  | x :: tl => if p x then x :: take_while p tl else []
  end.

(** The last character of [run], or [prev] before an empty [run]. *)
Definition last_or (prev : option N) (run : jsstring) : option N :=
  match last run with Some c => Some c | None => prev end.

(** Start state of a match attempt at index [i] of [s]. *)
Definition at_pos (s : jsstring) (i : nat) : mstate :=
  MState (last (take i s)) (drop i s) None.

(** Every run of blanks replaced by one space; [in_run] says that the
    character before was a blank. *)
Fixpoint squeeze (in_run : bool) (s : jsstring) : jsstring :=
  match s with
  | [] => []
  | x :: tl =>
    if is_space x then (if in_run then squeeze true tl else 32 :: squeeze true tl)
    else x :: squeeze false tl
  end.

Definition nbsp_to_space (c : N) : N := if is_nbsp c then 32 else c.

(** The last character of [t] satisfies [p]. *)
Definition ends_in (p : N → bool) (t : jsstring) : bool :=
  match last t with Some c => p c | None => false end.

(** Every blank of [t] is a space, and no two of them are adjacent. *)
Fixpoint single_spaced (after_space : bool) (t : jsstring) : bool :=
  match t with
  | [] => true
  | x :: tl =>
    if is_space x then (x =? 32) && negb after_space && single_spaced true tl
    else single_spaced false tl
  end.

(** [s] split at every character that satisfies [p]. *)
Fixpoint split_by (p : N → bool) (s : jsstring) : list jsstring :=
  match s with
  | [] => [[]]
  | c :: tl =>
    if p c then [] :: split_by p tl
    else match split_by p tl with
         | w :: ws => (c :: w) :: ws
         | [] => [[c]]
         end
  end.

(** The whitespace-delimited tokens of a text. *)
Definition tokens (s : jsstring) : list jsstring :=
  List.filter nonempty (split_by is_space s).

(** [occ] equals the pattern text [w] up to ASCII case. *)
Fixpoint ci_match (w occ : jsstring) : bool :=
  match w, occ with
  | [], [] => true
  | p :: w', c :: occ' => ci_eqb p c && ci_match w' occ'
  | _, _ => false
  end.

(** [s] starts with the pattern text [w], up to ASCII case. *)
Fixpoint ci_prefix (w s : jsstring) : bool :=
  match w with
  | [] => true
  | p :: w' =>
    match s with
    | c :: s' => ci_eqb p c && ci_prefix w' s'
    | [] => false
    end
  end.

(** [s] contains the pattern text [w], up to ASCII case. *)
Fixpoint includes_ci (s w : jsstring) : bool :=
  ci_prefix w s
  || match s with [] => false | _ :: tl => includes_ci tl w end.

(** The operator's not-found wording. *)
Definition not_found_phrases : list jsstring :=
  [js "no data"; js "not found"; js "invalid invoice"; js "does not exist"].

(** A numeric text: digits and thousands separators, then optionally a
    point and one or two digits. *)
Definition is_amount (v : jsstring) : bool :=
  nonempty (take_while is_digit_or_comma v)
  && match drop_while is_digit_or_comma v with
     | [] => true
     | c :: g =>
       (c =? 46) && forallb is_digit g && (1 <=? length g)%nat && (length g <=? 2)%nat
     end.

(** At index [k] of [body] stands, as whole words, the anchor, blanks, the
    numeric text [v], blanks and the currency word. *)
Definition settled_at (body : jsstring) (k : nat) (v : jsstring) : Prop :=
  ∃ a ws ws' b post,
    drop k body = a ++ ws ++ v ++ ws' ++ b ++ post
    ∧ ci_match (js "Settled Amount") a = true
    ∧ forallb is_space ws = true
    ∧ is_amount v = true
    ∧ forallb is_space ws' = true
    ∧ ci_match (js "Birr") b = true
    ∧ word_before (last (take k body)) = false
    ∧ word_after post = false.

(** The numeric text a string starts with. *)
Definition scan_amount (s : jsstring) : jsstring :=
  match drop_while is_digit_or_comma s with
  | 46 :: s2 => take_while is_digit_or_comma s ++ 46 :: take_while is_digit s2
  | _ => take_while is_digit_or_comma s
  end.

(** [(cell[0],cell[1]), (cell[2],cell[3]), …]; a trailing cell is left
    out. *)
Fixpoint consecutive_pairs (arr : list jsstring) : list (jsstring * jsstring) :=
  match arr with
  | k :: v :: tl => (k, v) :: consecutive_pairs tl
  | _ => []
  end.

(** The pairs with a label and a value. *)
Definition survivors (arr : list jsstring) : list (jsstring * jsstring) :=
  List.filter (λ kv, nonempty (fst kv) && nonempty (snd kv)) (consecutive_pairs arr).

(** The value of the first pair labelled [k]. *)
Definition first_value (k : jsstring) (pairs : list (jsstring * jsstring))
    : option jsstring :=
  snd <$> List.find (λ kv, bool_decide (fst kv = k)) pairs.

(** Every value stored in [raw] is non-empty. *)
Definition values_ok (raw : gmap jsstring jsstring) : Prop :=
  ∀ k v, raw !! k = Some v → nonempty v = true.

Section Vocabulary.
Context `{Platform}.

(** The pipeline, run on [tx], passes its gates and gets [page] from the
    fetch. *)
Definition fetches (tx : jsstring) (page : fetched) : Prop :=
  test re_tx tx = true
  ∧ ∃ url, buildReceiptUrlFromTx tx = Ok url
           ∧ assertAllowedHost url = Ok tt
           ∧ fetchReceiptWithPuppeteer url fetchTimeoutMs = Ok page.

(** The pairs a table row yields. *)
Definition row_pairs (row : Cheerio) : list (jsstring * jsstring) :=
  let cells := cheerio_find row (js "th, td") in
  if (length cells <? 2)%nat then []
  else survivors (List.map cellTextNoLinks cells).

(** The pairs of the document, in document order. *)
Definition document_pairs (html : jsstring) : list (jsstring * jsstring) :=
  flat_map row_pairs (cheerio_find (cheerio_load html) (js "table tr")).

End Vocabulary.

(** Boolean comparisons of code units to linear arithmetic. *)
Ltac bool_lia :=
  rewrite ?orb_true_iff, ?andb_true_iff, ?orb_false_iff, ?andb_false_iff,
    ?negb_true_iff, ?negb_false_iff, ?orb_true_iff, ?andb_true_iff,
    ?orb_false_iff, ?andb_false_iff, ?N.leb_le, ?N.leb_gt, ?N.eqb_eq, ?N.eqb_neq in *;
  lia.

(** * Pages the pipeline is run on *)

Definition sample_tx : jsstring := js "ABCDE12345".

Definition sample_url : jsstring :=
  js "https://transactioninfo.ethiotelecom.et/receipt/ABCDE12345".

(** A page of the operator that reports an unknown invoice. *)
Definition not_found_html : jsstring :=
  js "<html><head><title>telebirr transaction information</title></head><body><div><h1>Transaction information</h1><p>Invalid Invoice number. Please check the transaction number and try again.</p><p>Ethio telecom</p></div></body></html>".

Definition not_found_dom : dom :=
  DElem (js "#document")
    [ el "html"
        [ el "head" [el "title" [txt "telebirr transaction information"]];
          el "body"
            [ el "div"
                [ el "h1" [txt "Transaction information"];
                  el "p" [txt "Invalid Invoice number. Please check the transaction number and try again."];
                  el "p" [txt "Ethio telecom"] ] ] ] ].

Definition not_found_platform : Platform :=
  reference_platform (Responds 200 not_found_html sample_url) not_found_dom.

(** The same report on a page of 67 characters. *)
Definition short_html : jsstring :=
  js "<html><head></head><body><p>Transaction not found</p></body></html>".

Definition short_dom : dom := page_of [el "p" [txt "Transaction not found"]].

Definition short_platform : Platform :=
  reference_platform (Responds 200 short_html sample_url) short_dom.

(** A receipt page without a settled amount. *)
Definition no_amount_html : jsstring :=
  js "<html><head><title>telebirr transaction information</title></head><body><table><tr><td>Payer Name</td><td>Abebe Kebede</td></tr><tr><td>Credited party account no</td><td>0911000000</td></tr></table><p>Amount pending</p></body></html>".

Definition no_amount_dom : dom :=
  DElem (js "#document")
    [ el "html"
        [ el "head" [el "title" [txt "telebirr transaction information"]];
          el "body"
            [ table_of
                [ el "tr" [el "td" [txt "Payer Name"]; el "td" [txt "Abebe Kebede"]];
                  el "tr" [el "td" [txt "Credited party account no"];
                           el "td" [txt "0911000000"]] ];
              el "p" [txt "Amount pending"] ] ] ].

Definition no_amount_platform : Platform :=
  reference_platform (Responds 200 no_amount_html sample_url) no_amount_dom.

(** A receipt whose amount cell follows another cell with no blank
    between them. *)
Definition packed_dom : dom :=
  page_of
    [ table_of
        [ el "tr" [el "td" [txt "Paid"]; el "td" [txt "Settled Amount 1,234.50 Birr"]] ] ].

Definition packed_platform : Platform := reference_platform LaunchFails packed_dom.

(** A receipt with a row labelled [constructor]. *)
Definition constructor_dom : dom :=
  page_of
    [ table_of
        [ el "tr" [el "td" [txt "constructor"]; el "td" [txt "Acme Builders"]];
          el "tr" [el "td" [txt "Payer Name"]; el "td" [txt "Abebe Kebede"]] ] ].

Definition constructor_platform : Platform := reference_platform LaunchFails constructor_dom.

Definition sample_platform : Platform := reference_platform LaunchFails sample_receipt.

(** An accepted receipt: invoice row, account row and amount text, with
    blanks between the elements. *)
Definition accepted_html : jsstring :=
  js "<html><head><title>telebirr transaction information</title></head><body><table><tr><td>Invoice No.</td> <td>ABC12345XYZ</td></tr> <tr><td>Credited party account no</td> <td>0911000000</td></tr></table> <p>Settled Amount 500.00 Birr</p></body></html>".

Definition accepted_dom : dom :=
  DElem (js "#document")
    [ el "html"
        [ el "head" [el "title" [txt "telebirr transaction information"]];
          el "body"
            [ table_of
                [ el "tr" [el "td" [txt "Invoice No."]; txt " ";
                           el "td" [txt "ABC12345XYZ"]];
                  txt " ";
                  el "tr" [el "td" [txt "Credited party account no"]; txt " ";
                           el "td" [txt "0911000000"]] ];
              txt " ";
              el "p" [txt "Settled Amount 500.00 Birr"] ] ] ].

Definition accepted_platform : Platform :=
  reference_platform (Responds 200 accepted_html sample_url) accepted_dom.

(** The accepted receipt with another text as the label of its account
    row. *)
Definition labelled_html (label : string) : jsstring :=
  js ("<html><head><title>telebirr transaction information</title></head><body><table><tr><td>Invoice No.</td> <td>ABC12345XYZ</td></tr> <tr><td>"
      ++ label
      ++ "</td> <td>0911000000</td></tr></table> <p>Settled Amount 500.00 Birr</p></body></html>").

Definition labelled_dom (label : string) : dom :=
  DElem (js "#document")
    [ el "html"
        [ el "head" [el "title" [txt "telebirr transaction information"]];
          el "body"
            [ table_of
                [ el "tr" [el "td" [txt "Invoice No."]; txt " ";
                           el "td" [txt "ABC12345XYZ"]];
                  txt " ";
                  el "tr" [el "td" [txt label]; txt " ";
                           el "td" [txt "0911000000"]] ];
              txt " ";
              el "p" [txt "Settled Amount 500.00 Birr"] ] ] ].

Definition labelled_platform (label : string) : Platform :=
  reference_platform (Responds 200 (labelled_html label) sample_url) (labelled_dom label).

(** A page whose body text is the amount line alone. *)
Definition amount_only_dom : dom := page_of [el "p" [txt "Settled Amount 1,234.50 Birr"]].

Definition amount_only_platform : Platform :=
  reference_platform LaunchFails amount_only_dom.

(** A resolved record with an invoice number and an amount, and no
    account. *)
Definition no_account_record : CanonicalReceipt := {|
  payerName := Some (js "Abebe Kebede");
  payerNameParts := None;
  payerTelebirrNo := None;
  creditedPartyName := None;
  creditedPartyNameParts := None;
  creditedPartyAccountNo := None;
  transactionStatus := None;
  invoiceNo := Some (js "ABC12345XYZ");
  paymentDate := None;
  settledAmount := Some (js "500.00");
  rawData := ∅;
  sourceUrl := None;
|}.

(** The fields of a result the examples look at. *)
Definition summary (r : result CanonicalReceipt)
    : option (option jsstring * option jsstring * option jsstring * option jsstring) :=
  match r with
  | Ok c => Some (invoiceNo c, settledAmount c, creditedPartyAccountNo c, sourceUrl c)
  | Throw _ => None
  end.

(** ** Further pages, and the vocabulary of the further properties *)

(** [DD-MM-YYYY hh:mm:ss]: the date separators [-] or [/], one space
    before the time. *)
Definition is_payment_date (v : jsstring) : bool :=
  match v with
  | [d1; d2; s1; m1; m2; s2; y1; y2; y3; y4; sp; h1; h2; c1; n1; n2; c2; e1; e2] =>
    forallb is_digit [d1; d2; m1; m2; y1; y2; y3; y4; h1; h2; n1; n2; e1; e2]
    && is_dash_or_slash s1 && is_dash_or_slash s2
    && (sp =? 32) && (c1 =? 58) && (c2 =? 58)
  | _ => false
  end.

(** A page with a payment date, the date and the time some blanks apart. *)
Definition dated_dom : dom :=
  page_of [el "p" [txt "Payment date 12-05/2024   10:11:12 Settled Amount 20 Birr"]].

Definition dated_platform : Platform := reference_platform LaunchFails dated_dom.

(** The codes of the errors [getReceiptCanonical] raises itself or passes
    on from the steps it calls. *)
Definition getReceiptCanonical_codes : list error_code :=
  [ TX_FORMAT; INVALID_URL; INVALID_PROTOCOL; HOST_NOT_ALLOWED;
    BROWSER_LAUNCH_FAILED; PAGE_TIMEOUT; NAVIGATION_ERROR; PAGE_LOAD_FAILED;
    HTTP_ERROR; EMPTY_HTML; TX_NOT_FOUND; PARSE_FAIL ].

(** The platform [P] with another browser. *)
Definition with_browse (P : Platform)
    (b : jsstring → js_number → browser_outcome) : Platform := {|
  URL_new := @URL_new P;
  Cheerio := @Cheerio P;
  cheerio_load := @cheerio_load P;
  cheerio_find := @cheerio_find P;
  cheerio_clone_without := @cheerio_clone_without P;
  cheerio_text := @cheerio_text P;
  toLowerCase := @toLowerCase P;
  process_env := @process_env P;
  browse := b;
|}.

(** A browser that serves a page for every URL the gate rejects, and
    fails to launch for the others. *)
Definition rogue_browser (u : jsstring) (t : js_number) : browser_outcome :=
  match @assertAllowedHost sample_platform u with
  | Ok _ => LaunchFails
  | Throw _ => Responds 200 accepted_html u
  end.

(** A receipt URL with a further segment and a query. *)
Definition long_receipt_url : jsstring :=
  js "https://transactioninfo.ethiotelecom.et/receipt/ABCDE12345/print?lang=am".

(** * The HTTP front end (server.js) *)

(** The text of the [code] property of an error; an error without a code
    has none. *)
Definition code_text (c : error_code) : option jsstring :=
  match c with
  | TX_FORMAT => Some (js "TX_FORMAT")
  | INVALID_URL => Some (js "INVALID_URL")
  | HOST_NOT_ALLOWED => Some (js "HOST_NOT_ALLOWED")
  | INVALID_PROTOCOL => Some (js "INVALID_PROTOCOL")
  | BROWSER_LAUNCH_FAILED => Some (js "BROWSER_LAUNCH_FAILED")
  | PAGE_LOAD_FAILED => Some (js "PAGE_LOAD_FAILED")
  | PAGE_TIMEOUT => Some (js "PAGE_TIMEOUT")
  | EMPTY_HTML => Some (js "EMPTY_HTML")
  | TX_NOT_FOUND => Some (js "TX_NOT_FOUND")
  | PARSE_FAIL => Some (js "PARSE_FAIL")
  | NAVIGATION_ERROR => Some (js "NAVIGATION_ERROR")
  | UNKNOWN_ERROR => Some (js "UNKNOWN_ERROR")
  | HTTP_ERROR => Some (js "HTTP_ERROR")
  | TX_EXTRACT_FAILED => Some (js "TX_EXTRACT_FAILED")
  | Foreign c => Some c
  | Uncaught _ => None
  end.

(** The object literal [map] of [getStatusCodeForError]. *)
Definition status_map : gmap jsstring N :=
  list_to_map
    [ (js "TX_FORMAT", 400); (js "INVALID_URL", 400); (js "HOST_NOT_ALLOWED", 403);
      (js "INVALID_PROTOCOL", 400); (js "TX_NOT_FOUND", 404);
      (js "MISSING_INPUT", 400); (js "TX_EXTRACT_FAILED", 400);
      (js "HTTP_ERROR", 502); (js "PAGE_TIMEOUT", 504);
      (js "BROWSER_LAUNCH_FAILED", 503); (js "PAGE_LOAD_FAILED", 502);
      (js "NAVIGATION_ERROR", 502); (js "EMPTY_HTML", 502); (js "PARSE_FAIL", 422) ].

(** What [map[code] || 500] yields: a number, or a member of
    [Object.prototype]. *)
Inductive status_value : Type :=
| StatusNumber (n : N)
| StatusInherited.

(** [getStatusCodeForError(code)].  The property key of a [code] that is
    [undefined] is the text [undefined]. *)
Definition getStatusCodeForError (code : option jsstring) : status_value :=
  let key := match code with Some c => c | None => js "undefined" end in
  match status_map !! key with
  | Some n => if n =? 0 then StatusNumber 500 else StatusNumber n
  | None => if inherited key then StatusInherited else StatusNumber 500
  end.

(** A member of the parsed request body, as the handler tells the cases
    apart: a string; a value that is falsy and no string ([undefined],
    [null], [false], [0]); a value that is truthy and no string (a number,
    [true], an array, an object), which has no method [trim]. *)
Inductive body_field : Type :=
| FText (s : jsstring)
| FFalsy
| FOther.

Definition field_truthy (f : body_field) : bool :=
  match f with
  | FText s => nonempty s
  | FFalsy => false
  | FOther => true
  end.

(** [field.trim()] *)
Definition field_trim (f : body_field) : result jsstring :=
  match f with
  | FText s => Ok (trim s)
  | _ => Throw (Error (Uncaught (js "TypeError")) None)
  end.

(** The response of a handler: the status, and of the JSON body the
    members [success], [data], [error.code] and [error.details].  The
    members left out are [error.message], [error.originalError] and
    [meta] (the processing time and a time stamp); a member that is
    [null] and one that is not there are both [None]. *)
Record response := Response {
  r_status : status_value;
  r_success : bool;
  r_data : option CanonicalReceipt;
  r_code : option jsstring;
  r_details : option error_details;
}.

(** [error.details || null] *)
Definition details_or_null (d : option error_details) : option error_details :=
  match d with
  | Some (DetailText []) => None
  | _ => d
  end.

(** The [catch] block of the two receipt handlers. *)
Definition error_response (e : error) : response := {|
  r_status := getStatusCodeForError (code_text (code e));
  r_success := false;
  r_data := None;
  r_code := js_or (code_text (code e)) (Some (js "UNKNOWN_ERROR"));
  r_details := details_or_null (details e);
|}.

(** [res.json({ success: true, data: result, ... })] *)
Definition success_response (c : CanonicalReceipt) : response := {|
  r_status := StatusNumber 200;
  r_success := true;
  r_data := Some c;
  r_code := None;
  r_details := None;
|}.

Definition respond (r : result CanonicalReceipt) : response :=
  match r with
  | Ok c => success_response c
  | Throw e => error_response e
  end.

Section Server.
Context `{Platform}.

(** [app.post("/api/check-receipt", ...)] on a body with the members
    [url] and [transactionCode]. *)
Definition check_receipt (url transactionCode : body_field) : response :=
  if negb (field_truthy url) && negb (field_truthy transactionCode) then
    {| r_status := StatusNumber 400;
       r_success := false;
       r_data := None;
       r_code := Some (js "MISSING_INPUT");
       r_details := None |}
  else
    respond
      (if field_truthy transactionCode then
         tx ← field_trim transactionCode; getReceiptCanonical tx
       else
         u ← field_trim url; getReceiptFromUrl u).

(** [app.get("/api/receipt/:txCode", ...)] *)
Definition get_receipt (txCode : jsstring) : response :=
  respond (getReceiptCanonical (trim txCode)).

End Server.

(** The statuses of the map. *)
Definition error_statuses : list N := [400; 403; 404; 422; 502; 503; 504].

(** A platform whose browser fails with an error of the library that has
    a code of its own. *)
Definition refused_platform : Platform :=
  reference_platform (Throws (js "Error") (Some (js "ERR_CONNECTION_REFUSED")))
    sample_receipt.

(** * The browser session, call by call

    [getBrowser], [closeBrowser] and [fetchReceiptWithPuppeteer] with the
    calls they make on the browser library, each with the outcome the
    library gives it.  The module variable [browserInstance] and the
    variable [page] of the fetch in progress are the state; the calls are
    recorded in the order in which they are made. *)

Module Browser.

(** An error of the browser library or the runtime: its [name], and its
    [code] if it has one. *)
Record lib_error := LibError {
  e_name : jsstring;
  e_code : option jsstring;
}.

(** What is thrown inside the module: an error of the library, or one the
    module made itself with [new Error] and a code. *)
Inductive thrown : Type :=
| Lib (e : lib_error)
| Own (e : error).

(** [error.name] *)
Definition name_of (t : thrown) : jsstring :=
  match t with
  | Lib e => e_name e
  | Own _ => js "Error"
  end.

(** [error.code] *)
Definition code_of (t : thrown) : option jsstring :=
  match t with
  | Lib e => e_code e
  | Own e => code_text (code e)
  end.

(** The asynchronous calls on the library, and [console.error]. *)
Inductive call : Type :=
| Launch
| NewPage
| SetViewport
| SetUserAgent
| SetExtraHTTPHeaders
| SetRequestInterception
| Goto (url : jsstring) (timeoutMs : js_number)
| WaitForSelector
| Content
| PageClose
| BrowserClose
| ConsoleError.

(** A call that was made, and whether it came back without an error. *)
Record event := Ev {
  ev_call : call;
  ev_ok : bool;
}.

(** What the library does in the course of one function call of the
    module: the outcome of each call the function may make. *)
Record session := Session {
  s_isConnected : bool;
  s_launch : lib_error + N;
  s_newPage : option lib_error;
  s_setViewport : option lib_error;
  s_setUserAgent : option lib_error;
  s_setExtraHTTPHeaders : option lib_error;
  s_setRequestInterception : option lib_error;
  (** the [errorText] of the requests that failed before [goto] returned *)
  s_requestfailed : list (option jsstring);
  (** [page.goto]: an error, [null], or a response with its status *)
  s_goto : lib_error + option N;
  s_waitForSelector : option lib_error;
  s_content : lib_error + jsstring;
  (** [page.url()] *)
  s_url : jsstring;
  s_pageClose : option lib_error;
  s_browserClose : option lib_error;
}.

Record state := State {
  (** the browser [browserInstance] holds, if any *)
  browserInstance : option N;
  (** whether [page] holds a page *)
  page : bool;
  trace : list event;
}.

(** A computation that may throw. *)
Definition M (A : Type) : Type := state → (thrown + A) * state.

#[global] Instance M_ret : MRet M := λ A a st, (inr a, st).
#[global] Instance M_bind : MBind M :=
  λ A B k m st,
    match m st with
    | (inr a, st') => k a st'
    | (inl t, st') => (inl t, st')
    end.

Definition throw {A} (t : thrown) : M A := λ st, (inl t, st).

(** [try { body } catch (error) { handler }] *)
Definition try_catch {A} (body : M A) (handler : thrown → M A) : M A :=
  λ st,
    match body st with
    | (inl t, st') => handler t st'
    | (inr a, st') => (inr a, st')
    end.

(** [try { body } finally { final }] *)
Definition try_finally {A} (body : M A) (final : M unit) : M A :=
  λ st,
    match body st with
    | (r, st') =>
      match final st' with
      | (inl t, st'') => (inl t, st'')
      | (inr _, st'') => (r, st'')
      end
    end.

Definition get_state : M state := λ st, (inr st, st).

Definition set_browserInstance (b : option N) : M unit :=
  λ st, (inr tt, State b (page st) (trace st)).

Definition set_page (p : bool) : M unit :=
  λ st, (inr tt, State (browserInstance st) p (trace st)).

Definition record (e : event) (st : state) : state :=
  State (browserInstance st) (page st) (trace st ++ [e]).

(** [await c] for a call without a result. *)
Definition await (c : call) (outcome : option lib_error) : M unit :=
  λ st,
    match outcome with
    | Some e => (inl (Lib e), record (Ev c false) st)
    | None => (inr tt, record (Ev c true) st)
    end.

(** [await c] for a call with a result. *)
Definition await_value {A} (c : call) (outcome : lib_error + A) : M A :=
  λ st,
    match outcome with
    | inl e => (inl (Lib e), record (Ev c false) st)
    | inr a => (inr a, record (Ev c true) st)
    end.

Definition console_error : M unit := λ st, (inr tt, record (Ev ConsoleError true) st).

(** The [try] of [getBrowser]. *)
Definition launch (s : session) : M N :=
  try_catch
    (b ← await_value Launch (s_launch s);
     _ ← set_browserInstance (Some b);
     mret b)
    (λ _, throw (Own (Error BROWSER_LAUNCH_FAILED None))).

(** [getBrowser()] *)
Definition getBrowser (s : session) : M N :=
  st ← get_state;
  match browserInstance st with
  | Some b => if s_isConnected s then mret b else launch s
  | None => launch s
  end.

(** The handler [getBrowser] registers for [disconnected]. *)
Definition on_disconnected : M unit := set_browserInstance None.

(** [closeBrowser()] *)
Definition closeBrowser (s : session) : M unit :=
  st ← get_state;
  match browserInstance st with
  | Some _ =>
    _ ← try_catch (await BrowserClose (s_browserClose s)) (λ _, console_error);
    set_browserInstance None
  | None => mret tt
  end.

(** [requestError] when [goto] has returned: every failed request sets it
    to [request.failure()?.errorText || "Request failed"]. *)
Definition requestError (s : session) : option jsstring :=
  match last (s_requestfailed s) with
  | Some errorText => js_or errorText (Some (js "Request failed"))
  | None => None
  end.

(** The [try] block of [fetchReceiptWithPuppeteer]. *)
Definition fetch_try (s : session) (url : jsstring) (timeoutMs : js_number)
    : M fetched :=
  _ ← await NewPage (s_newPage s);
  _ ← set_page true;
  _ ← await SetViewport (s_setViewport s);
  _ ← await SetUserAgent (s_setUserAgent s);
  _ ← await SetExtraHTTPHeaders (s_setExtraHTTPHeaders s);
  _ ← await SetRequestInterception (s_setRequestInterception s);
  response ← await_value (Goto url timeoutMs) (s_goto s);
  match response with
  | None =>
    throw (Own (Error PAGE_LOAD_FAILED
                  (if truthy (requestError s)
                   then DetailText <$> requestError s else None)))
  | Some status =>
    if 400 <=? status then throw (Own (Error HTTP_ERROR None))
    else
      _ ← await WaitForSelector (s_waitForSelector s);
      html ← await_value Content (s_content s);
      mret (Fetched html status (s_url s))
  end.

(** Its [catch] block. *)
Definition fetch_catch (error : thrown) : M fetched :=
  if bool_decide (name_of error = js "TimeoutError")
  then throw (Own (Error PAGE_TIMEOUT None))
  else if truthy (code_of error) then throw error
  else throw (Own (Error NAVIGATION_ERROR None)).

(** What the [catch] block throws. *)
Definition rethrown (error : thrown) : thrown :=
  if bool_decide (name_of error = js "TimeoutError") then Own (Error PAGE_TIMEOUT None)
  else if truthy (code_of error) then error
  else Own (Error NAVIGATION_ERROR None).

(** Its [finally] block. *)
Definition fetch_finally (s : session) : M unit :=
  st ← get_state;
  if page st
  then try_catch (await PageClose (s_pageClose s)) (λ _, console_error)
  else mret tt.

(** [fetchReceiptWithPuppeteer(url, timeoutMs)] *)
Definition fetchReceiptWithPuppeteer (s : session) (url : jsstring)
    (timeoutMs : js_number) : M fetched :=
  _ ← getBrowser s;
  _ ← set_page false;
  try_finally (try_catch (fetch_try s url timeoutMs) fetch_catch) (fetch_finally s).

(** The error the caller gets. *)
Definition to_error (t : thrown) : error :=
  match t with
  | Own e => e
  | Lib e =>
    Error (match e_code e with
           | Some (x :: xs) => Foreign (x :: xs)
           | _ => Uncaught (e_name e)
           end) None
  end.

Definition result_of {A} (r : (thrown + A) * state) : result A :=
  match fst r with
  | inr a => Ok a
  | inl t => Throw (to_error t)
  end.

(** The first of the outcomes that is an error. *)
Fixpoint first_error (l : list (option lib_error)) : option lib_error :=
  match l with
  | [] => None
  | Some e :: _ => Some e
  | None :: tl => first_error tl
  end.

(** [getBrowser] has to launch a browser. *)
Definition needs_launch (s : session) (st : state) : bool :=
  match browserInstance st with
  | Some _ => negb (s_isConnected s)
  | None => true
  end.

(** What a session comes to, from the state [st] on. *)
Definition outcome (s : session) (st : state) : browser_outcome :=
  match (if needs_launch s st then s_launch s else inr 0) with
  | inl _ => LaunchFails
  | inr _ =>
    match first_error [ s_newPage s; s_setViewport s; s_setUserAgent s;
                        s_setExtraHTTPHeaders s; s_setRequestInterception s ] with
    | Some e => Throws (e_name e) (e_code e)
    | None =>
      match s_goto s with
      | inl e => Throws (e_name e) (e_code e)
      | inr None => NoResponse (requestError s)
      | inr (Some status) =>
        if 400 <=? status then Responds status [] []
        else match s_waitForSelector s, s_content s with
             | Some e, _ => Throws (e_name e) (e_code e)
             | None, inl e => Throws (e_name e) (e_code e)
             | None, inr html => Responds status html (s_url s)
             end
      end
    end
  end.

(** The session [s] with another outcome of [page.close()]. *)
Definition with_pageClose (s : session) (c : option lib_error) : session := {|
  s_isConnected := s_isConnected s;
  s_launch := s_launch s;
  s_newPage := s_newPage s;
  s_setViewport := s_setViewport s;
  s_setUserAgent := s_setUserAgent s;
  s_setExtraHTTPHeaders := s_setExtraHTTPHeaders s;
  s_setRequestInterception := s_setRequestInterception s;
  s_requestfailed := s_requestfailed s;
  s_goto := s_goto s;
  s_waitForSelector := s_waitForSelector s;
  s_content := s_content s;
  s_url := s_url s;
  s_pageClose := c;
  s_browserClose := s_browserClose s;
|}.

(** A page was opened. *)
Definition opens (e : event) : bool :=
  match e with Ev NewPage true => true | _ => false end.

(** The browser was launched or closed. *)
Definition on_browser (e : event) : bool :=
  match ev_call e with
  | Launch | BrowserClose => true
  | _ => false
  end.

(** [page.close()] was called. *)
Definition closes (e : event) : bool :=
  match ev_call e with PageClose => true | _ => false end.

(** The events of the [finally] block after a page was opened. *)
Definition closing (s : session) : list event :=
  match s_pageClose s with
  | None => [Ev PageClose true]
  | Some _ => [Ev PageClose false; Ev ConsoleError true]
  end.

(** Fetches one after the other, each with its session. *)
Fixpoint fetch_all (reqs : list (session * jsstring * js_number)) (st : state)
    : state :=
  match reqs with
  | [] => st
  | (s, url, timeoutMs) :: tl =>
    fetch_all tl (snd (fetchReceiptWithPuppeteer s url timeoutMs st))
  end.

(** The events of [closeBrowser] when there is a browser. *)
Definition closing_browser (s : session) : list event :=
  match s_browserClose s with
  | None => [Ev BrowserClose true]
  | Some _ => [Ev BrowserClose false; Ev ConsoleError true]
  end.

(** A session in which the navigation times out. *)
Definition timeout_session : session := {|
  s_isConnected := true;
  s_launch := inr 1;
  s_newPage := None;
  s_setViewport := None;
  s_setUserAgent := None;
  s_setExtraHTTPHeaders := None;
  s_setRequestInterception := None;
  s_requestfailed := [];
  s_goto := inl (LibError (js "TimeoutError") None);
  s_waitForSelector := None;
  s_content := inr [];
  s_url := [];
  s_pageClose := Some (LibError (js "Error") None);
  s_browserClose := None;
|}.

End Browser.

(** The labels of the credited-party account number. *)
Definition account_labels : list jsstring :=
  [ js "የገንዘብ ተቀባይ ቴሌብር ቁ./Credited party account no";
    js "Credited party account no" ].

(** A receipt with two account rows: the one with the English label
    comes first, the one with the bilingual label second. *)
Definition both_labels_html : jsstring :=
  js "<html><head><title>telebirr transaction information</title></head><body><table><tr><td>Invoice No.</td> <td>ABC12345XYZ</td></tr> <tr><td>Credited party account no</td> <td>0922000000</td></tr> <tr><td>የገንዘብ ተቀባይ ቴሌብር ቁ./Credited party account no</td> <td>0911000000</td></tr></table> <p>Settled Amount 500.00 Birr</p></body></html>".

Definition both_labels_dom : dom :=
  DElem (js "#document")
    [ el "html"
        [ el "head" [el "title" [txt "telebirr transaction information"]];
          el "body"
            [ table_of
                [ el "tr" [el "td" [txt "Invoice No."]; txt " ";
                           el "td" [txt "ABC12345XYZ"]];
                  txt " ";
                  el "tr" [el "td" [txt "Credited party account no"]; txt " ";
                           el "td" [txt "0922000000"]];
                  txt " ";
                  el "tr" [el "td" [txt "የገንዘብ ተቀባይ ቴሌብር ቁ./Credited party account no"];
                           txt " ";
                           el "td" [txt "0911000000"]] ];
              txt " ";
              el "p" [txt "Settled Amount 500.00 Birr"] ] ] ].

Definition both_labels_platform : Platform :=
  reference_platform (Responds 200 both_labels_html sample_url) both_labels_dom.

(** The account entries of the record a call returns. *)
Definition account_entries (r : result CanonicalReceipt)
  : option (option jsstring * option jsstring * option jsstring) :=
  match r with
  | Ok c =>
      Some (rawData c !! js "የገንዘብ ተቀባይ ቴሌብር ቁ./Credited party account no",
            rawData c !! js "Credited party account no",
            creditedPartyAccountNo c)
  | Throw _ => None
  end.

(** A platform whose receipt template has no placeholder. *)
Definition fixed_template_platform : Platform := {|
  URL_new := simple_URL;
  Cheerio := dom;
  cheerio_load := λ _, sample_receipt;
  cheerio_find := dom_find;
  cheerio_clone_without := dom_without;
  cheerio_text := flat_map dom_text;
  toLowerCase := List.map ascii_lower;
  process_env := λ name,
    if bool_decide (name = js "RECEIPT_URL_TEMPLATE")
    then Some (js "https://transactioninfo.ethiotelecom.et/receipt/latest")
    else None;
  browse := λ _ _, LaunchFails;
|}.

(** * Properties *)

(** ** The pattern matcher *)

Lemma take_drop_while p s : take_while p s ++ drop_while p s = s.
Proof. induction s as [|x tl IH]; simpl; [done|]. destruct (p x); simpl; [rewrite IH; done|done]. Qed.

Lemma take_while_all p s : forallb p (take_while p s) = true.
Proof. induction s as [|x tl IH]; simpl; [done|]. destruct (p x) eqn:E; simpl; [rewrite E; done|done]. Qed.

Lemma drop_while_head p s : match drop_while p s with x :: _ => p x = false | [] => True end.
Proof. induction s as [|x tl IH]; simpl; [done|]. destruct (p x) eqn:E; [done|]. simpl. done. Qed.

Lemma last_or_cons prev x run : last_or prev (x :: run) = last_or (Some x) run.
Proof.
  unfold last_or. destruct run as [|y r]; [done|].
  change (last (x :: y :: r)) with (last (y :: r)).
  assert (Hs : is_Some (last (y :: r))).
  { clear. revert y. induction r as [|z r IH]; intros y; [by eexists|]. apply (IH z). }
  destruct Hs as [c ->]. done.
Qed.

Lemma rep_ends_spec p lo hi prev rest pv rs :
  In (pv, rs) (rep_ends p lo hi prev rest) ↔
  ∃ run, rest = run ++ rs ∧ forallb p run = true ∧ (lo ≤ length run)%nat
         ∧ match hi with Some h => (length run ≤ h)%nat | None => True end
         ∧ pv = last_or prev run.
Proof.
  revert lo hi prev. induction rest as [|x tl IH]; intros lo hi prev.
  - assert (Hstop : In (pv, rs) (match lo with O => [(prev, [])] | S _ => [] end) ↔
       ∃ run : jsstring, [] = run ++ rs ∧ forallb p run = true ∧ (lo ≤ length run)%nat
         ∧ match hi with Some h => (length run ≤ h)%nat | None => True end
         ∧ pv = last_or prev run).
    { split.
      - destruct lo; simpl; [|done]. intros [[= <- <-]|[]]. exists []. simpl.
        repeat split; try done; try (simpl; lia). destruct hi; [lia|done].
      - intros (run & Hr & _ & Hlo & _ & Hpv). symmetry in Hr.
        apply app_eq_nil in Hr as [-> ->]. simpl in *. destruct lo; [|lia]. left. by rewrite Hpv. }
    simpl. destruct hi as [[|h]|]; exact Hstop.
  - assert (Hstop : ∀ run, run = [] →
       (In (pv, rs) (match lo with O => [(prev, x :: tl)] | S _ => [] end) ↔
        (x :: tl = run ++ rs ∧ forallb p run = true ∧ (lo ≤ length run)%nat
         ∧ pv = last_or prev run))).
    { intros run ->. simpl. split.
      - destruct lo; simpl; [|done]. intros [[= <- <-]|[]]. done.
      - intros (Hr & _ & Hlo & Hpv). destruct lo; [|lia]. left. by rewrite Hpv, Hr. }
    destruct hi as [[|h]|].
    + simpl. rewrite (Hstop [] eq_refl). split.
      * intros (? & ? & ? & ?). exists []. repeat split; try done; try (simpl; lia).
      * intros (run & Hr & Hp & Hlo & Hhi & Hpv). destruct run; [|simpl in Hhi; lia]. done.
    + simpl. destruct (p x) eqn:Epx.
      * rewrite in_app_iff, IH, (Hstop [] eq_refl). split.
        -- intros [(run & Hr & Hp & Hlo & Hhi & Hpv)|(? & ? & ? & ?)].
           ++ exists (x :: run). simpl. rewrite Epx, Hp, Hr. repeat split; try done; try lia.
              by rewrite last_or_cons.
           ++ exists []. repeat split; try done; try (simpl; lia).
        -- intros (run & Hr & Hp & Hlo & Hhi & Hpv). destruct run as [|y run].
           ++ right. done.
           ++ left. simpl in Hr. injection Hr as <- ->. exists run. simpl in *.
              rewrite Epx in Hp. simpl in Hp. rewrite last_or_cons in Hpv.
              repeat split; try done; try lia.
      * rewrite (Hstop [] eq_refl). split.
        -- intros (? & ? & ? & ?). exists []. repeat split; try done; try (simpl; lia).
        -- intros (run & Hr & Hp & Hlo & Hhi & Hpv). destruct run as [|y run]; [done|].
           simpl in Hr. injection Hr as <- ->. simpl in Hp. by rewrite Epx in Hp.
    + simpl. destruct (p x) eqn:Epx.
      * rewrite in_app_iff, IH, (Hstop [] eq_refl). split.
        -- intros [(run & Hr & Hp & Hlo & Hhi & Hpv)|(? & ? & ? & ?)].
           ++ exists (x :: run). simpl. rewrite Epx, Hp, Hr. repeat split; try done; try lia.
              by rewrite last_or_cons.
           ++ exists []. repeat split; try done.
        -- intros (run & Hr & Hp & Hlo & Hhi & Hpv). destruct run as [|y run].
           ++ right. done.
           ++ left. simpl in Hr. injection Hr as <- ->. exists run. simpl in *.
              rewrite Epx in Hp. simpl in Hp. rewrite last_or_cons in Hpv.
              repeat split; try done; try lia.
      * rewrite (Hstop [] eq_refl). split.
        -- intros (? & ? & ? & ?). exists []. repeat split; try done.
        -- intros (run & Hr & Hp & Hlo & Hhi & Hpv). destruct run as [|y run]; [done|].
           simpl in Hr. injection Hr as <- ->. simpl in Hp. by rewrite Epx in Hp.
Qed.

Lemma prefix_run_le p run rs :
  forallb p run = true → (length run ≤ length (take_while p (run ++ rs)))%nat.
Proof.
  induction run as [|x run IH]; simpl; [lia|].
  intros [Hx Hr]%andb_prop. rewrite Hx. simpl. specialize (IH Hr). lia.
Qed.

Lemma rep_ends_short p lo hi prev rest :
  (length (take_while p rest) < lo)%nat → rep_ends p lo hi prev rest = [].
Proof.
  intros Hlt. destruct (rep_ends p lo hi prev rest) as [|[pv rs] l] eqn:E; [done|].
  assert (Hin : In (pv, rs) (rep_ends p lo hi prev rest)) by (rewrite E; left; done).
  apply rep_ends_spec in Hin as (run & -> & Hp & Hlo & _).
  pose proof (prefix_run_le p run rs Hp). lia.
Qed.

Lemma rep_ends_greedy p lo prev rest :
  (lo ≤ length (take_while p rest))%nat →
  head (rep_ends p lo None prev rest)
  = Some (last_or prev (take_while p rest), drop_while p rest).
Proof.
  revert lo prev. induction rest as [|x tl IH]; intros lo prev Hlo; simpl in *.
  - destruct lo; [done|lia].
  - destruct (p x) eqn:Epx; simpl in *.
    + specialize (IH (Nat.pred lo) (Some x) ltac:(lia)).
      destruct (rep_ends p (Nat.pred lo) None (Some x) tl) as [|e l]; [done|].
      simpl in *. rewrite last_or_cons. done.
    + destruct lo; [done|lia].
Qed.

Lemma in_ends_cat a b st st' :
  In st' (ends (Cat a b) st) ↔ ∃ m, In m (ends a st) ∧ In st' (ends b m).
Proof. simpl. apply in_flat_map. Qed.

Lemma in_ends_rep p lo hi st st' :
  In st' (ends (Rep p lo hi) st) ↔
  ∃ run, m_rest st = run ++ m_rest st' ∧ forallb p run = true
         ∧ (lo ≤ length run)%nat
         ∧ match hi with Some h => (length run ≤ h)%nat | None => True end
         ∧ m_prev st' = last_or (m_prev st) run ∧ m_cap st' = m_cap st.
Proof.
  simpl. rewrite in_map_iff. split.
  - intros ([pv rs] & <- & Hin). apply rep_ends_spec in Hin as (run & ? & ? & ? & ? & ?).
    exists run. simpl. done.
  - intros (run & ? & ? & ? & ? & ? & ?). exists (m_prev st', m_rest st'). split.
    + destruct st'; simpl in *. congruence.
    + apply rep_ends_spec. exists run. done.
Qed.

Lemma in_ends_eol st st' : In st' (ends Eol st) ↔ st' = st ∧ m_rest st = [].
Proof.
  simpl. destruct (m_rest st); simpl; split.
  - intros [<-|[]]. done.
  - intros [-> _]. by left.
  - done.
  - intros [_ [=]].
Qed.

Lemma last_or_None run : last_or None run = last run.
Proof. unfold last_or. by destruct (last run). Qed.

Lemma last_or_nil prev : last_or prev [] = prev.
Proof. done. Qed.

Lemma search_some_gen r rest : ∀ pre before st,
  search r pre rest = Some (before, st) ↔
  ∃ k, (k ≤ length rest)%nat ∧ before = rev pre ++ take k rest
       ∧ head (ends r (MState (last_or (head pre) (take k rest)) (drop k rest) None)) = Some st
       ∧ ∀ j, (j < k)%nat →
           ends r (MState (last_or (head pre) (take j rest)) (drop j rest) None) = [].
Proof.
  induction rest as [|x tl IH]; intros pre before st.
  - simpl. split.
    + destruct (ends r (MState (head pre) [] None)) as [|st0 l] eqn:E; [done|].
      intros [= <- <-]. exists 0%nat. simpl. rewrite last_or_nil, E, app_nil_r.
      repeat split; try done. lia.
    + intros (k & Hk & -> & Hh & _). assert (k = 0%nat) as -> by (simpl in Hk; lia).
      simpl in *. unfold last_or in Hh. simpl in Hh.
      destruct (ends r (MState (head pre) [] None)); [done|]. simpl in Hh.
      injection Hh as ->. by rewrite app_nil_r.
  - simpl. destruct (ends r (MState (head pre) (x :: tl) None)) as [|st0 l] eqn:E.
    + rewrite IH. split.
      * intros (k & Hk & -> & Hh & Hj). exists (S k). simpl.
        rewrite last_or_cons. repeat split; try done; try lia.
        -- by rewrite <- app_assoc.
        -- intros [|j] Hlt; simpl; [exact E|]. rewrite last_or_cons. apply Hj. lia.
      * intros (k & Hk & -> & Hh & Hj). destruct k as [|k].
        -- simpl in Hh. unfold last_or in Hh. simpl in Hh. by rewrite E in Hh.
        -- exists k. simpl in *. rewrite last_or_cons in Hh.
           repeat split; try done; try lia.
           ++ by rewrite <- app_assoc.
           ++ intros j Hlt. specialize (Hj (S j) ltac:(lia)). simpl in Hj.
              by rewrite last_or_cons in Hj.
    + split.
      * intros [= <- <-]. exists 0%nat. simpl. rewrite app_nil_r.
        unfold last_or; simpl. rewrite E. repeat split; try done; try lia.
      * intros (k & Hk & -> & Hh & Hj). destruct k as [|k].
        -- simpl in *. unfold last_or in Hh; simpl in Hh. rewrite E in Hh.
           injection Hh as ->. by rewrite app_nil_r.
        -- specialize (Hj 0%nat ltac:(lia)). simpl in Hj. unfold last_or in Hj; simpl in Hj.
           by rewrite E in Hj.
Qed.

Lemma search_some r s before st :
  search r [] s = Some (before, st) ↔
  ∃ k, (k ≤ length s)%nat ∧ before = take k s
       ∧ head (ends r (at_pos s k)) = Some st
       ∧ ∀ j, (j < k)%nat → ends r (at_pos s j) = [].
Proof.
  rewrite search_some_gen. unfold at_pos. simpl.
  split; intros (k & Hk & Hb & Hh & Hj); exists k; repeat split; try done.
  - by rewrite last_or_None in Hh.
  - intros j Hlt. specialize (Hj j Hlt). by rewrite last_or_None in Hj.
  - by rewrite last_or_None.
  - intros j Hlt. rewrite last_or_None. by apply Hj.
Qed.

Lemma search_none_gen r rest : ∀ pre,
  search r pre rest = None ↔
  ∀ j, (j ≤ length rest)%nat →
       ends r (MState (last_or (head pre) (take j rest)) (drop j rest) None) = [].
Proof.
  induction rest as [|x tl IH]; intros pre; simpl.
  - destruct (ends r (MState (head pre) [] None)) as [|st0 l] eqn:E; split; try done.
    + intros _ j Hj. assert (j = 0%nat) as -> by lia. done.
    + intros Hj. specialize (Hj 0%nat ltac:(lia)). unfold last_or in Hj; simpl in Hj. by rewrite E in Hj.
  - destruct (ends r (MState (head pre) (x :: tl) None)) as [|st0 l] eqn:E.
    + rewrite IH. split.
      * intros Hj [|j] Hle; simpl; [exact E|]. rewrite last_or_cons. apply Hj. lia.
      * intros Hj j Hle. specialize (Hj (S j) ltac:(lia)). simpl in Hj.
        by rewrite last_or_cons in Hj.
    + split; [done|]. intros Hj. specialize (Hj 0%nat ltac:(lia)).
      unfold last_or in Hj; simpl in Hj. by rewrite E in Hj.
Qed.

Lemma search_none r s :
  search r [] s = None ↔ ∀ j, (j ≤ length s)%nat → ends r (at_pos s j) = [].
Proof.
  rewrite search_none_gen. unfold at_pos. simpl.
  split; intros Hj j Hle; specialize (Hj j Hle); by rewrite last_or_None in *.
Qed.

Lemma replace_all_nbsp s : replace_all re_nbsp [32] s = List.map nbsp_to_space s.
Proof.
  unfold replace_all. generalize (@None N) as prev.
  induction s as [|x tl IH]; intros prev; simpl; [done|].
  unfold nbsp_to_space. destruct (is_nbsp x); simpl.
  - replace (S (length tl) - length tl)%nat with 1%nat by lia. rewrite IH. done.
  - rewrite IH. done.
Qed.

Lemma squeeze_flag b b' s :
  length (take_while is_space s) = 0%nat → squeeze b s = squeeze b' s.
Proof. destruct s as [|x tl]; simpl; [done|]. destruct (is_space x); simpl; [lia|done]. Qed.

Lemma length_take_drop_while p s :
  (length s - length (drop_while p s))%nat = length (take_while p s).
Proof.
  rewrite <- (take_drop_while p s) at 1. rewrite length_app. lia.
Qed.

Lemma ends_spaces_some prev x tl :
  is_space x = true →
  ∃ st l, ends re_spaces (MState prev (x :: tl) None) = st :: l
          ∧ m_rest st = drop_while is_space tl.
Proof.
  intros Hx. unfold re_spaces. simpl ends.
  pose proof (rep_ends_greedy is_space 1 prev (x :: tl)) as Hg.
  simpl in Hg. rewrite Hx in Hg. simpl in Hg. specialize (Hg ltac:(lia)).
  simpl. rewrite Hx.
  destruct (rep_ends is_space 0 None (Some x) tl ++ []) as [|e l]; [done|].
  simpl in Hg. injection Hg as ->. eexists _, _. split; [reflexivity|]. done.
Qed.

Lemma ends_spaces_none prev rest :
  match rest with x :: _ => is_space x = false | [] => True end →
  ends re_spaces (MState prev rest None) = [].
Proof.
  intros Hx. unfold re_spaces. simpl. rewrite rep_ends_short; [done|].
  destruct rest as [|x tl]; simpl; [lia|]. rewrite Hx. simpl. lia.
Qed.

Lemma replace_all_go_spaces rest : ∀ k prev,
  k = 0%nat ∨ k = length (take_while is_space rest) →
  replace_all_go re_spaces [32] k prev rest = squeeze (negb (k =? 0)%nat) rest.
Proof.
  induction rest as [|x tl IH]; intros k prev Hk.
  - destruct k as [|k]; [|simpl in Hk; lia]. simpl. done.
  - destruct k as [|k].
    + cbn [replace_all_go Nat.eqb negb]. destruct (is_space x) eqn:Hx.
      * destruct (ends_spaces_some prev x tl Hx) as (st & l & -> & Hst).
        rewrite Hst. cbn [length].
        replace (S (length tl) - length (drop_while is_space tl))%nat
          with (S (length (take_while is_space tl))).
        2:{ pose proof (length_take_drop_while is_space tl).
            assert (length (drop_while is_space tl) ≤ length tl)%nat.
            { rewrite <- (take_drop_while is_space tl) at 2. rewrite length_app. lia. }
            lia. }
        rewrite IH by (by right). simpl. rewrite Hx.
        destruct (length (take_while is_space tl)) eqn:El; simpl; [|done].
        f_equal. by apply squeeze_flag.
      * rewrite ends_spaces_none by done. rewrite IH by (by left). simpl. by rewrite Hx.
    + destruct Hk as [?|Hk]; [lia|]. simpl in Hk. destruct (is_space x) eqn:Hx; [|simpl in Hk; lia].
      simpl in Hk. injection Hk as ->. cbn [replace_all_go].
      rewrite IH by (by right). simpl. rewrite Hx.
      destruct (length (take_while is_space tl)) eqn:El; simpl; [|done].
      by apply squeeze_flag.
Qed.

Lemma replace_all_spaces s : replace_all re_spaces [32] s = squeeze false s.
Proof. unfold replace_all. rewrite replace_all_go_spaces by (by left). done. Qed.

Lemma ends_trailing_all p prev rest st :
  In st (ends (Cat (Rep p 1 None) Eol) (MState prev rest None)) →
  m_rest st = [] ∧ forallb p rest = true ∧ rest ≠ [].
Proof.
  intros (m & Hm & He)%in_ends_cat.
  apply in_ends_rep in Hm as (run & Hr & Hp & Hlo & _).
  apply in_ends_eol in He as [-> Hnil]. simpl in Hr. rewrite Hnil, app_nil_r in Hr.
  subst run. repeat split; try done. intros ->. simpl in Hlo. lia.
Qed.

Lemma ends_trailing_some p prev rest :
  forallb p rest = true → rest ≠ [] →
  ∃ st, In st (ends (Cat (Rep p 1 None) Eol) (MState prev rest None)).
Proof.
  intros Hp Hne. exists (MState (last_or prev rest) [] None).
  apply in_ends_cat. exists (MState (last_or prev rest) [] None). split.
  - apply in_ends_rep. exists rest. simpl. rewrite app_nil_r.
    repeat split; try done. destruct rest; [done|simpl; lia].
  - apply in_ends_eol. done.
Qed.

Lemma replace_trailing_gen p rest : ∀ pre,
  match search (Cat (Rep p 1 None) Eol) pre rest with
  | Some (before, st) => before ++ [] ++ m_rest st
  | None => rev pre ++ rest
  end = rev pre ++ strip_trailing p rest.
Proof.
  induction rest as [|x tl IH]; intros pre.
  - simpl. done.
  - cbn [search strip_trailing].
    destruct (ends (Cat (Rep p 1 None) Eol) (MState (head pre) (x :: tl) None))
      as [|st l] eqn:E.
    + destruct (forallb p (x :: tl)) eqn:Hall.
      * destruct (ends_trailing_some p (head pre) (x :: tl) Hall) as [st Hst]; [done|].
        rewrite E in Hst. destruct Hst.
      * specialize (IH (x :: pre)). simpl in IH. rewrite <- !app_assoc in IH. exact IH.
    + assert (Hin : In st (ends (Cat (Rep p 1 None) Eol) (MState (head pre) (x :: tl) None)))
        by (rewrite E; by left).
      apply ends_trailing_all in Hin as (-> & -> & _). done.
Qed.

Lemma replace_trailing_colons s :
  replace re_trailing_colons [] s = strip_trailing is_colon s.
Proof.
  unfold replace, re_trailing_colons.
  pose proof (replace_trailing_gen is_colon s []) as Hg. simpl in Hg.
  destruct (search _ [] s) as [[before st]|]; exact Hg.
Qed.

(** [cleanText] as a composition of list functions. *)
Lemma cleanText_eq s :
  cleanText (Some s)
  = trim (strip_trailing is_colon (squeeze false (List.map nbsp_to_space s))).
Proof.
  unfold cleanText. simpl String_or_empty.
  by rewrite replace_all_nbsp, replace_all_spaces, replace_trailing_colons.
Qed.

(** *** Shape of a cleaned text *)

Lemma squeeze_single_spaced s :
  single_spaced false (squeeze false s) = true
  ∧ ∀ b, single_spaced b (squeeze true s) = true.
Proof.
  induction s as [|x tl [IH1 IH2]]; simpl; [done|].
  destruct (is_space x) eqn:Hx; simpl.
  - split; [|done]. by rewrite IH2.
  - rewrite Hx. done.
Qed.

Lemma single_spaced_weaken b t :
  single_spaced b t = true → single_spaced false t = true.
Proof.
  destruct t as [|x tl]; simpl; [done|]. destruct (is_space x); [|done].
  intros [[-> _]%andb_prop ->]%andb_prop. done.
Qed.

Lemma single_spaced_drop_while b b' t :
  single_spaced b t = true → single_spaced b' (drop_while is_space t) = true.
Proof.
  revert b. induction t as [|x tl IH]; intros b; simpl; [done|].
  destruct (is_space x) eqn:Hx.
  - intros [_ Ht]%andb_prop. by apply (IH true).
  - simpl. by rewrite Hx.
Qed.

Lemma single_spaced_strip p b t :
  single_spaced b t = true → single_spaced b (strip_trailing p t) = true.
Proof.
  revert b. induction t as [|x tl IH]; intros b; [done|].
  cbn [strip_trailing]. destruct (forallb p (x :: tl)); [done|].
  simpl. destruct (is_space x).
  - intros [-> Ht]%andb_prop. simpl. by apply IH.
  - apply IH.
Qed.

Lemma single_spaced_squeeze b b' t :
  single_spaced b t = true → (b' = true → b = true) → squeeze b' t = t.
Proof.
  revert b b'. induction t as [|x tl IH]; intros b b'; simpl; [done|].
  destruct (is_space x) eqn:Hx.
  - intros [[Hx32%N.eqb_eq Hb%negb_true_iff]%andb_prop Ht]%andb_prop Himp.
    destruct b'; [specialize (Himp eq_refl); congruence|].
    subst x. f_equal. by apply (IH true).
  - intros Ht _. f_equal. by apply (IH false).
Qed.

Lemma single_spaced_nbsp b t :
  single_spaced b t = true → List.map nbsp_to_space t = t.
Proof.
  revert b. induction t as [|x tl IH]; intros b; simpl; [done|].
  unfold nbsp_to_space at 1. destruct (is_nbsp x) eqn:Hn.
  - apply N.eqb_eq in Hn as ->. vm_compute is_space. intros [[[=] _]%andb_prop _]%andb_prop.
  - destruct (is_space x); [intros [_ Ht]%andb_prop|intros Ht]; f_equal; eauto.
Qed.

Lemma strip_trailing_fix p t :
  strip_trailing p t = t ↔ ends_in p t = false.
Proof.
  unfold ends_in. induction t as [|x tl IH]; [done|].
  cbn [strip_trailing]. destruct (forallb p (x :: tl)) eqn:Hall.
  - split; [done|]. intros Hl. exfalso.
    assert (Hs : ∀ c, last (x :: tl) = Some c → p c = true).
    { clear -Hall. revert x Hall. induction tl as [|y tl IH]; intros x Hall c.
      - simpl in *. intros [= <-]. by apply andb_prop in Hall as [-> _].
      - change (last (x :: y :: tl)) with (last (y :: tl)). apply IH.
        simpl in Hall. apply andb_prop in Hall as [_ Hall]. exact Hall. }
    destruct (last (x :: tl)) as [c|] eqn:El; [|by apply last_None in El].
    rewrite (Hs c eq_refl) in Hl. done.
  - destruct tl as [|y tl].
    + simpl in *. rewrite andb_true_r in Hall. by rewrite Hall.
    + change (last (x :: y :: tl)) with (last (y :: tl)). rewrite <- IH. split; congruence.
Qed.

Lemma strip_trailing_length p t : (length (strip_trailing p t) ≤ length t)%nat.
Proof.
  induction t as [|x tl IH]; [done|]. cbn [strip_trailing].
  destruct (forallb p (x :: tl)); simpl; lia.
Qed.

Lemma strip_trailing_length_eq p t :
  length (strip_trailing p t) = length t → strip_trailing p t = t.
Proof.
  induction t as [|x tl IH]; [done|]. cbn [strip_trailing].
  destruct (forallb p (x :: tl)); simpl; [lia|]. intros [=]. f_equal. by apply IH.
Qed.

Lemma drop_while_length p t : (length (drop_while p t) ≤ length t)%nat.
Proof. induction t as [|x tl IH]; simpl; [done|]. destruct (p x); simpl; lia. Qed.

Lemma strip_trailing_not_all p t :
  forallb p t = false → forallb p (strip_trailing p t) = false.
Proof.
  induction t as [|x tl IH]; [done|]. intros Hall.
  cbn [strip_trailing]. rewrite Hall. simpl in *.
  destruct (p x); [|done]. simpl in *. by apply IH.
Qed.

Lemma ends_in_strip p t : ends_in p (strip_trailing p t) = false.
Proof.
  apply strip_trailing_fix. induction t as [|x tl IH]; [done|].
  cbn [strip_trailing]. destruct (forallb p (x :: tl)) eqn:Hall; [done|].
  pose proof (strip_trailing_not_all p (x :: tl) Hall) as Hn.
  cbn [strip_trailing] in Hn. rewrite Hall in Hn.
  cbn [strip_trailing]. rewrite Hn, IH. done.
Qed.

Lemma head_strip_trailing p t x :
  head (strip_trailing p t) = Some x → head t = Some x.
Proof. destruct t as [|y tl]; [done|]. cbn [strip_trailing]. by destruct (forallb p (y :: tl)). Qed.

Lemma trim_fix t :
  match t with x :: _ => is_space x = false | [] => True end →
  ends_in is_space t = false → trim t = t.
Proof.
  intros Hh He. unfold trim.
  assert (drop_while is_space t = t) as ->.
  { destruct t as [|x tl]; [done|]. simpl. by rewrite Hh. }
  by apply strip_trailing_fix.
Qed.

Lemma trim_shape v :
  match trim v with x :: _ => is_space x = false | [] => True end
  ∧ ends_in is_space (trim v) = false.
Proof.
  unfold trim. split; [|apply ends_in_strip].
  destruct (strip_trailing is_space (drop_while is_space v)) as [|x tl] eqn:E; [done|].
  assert (Hh : head (drop_while is_space v) = Some x).
  { apply (head_strip_trailing is_space). by rewrite E. }
  pose proof (drop_while_head is_space v) as Hd.
  destruct (drop_while is_space v); [done|]. simpl in Hh. by injection Hh as ->.
Qed.

Lemma trim_length v : (length (trim v) ≤ length v)%nat.
Proof.
  unfold trim. pose proof (strip_trailing_length is_space (drop_while is_space v)).
  pose proof (drop_while_length is_space v). lia.
Qed.

Lemma cleanText_single_spaced s : single_spaced false (cleanText (Some s)) = true.
Proof.
  rewrite cleanText_eq. unfold trim.
  apply single_spaced_strip, (single_spaced_drop_while false), single_spaced_strip.
  apply squeeze_single_spaced.
Qed.

(** A second pass only strips colons and trims again. *)
Lemma cleanText_again s :
  cleanText (Some (cleanText (Some s)))
  = trim (strip_trailing is_colon (cleanText (Some s))).
Proof.
  rewrite (cleanText_eq (cleanText (Some s))).
  pose proof (cleanText_single_spaced s) as Hs.
  rewrite (single_spaced_nbsp _ _ Hs).
  rewrite (single_spaced_squeeze false false _ Hs) by done. done.
Qed.

(** When a second pass changes nothing: [cleanText(cleanText(s))] equals
    [cleanText(s)] exactly when [cleanText(s)] does not end in a colon
    (ASCII or full-width). *)
Lemma cleanText_idempotent_iff s :
  cleanText (Some (cleanText (Some s))) = cleanText (Some s)
  ↔ ends_in is_colon (cleanText (Some s)) = false.
Proof.
  rewrite cleanText_again. split.
  - intros Heq. apply strip_trailing_fix, strip_trailing_length_eq.
    pose proof (trim_length (strip_trailing is_colon (cleanText (Some s)))) as H1.
    pose proof (strip_trailing_length is_colon (cleanText (Some s))) as H2.
    rewrite Heq in H1. lia.
  - intros He. apply strip_trailing_fix in He. rewrite He.
    rewrite cleanText_eq. destruct (trim_shape (strip_trailing is_colon
      (squeeze false (List.map nbsp_to_space s)))) as [H1 H2].
    by apply trim_fix.
Qed.

(** *** A colon followed by blanks *)

Lemma squeeze_true_blanks ws r :
  forallb is_space ws = true → squeeze true (ws ++ r) = squeeze true r.
Proof.
  induction ws as [|x ws IH]; [done|]. simpl. intros [Hx Hws]%andb_true_iff.
  rewrite Hx. by apply IH.
Qed.

Lemma nbsp_to_space_blank c : is_space c = true → is_space (nbsp_to_space c) = true.
Proof. unfold nbsp_to_space. by destruct (is_nbsp c). Qed.

Lemma ends_in_app p d t : t ≠ [] → ends_in p (d ++ t) = ends_in p t.
Proof.
  intros Ht. unfold ends_in. destruct t as [|x t] using rev_ind; [done|].
  by rewrite app_assoc, !last_snoc.
Qed.

Lemma strip_trailing_blanks p t ws :
  forallb p ws = true → strip_trailing p (t ++ ws) = strip_trailing p t.
Proof.
  intros Hws. induction t as [|x t IH].
  - destruct ws as [|y ws]; [done|]. simpl in *. by rewrite Hws.
  - cbn [app strip_trailing]. rewrite IH.
    change (x :: t ++ ws) with ((x :: t) ++ ws). by rewrite forallb_app, Hws, andb_true_r.
Qed.

Lemma squeeze_app_plain_char b a x r :
  is_space x = false → squeeze b (a ++ x :: r) = squeeze b a ++ x :: squeeze false r.
Proof.
  intros Hx. revert b. induction a as [|y a IH]; intros b; simpl.
  - by rewrite Hx.
  - destruct (is_space y); [destruct b|]; by rewrite IH.
Qed.

Lemma drop_while_app_stop p a x r :
  p x = false → drop_while p (a ++ x :: r) = drop_while p a ++ x :: r.
Proof.
  intros Hx. induction a as [|y a IH]; simpl; [by rewrite Hx|].
  by destruct (p y).
Qed.

Lemma is_colon_not_space c : is_colon c = true → is_space c = false.
Proof. unfold is_colon, is_space. intros Hc. bool_lia. Qed.

Lemma is_colon_not_nbsp c : is_colon c = true → nbsp_to_space c = c.
Proof.
  unfold nbsp_to_space, is_nbsp, is_colon. intros Hc.
  assert ((c =? 160) = false) as -> by bool_lia. done.
Qed.

(** The colons are stripped before the text is trimmed: a colon that is
    followed by blanks stays. *)
Lemma cleanText_keeps_colon t c ws :
  is_colon c = true → forallb is_space ws = true → ws ≠ [] →
  ends_in is_colon (cleanText (Some (t ++ c :: ws))) = true.
Proof.
  intros Hc Hws Hne. pose proof (is_colon_not_space c Hc) as Hsp.
  rewrite cleanText_eq, map_app. cbn [List.map]. rewrite (is_colon_not_nbsp c Hc).
  rewrite squeeze_app_plain_char by done.
  assert (squeeze false (List.map nbsp_to_space ws) = [32]) as ->.
  { destruct ws as [|w ws]; [done|]. simpl in Hws.
    apply andb_true_iff in Hws as [Hw Hws]. cbn [List.map squeeze].
    rewrite (nbsp_to_space_blank w Hw).
    rewrite <- (app_nil_r (List.map nbsp_to_space ws)), squeeze_true_blanks; [done|].
    rewrite forallb_forall in *. intros x (y & <- & Hy)%in_map_iff.
    by apply nbsp_to_space_blank, Hws. }
  set (q := squeeze false (List.map nbsp_to_space t)).
  assert (strip_trailing is_colon (q ++ [c; 32]) = q ++ [c; 32]) as ->.
  { apply strip_trailing_fix. by rewrite ends_in_app. }
  unfold trim. rewrite drop_while_app_stop by done.
  change (drop_while is_space q ++ [c; 32]) with (drop_while is_space q ++ [c] ++ [32]).
  rewrite app_assoc, strip_trailing_blanks by done.
  assert (strip_trailing is_space (drop_while is_space q ++ [c])
          = drop_while is_space q ++ [c]) as ->.
  { apply strip_trailing_fix. rewrite ends_in_app by done. unfold ends_in. by simpl. }
  rewrite ends_in_app by done. unfold ends_in. by simpl.
Qed.

(** ** Gates, URL handling and name segmentation *)

Lemma test_true_iff r s :
  test r s = true ↔ ∃ k st, (k ≤ length s)%nat ∧ In st (ends r (at_pos s k)).
Proof.
  unfold test. split.
  - destruct (search r [] s) as [[before st]|] eqn:E; [|done]. intros _.
    apply search_some in E as (k & Hk & _ & Hh & _). exists k, st. split; [done|].
    destruct (ends r (at_pos s k)); [done|]. simpl in Hh. injection Hh as ->. by left.
  - intros (k & st & Hk & Hin). destruct (search r [] s) eqn:E; [done|].
    rewrite search_none in E. rewrite (E k Hk) in Hin. destruct Hin.
Qed.

Lemma in_ends_bol st st' : In st' (ends Bol st) ↔ st' = st ∧ m_prev st = None.
Proof.
  simpl. destruct (m_prev st); simpl; split; try done.
  - intros [_ [=]].
  - intros [<-|[]]. done.
  - intros [-> _]. by left.
Qed.

Lemma at_pos_0 s : at_pos s 0 = MState None s None.
Proof. done. Qed.

Lemma at_pos_prev_None s k : (k ≤ length s)%nat → m_prev (at_pos s k) = None → k = 0%nat.
Proof.
  unfold at_pos. simpl. intros Hk Hl. apply last_None in Hl.
  apply (f_equal length) in Hl. rewrite length_take in Hl. simpl in Hl. lia.
Qed.

(** The identifier check accepts exactly the ten-character ASCII
    alphanumeric strings. *)
Lemma test_re_tx tx :
  test re_tx tx = true ↔ length tx = 10%nat ∧ forallb is_alnum tx = true.
Proof.
  rewrite test_true_iff. unfold re_tx. split.
  - intros (k & st & Hk & Hin).
    apply in_ends_cat in Hin as (m1 & [-> Hp]%in_ends_bol & Hin).
    apply at_pos_prev_None in Hp as ->; [|done]. rewrite at_pos_0 in Hin.
    apply in_ends_cat in Hin as (m2 & Hrep & [-> He]%in_ends_eol).
    apply in_ends_rep in Hrep as (run & Hr & Hall & Hlo & Hhi & _).
    simpl in Hr. rewrite He, app_nil_r in Hr. subst run. split; [lia|done].
  - intros [Hlen Hall]. exists 0%nat, (MState (last_or None tx) [] None). split; [lia|].
    rewrite at_pos_0. apply in_ends_cat. exists (MState None tx None). split.
    { apply in_ends_bol. done. }
    apply in_ends_cat. exists (MState (last_or None tx) [] None). split.
    + apply in_ends_rep. exists tx. simpl. rewrite app_nil_r. repeat split; try done; lia.
    + apply in_ends_eol. done.
Qed.

Lemma is_alnum_unreserved c : is_alnum c = true → uri_unreserved c = true.
Proof. unfold uri_unreserved. by intros ->. Qed.

Lemma encodeURIComponent_alnum s :
  forallb is_alnum s = true → encodeURIComponent s = Some s.
Proof.
  induction s as [|c tl IH]; [done|]. simpl. intros [Hc Ht]%andb_prop.
  rewrite (is_alnum_unreserved c Hc), (IH Ht). done.
Qed.

Section Gate.
Context `{Platform}.

(** The errors of the URL gate and of the fetch are none of the
    identifier check. *)
Lemma assertAllowedHost_not_tx_format url e :
  assertAllowedHost url = Throw e → code e ≠ TX_FORMAT.
Proof.
  unfold assertAllowedHost, throw_if. destruct (URL_new url) as [u|]; [|by intros [= <-]].
  destruct (negb (bool_decide (protocol u ∈ [js "http:"; js "https:"])));
    cbn [mbind result_bind]; [by intros [= <-]|].
  destruct (negb (bool_decide (hostname u ∈ ALLOWED_HOSTS))); [by intros [= <-]|done].
Qed.

Lemma fetchReceiptWithPuppeteer_not_tx_format url t e :
  fetchReceiptWithPuppeteer url t = Throw e → code e ≠ TX_FORMAT.
Proof.
  unfold fetchReceiptWithPuppeteer.
  destruct (browse url t) as [|name c|re|status html' url'].
  - by intros [= <-].
  - case_bool_decide; [by intros [= <-]|].
    destruct c as [[|x xs]|]; by intros [= <-].
  - by intros [= <-].
  - destruct (400 <=? status); [by intros [= <-]|done].
Qed.

(** C2.  The identifier check succeeds exactly on the strings of ten
    characters that are all ASCII letters or digits.  On every other string
    [getReceiptCanonical] raises [TX_FORMAT], and so does [getReceiptFromUrl]
    on an identifier it recovered from an allowed URL.  An identifier of
    that form passes the check: [getReceiptCanonical] goes on to the URL
    gate and the fetch with it and raises [TX_FORMAT] in no case, and
    [getReceiptFromUrl] hands it to [getReceiptCanonical].  So
    [getReceiptCanonical] raises [TX_FORMAT] if and only if the identifier
    is not of that form.  An accepted identifier is not normalised: it
    goes into the receipt URL as it is. *)
Theorem transaction_id_validation (tx : jsstring) :
  (test re_tx tx = true ↔ length tx = 10%nat ∧ forallb is_alnum tx = true)
  ∧ (test re_tx tx = false →
       getReceiptCanonical tx = Throw (Error TX_FORMAT None))
  ∧ (test re_tx tx = true →
       (∀ e, getReceiptCanonical tx = Throw e → code e ≠ TX_FORMAT)
       ∧ getReceiptCanonical tx
         = (receiptUrl ← buildReceiptUrlFromTx tx;
            _ ← assertAllowedHost receiptUrl;
            page ← fetchReceiptWithPuppeteer receiptUrl fetchTimeoutMs;
            _ ← throw_if (negb (nonempty (f_html page))
                          || (length (f_html page) <? 200)%nat)
                  (Error EMPTY_HTML None);
            _ ← throw_if (test re_not_found (pageBodyText (f_html page)))
                  (Error TX_NOT_FOUND None);
            _ ← requireCriticalFields (extractCanonical (f_html page) tx);
            Ok (with_sourceUrl (extractCanonical (f_html page) tx) (f_url page))))
  ∧ ((∃ e, getReceiptCanonical tx = Throw e ∧ code e = TX_FORMAT)
     ↔ ¬ (length tx = 10%nat ∧ forallb is_alnum tx = true))
  ∧ (∀ url, assertAllowedHost url = Ok tt → extractTxFromUrl url = Some tx →
       tx ≠ [] →
       (test re_tx tx = false →
        getReceiptFromUrl url
        = Throw (Error TX_FORMAT
                   (Some (DetailText (js "Extracted code: " ++ [34] ++ tx ++ [34])))))
       ∧ (test re_tx tx = true → getReceiptFromUrl url = getReceiptCanonical tx))
  ∧ (test re_tx tx = true →
       buildReceiptUrlFromTx tx
       = Ok (replace_str (js "{tx}") tx RECEIPT_URL_TEMPLATE)).
Proof.
  assert (Hbuild : test re_tx tx = true →
            buildReceiptUrlFromTx tx
            = Ok (replace_str (js "{tx}") tx RECEIPT_URL_TEMPLATE)).
  { intros [_ Hall]%test_re_tx. unfold buildReceiptUrlFromTx.
    by rewrite encodeURIComponent_alnum. }
  assert (Hfail : test re_tx tx = false →
            getReceiptCanonical tx = Throw (Error TX_FORMAT None)).
  { intros Hf. unfold getReceiptCanonical. rewrite Hf. done. }
  assert (Hpass : test re_tx tx = true →
            ∀ e, getReceiptCanonical tx = Throw e → code e ≠ TX_FORMAT).
  { intros Ht e. unfold getReceiptCanonical. rewrite Ht, (Hbuild Ht).
    cbn [negb throw_if mbind result_bind].
    destruct (assertAllowedHost _) as [[]|e2] eqn:Ha; cbn [mbind result_bind].
    2:{ intros [= <-]. by eapply assertAllowedHost_not_tx_format. }
    destruct (fetchReceiptWithPuppeteer _ fetchTimeoutMs) as [page|e3] eqn:Hf;
      cbn [mbind result_bind].
    2:{ intros [= <-]. by eapply fetchReceiptWithPuppeteer_not_tx_format. }
    destruct (negb (nonempty (f_html page)) || (length (f_html page) <? 200)%nat);
      cbn [throw_if mbind result_bind]; [by intros [= <-]|].
    destruct (test re_not_found (pageBodyText (f_html page)));
      cbn [throw_if mbind result_bind]; [by intros [= <-]|].
    unfold requireCriticalFields, throw_if.
    destruct (negb _ || negb _ || negb _); cbn [mbind result_bind]; [|done].
    by intros [= <-]. }
  split; [apply test_re_tx|]. split; [exact Hfail|]. split; [|split; [|split]].
  - intros Ht. split; [by apply Hpass|].
    unfold getReceiptCanonical. rewrite Ht. done.
  - rewrite <- test_re_tx. split.
    + intros (e & He & Hc) Ht. by eapply Hpass.
    + intros Hn. destruct (test re_tx tx) eqn:Ht; [done|].
      eexists. split; [by apply Hfail|done].
  - intros url Ha He Hne.
    assert (Hhead : getReceiptFromUrl url
              = (_ ← throw_if (negb (test re_tx tx))
                       (Error TX_FORMAT
                          (Some (DetailText (js "Extracted code: " ++ [34] ++ tx
                                             ++ [34]))));
                 getReceiptCanonical tx)).
    { unfold getReceiptFromUrl. rewrite Ha. cbn [mbind result_bind]. rewrite He.
      assert (truthy (Some tx) = true) as -> by (by destruct tx). done. }
    rewrite Hhead. split; intros ->; done.
  - exact Hbuild.
Qed.

(** C3.  The URL safety gate fails [INVALID_URL] exactly when the URL does
    not parse.  On a parsed URL it fails [INVALID_PROTOCOL] unless the
    protocol is exactly [http:] or [https:], fails [HOST_NOT_ALLOWED]
    unless the host name is, character for character, the one member of
    the allow-list (no other case, no subdomain, no wildcard), and
    succeeds otherwise. *)
Theorem url_safety_gate (url : jsstring) :
  (assertAllowedHost url = Throw (Error INVALID_URL None) ↔ URL_new url = None)
  ∧ (∀ u, URL_new url = Some u →
      (protocol u ≠ js "http:" → protocol u ≠ js "https:" →
       assertAllowedHost url = Throw (Error INVALID_PROTOCOL None))
      ∧ (protocol u = js "http:" ∨ protocol u = js "https:" →
         hostname u ≠ js "transactioninfo.ethiotelecom.et" →
         assertAllowedHost url
         = Throw (Error HOST_NOT_ALLOWED
                    (Some (DetailText (js "Host " ++ [34] ++ hostname u ++ [34]
                                       ++ js " is not in the allowed list.")))))
      ∧ (protocol u = js "http:" ∨ protocol u = js "https:" →
         hostname u = js "transactioninfo.ethiotelecom.et" →
         assertAllowedHost url = Ok tt)).
Proof.
  unfold assertAllowedHost. split.
  - destruct (URL_new url) as [u|]; [|done]. split; [|done].
    unfold throw_if. simpl. repeat case_bool_decide; simpl; try done.
  - intros u ->. unfold throw_if, ALLOWED_HOSTS.
    assert (Hproto : protocol u ∈ [js "http:"; js "https:"]
                     ↔ protocol u = js "http:" ∨ protocol u = js "https:").
    { rewrite !elem_of_cons, elem_of_nil. tauto. }
    repeat split.
    + intros H1 H2.
      rewrite (bool_decide_eq_false_2 (protocol u ∈ _)); [reflexivity|].
      rewrite Hproto. by intros [?|?].
    + intros Hp Hh.
      rewrite (bool_decide_eq_true_2 (protocol u ∈ _)) by (by apply Hproto).
      rewrite (bool_decide_eq_false_2 (hostname u ∈ _)); [reflexivity|].
      by rewrite elem_of_singleton.
    + intros Hp Hh.
      rewrite (bool_decide_eq_true_2 (protocol u ∈ _)) by (by apply Hproto).
      rewrite (bool_decide_eq_true_2 (hostname u ∈ _)); [reflexivity|].
      by rewrite elem_of_singleton.
Qed.


Lemma filter_nonempty_all (l : list jsstring) :
  Forall (λ s, nonempty s = true) (List.filter nonempty l).
Proof.
  induction l as [|x l IH]; simpl; [constructor|].
  destruct (nonempty x) eqn:E; [constructor|]; done.
Qed.

Lemma js_or_lookup (l : list jsstring) i :
  Forall (λ s, nonempty s = true) l → js_or (l !! i) None = l !! i.
Proof.
  intros Hall. destruct (l !! i) as [s|] eqn:E; [|done].
  apply list_elem_of_lookup_2 in E. rewrite Forall_forall in Hall.
  specialize (Hall s E). unfold js_or. simpl. by destruct s.
Qed.




Lemma split_by_cons p s : ∃ w ws, split_by p s = w :: ws.
Proof.
  induction s as [|c tl (w & ws & IH)]; simpl; [by eexists _, _|].
  destruct (p c); [by eexists _, _|]. rewrite IH. by eexists _, _.
Qed.

Lemma split_on_single_spaced b t :
  single_spaced b t = true → split_on 32 t = split_by is_space t.
Proof.
  revert b. induction t as [|x tl IH]; intros b; simpl; [done|].
  destruct (is_space x) eqn:Hx.
  - intros [[->%N.eqb_eq _]%andb_prop Ht]%andb_prop. simpl. f_equal. by apply (IH true).
  - intros Ht. destruct (x =? 32) eqn:Hx32.
    + apply N.eqb_eq in Hx32 as ->. done.
    + by rewrite (IH false).
Qed.

Lemma tokens_nonempty t :
  match t with x :: _ => is_space x = false | [] => False end → tokens t ≠ [].
Proof.
  destruct t as [|x tl]; [done|]. intros Hx. unfold tokens. simpl. rewrite Hx.
  destruct (split_by_cons is_space tl) as (w & ws & ->). simpl. done.
Qed.

Lemma cleanText_None : cleanText None = [].
Proof. done. Qed.

Lemma cleanText_shape input :
  single_spaced false (cleanText input) = true
  ∧ match cleanText input with x :: _ => is_space x = false | [] => True end
  ∧ ends_in is_space (cleanText input) = false.
Proof.
  destruct input as [s|]; [|done]. split; [apply cleanText_single_spaced|].
  rewrite cleanText_eq. apply trim_shape.
Qed.

(** C9.  Name segmentation returns [null] exactly when the cleaned input
    is empty.  Otherwise the cleaned name has at least one
    whitespace-delimited token, and the result maps tokens 1, 2, 3 to
    [first], [father], [grandfather], joins the tokens after the third
    with single blanks into [rest], leaves what has no token absent, and
    sets [full] to the tokens joined again.  The three examples of the
    specification are included. *)
Theorem name_segmentation (input : option jsstring) :
  let cleaned := cleanText input in
  let parts := tokens cleaned in
  (parseEthiopianName input = None ↔ cleaned = [])
  ∧ (cleaned ≠ [] →
     parts ≠ []
     ∧ parseEthiopianName input
       = Some {|
           full := join [32] parts;
           first := parts !! 0%nat;
           father := parts !! 1%nat;
           grandfather := parts !! 2%nat;
           rest := if (3 <? length parts)%nat
                   then Some (join [32] (drop 3 parts)) else None;
         |})
  ∧ parseEthiopianName (Some (js "Abebe Kebede Tesfaye"))
    = Some {| full := js "Abebe Kebede Tesfaye"; first := Some (js "Abebe");
              father := Some (js "Kebede"); grandfather := Some (js "Tesfaye");
              rest := None |}
  ∧ parseEthiopianName (Some (js "Abebe"))
    = Some {| full := js "Abebe"; first := Some (js "Abebe"); father := None;
              grandfather := None; rest := None |}
  ∧ parseEthiopianName (Some []) = None.
Proof.
  cbv zeta. split; [|split; [|by vm_compute]].
  - unfold parseEthiopianName. destruct (cleanText input); simpl; done.
  - intros Hne. destruct (cleanText_shape input) as (Hs & Hh & _).
    assert (Hp : tokens (cleanText input) ≠ []).
    { apply tokens_nonempty. destruct (cleanText input); done. }
    split; [done|]. unfold parseEthiopianName.
    assert (nonempty (cleanText input) = true) as ->
      by (destruct (cleanText input); done).
    cbn [negb]. rewrite (split_on_single_spaced false _ Hs).
    fold (tokens (cleanText input)).
    pose proof (filter_nonempty_all (split_by is_space (cleanText input))) as Hall.
    fold (tokens (cleanText input)) in Hall.
    rewrite !js_or_lookup by done. rewrite length_drop.
    replace (0 <? length (tokens (cleanText input)) - 3)%nat
      with (3 <? length (tokens (cleanText input)))%nat; [done|].
    destruct (Nat.ltb_spec 3 (length (tokens (cleanText input)))),
      (Nat.ltb_spec 0 (length (tokens (cleanText input)) - 3)); lia.
Qed.

End Gate.

(** ** Captures and the invoice number *)

Lemma in_ends_chr p st st' :
  In st' (ends (Chr p) st) ↔
  ∃ x, m_rest st = x :: m_rest st' ∧ p x = true
       ∧ m_prev st' = Some x ∧ m_cap st' = m_cap st.
Proof.
  simpl. destruct (m_rest st) as [|x tl] eqn:E.
  - split; [done|]. by intros (x & [=] & _).
  - destruct (p x) eqn:Hp; simpl; split.
    + intros [<-|[]]. by exists x.
    + intros (y & [= <- ->] & _ & Hpv & Hc). left. destruct st'; simpl in *. congruence.
    + done.
    + intros (y & [= <- ->] & Hy & _). congruence.
Qed.

Lemma in_ends_alt a b st st' :
  In st' (ends (Alt a b) st) ↔ In st' (ends a st) ∨ In st' (ends b st).
Proof. simpl. apply in_app_iff. Qed.

Lemma in_ends_opt r st st' :
  In st' (ends (Opt r) st) ↔ In st' (ends r st) ∨ st' = st.
Proof. simpl. rewrite in_app_iff. simpl. intuition. Qed.

Lemma in_ends_wordb st st' :
  In st' (ends WordB st) ↔
  st' = st ∧ xorb (word_before (m_prev st)) (word_after (m_rest st)) = true.
Proof.
  simpl. destruct (xorb _ _); simpl; split; try done.
  - intros [<-|[]]. done.
  - intros [-> _]. by left.
  - intros [_ [=]].
Qed.

Lemma in_ends_cap r st st' :
  In st' (ends (Cap r) st) ↔
  ∃ e, In e (ends r st)
       ∧ st' = MState (m_prev e) (m_rest e)
                 (Some (take (length (m_rest st) - length (m_rest e)) (m_rest st))).
Proof.
  simpl. rewrite in_map_iff. split; intros (e & H1 & H2); exists e; done.
Qed.

Lemma in_ends_eps st st' : In st' (ends Eps st) ↔ st' = st.
Proof. simpl. split; [by intros [<-|[]]|intros ->; by left]. Qed.

Lemma in_ends_lit_i w st st' :
  In st' (ends (lit_i w) st) ↔
  ∃ occ, m_rest st = occ ++ m_rest st' ∧ ci_match w occ = true
         ∧ m_prev st' = last_or (m_prev st) occ ∧ m_cap st' = m_cap st.
Proof.
  revert st. induction w as [|p w IH]; intros st.
  - cbn [lit_i]. rewrite in_ends_eps. split.
    + intros ->. exists []. done.
    + intros (occ & Hr & Hm & Hp & Hc). destruct occ; [|done].
      destruct st, st'; simpl in *. rewrite last_or_nil in Hp. congruence.
  - cbn [lit_i]. rewrite in_ends_cat. split.
    + intros (m & (x & Hr & Hx & Hp & Hc)%in_ends_chr & (occ & Hr' & Hm & Hp' & Hc')%IH).
      exists (x :: occ). simpl. rewrite Hx, Hm, Hr, Hr', last_or_cons, <- Hp.
      repeat split; try done. congruence.
    + intros (occ & Hr & Hm & Hp & Hc). destruct occ as [|x occ]; [done|].
      simpl in Hm. apply andb_prop in Hm as [Hx Hm].
      exists (MState (Some x) (occ ++ m_rest st') (m_cap st)). split.
      * apply in_ends_chr. exists x. done.
      * apply IH. exists occ. simpl. rewrite last_or_cons in Hp. done.
Qed.

Lemma ci_match_length w occ : ci_match w occ = true → length occ = length w.
Proof.
  revert occ. induction w as [|p w IH]; intros [|c occ]; simpl; try done.
  intros [_ Hm]%andb_prop. f_equal. by apply IH.
Qed.

(** *** [cleanText] leaves a text alone that holds no blank and ends in no
    colon *)

Lemma squeeze_no_space b s : forallb (λ c, negb (is_space c)) s = true → squeeze b s = s.
Proof.
  revert b. induction s as [|x tl IH]; intros b; simpl; [done|].
  intros [Hx Ht]%andb_prop. apply negb_true_iff in Hx. rewrite Hx. f_equal. by apply IH.
Qed.

Lemma nbsp_no_space s :
  forallb (λ c, negb (is_space c)) s = true → List.map nbsp_to_space s = s.
Proof.
  induction s as [|x tl IH]; simpl; [done|].
  intros [Hx Ht]%andb_prop. rewrite (IH Ht). f_equal.
  unfold nbsp_to_space. destruct (is_nbsp x) eqn:Hn; [|done].
  apply N.eqb_eq in Hn as ->. done.
Qed.

Lemma ends_in_no_space s :
  forallb (λ c, negb (is_space c)) s = true → ends_in is_space s = false.
Proof.
  unfold ends_in. destruct (last s) as [c|] eqn:El; [|done].
  intros Hall. apply last_Some_elem_of, list_elem_of_In in El.
  rewrite forallb_forall in Hall. specialize (Hall c El). by apply negb_true_iff in Hall.
Qed.

Lemma cleanText_plain s :
  forallb (λ c, negb (is_space c)) s = true → ends_in is_colon s = false →
  cleanText (Some s) = s.
Proof.
  intros Hsp Hco. rewrite cleanText_eq, nbsp_no_space, squeeze_no_space by done.
  apply strip_trailing_fix in Hco. rewrite Hco. apply trim_fix.
  - destruct s as [|x tl]; [done|]. simpl in Hsp. apply andb_prop in Hsp as [Hx _].
    by apply negb_true_iff in Hx.
  - by apply ends_in_no_space.
Qed.

Lemma forallb_impl (p q : N → bool) s :
  (∀ c, p c = true → q c = true) → forallb p s = true → forallb q s = true.
Proof. rewrite !forallb_forall. eauto. Qed.

Lemma ends_in_forall (p q : N → bool) s :
  (∀ c, p c = true → q c = false) → forallb p s = true → ends_in q s = false.
Proof.
  intros Himp Hall. unfold ends_in. destruct (last s) as [c|] eqn:El; [|done].
  apply last_Some_elem_of, list_elem_of_In in El. rewrite forallb_forall in Hall. eauto.
Qed.

Lemma is_alnum_range c :
  is_alnum c = true → (48 ≤ c ∧ c ≤ 57) ∨ (65 ≤ c ∧ c ≤ 90) ∨ (97 ≤ c ∧ c ≤ 122).
Proof. unfold is_alnum, is_upper, is_lower, is_digit. bool_lia. Qed.

Lemma is_alnum_not_space c : is_alnum c = true → negb (is_space c) = true.
Proof. intros H%is_alnum_range. unfold is_space. bool_lia. Qed.

Lemma is_alnum_not_colon c : is_alnum c = true → is_colon c = false.
Proof. intros H%is_alnum_range. unfold is_colon. bool_lia. Qed.

Lemma take_app_length_sub {A} (run rest : list A) :
  take (length (run ++ rest) - length rest) (run ++ rest) = run.
Proof.
  rewrite length_app. replace (length run + length rest - length rest)%nat
    with (length run) by lia. by rewrite take_app_length.
Qed.

(** What [re_invoice] captures: six or more ASCII letters and digits. *)
Lemma re_invoice_capture st0 st :
  In st (ends re_invoice st0) →
  ∃ g, m_cap st = Some g ∧ forallb is_alnum g = true ∧ (6 ≤ length g)%nat.
Proof.
  unfold re_invoice.
  intros (m1 & _ & (m2 & _ & (m3 & _ & (m4 & H4 & H5)%in_ends_cat)%in_ends_cat)%in_ends_cat)%in_ends_cat.
  apply in_ends_cap in H4 as (e & He & ->).
  apply in_ends_rep in He as (run & Hr & Hall & Hlo & _).
  apply in_ends_wordb in H5 as [-> _]. simpl. rewrite Hr, take_app_length_sub.
  by exists run.
Qed.

Lemma match_group1_some r s m1 :
  match_group1 r s = Some m1 →
  ∃ k st, (k ≤ length s)%nat ∧ In st (ends r (at_pos s k)) ∧ m1 = m_cap st.
Proof.
  unfold match_group1. destruct (search r [] s) as [[before st]|] eqn:E; [|done].
  intros [= <-]. apply search_some in E as (k & Hk & _ & Hh & _).
  exists k, st. repeat split; try done.
  destruct (ends r (at_pos s k)); [done|]. simpl in Hh. injection Hh as ->. by left.
Qed.

Lemma match_group1_none r s : match_group1 r s = None ↔ test r s = false.
Proof. unfold match_group1, test. destruct (search r [] s) as [[? ?]|]; done. Qed.

Lemma js_or_truthy a tx : tx ≠ [] → truthy (js_or a (Some tx)) = true.
Proof.
  intros Hne. unfold js_or. destruct (truthy a) eqn:E; [done|]. by destruct tx.
Qed.

Section Resolver.
Context `{Platform}.

(** The invoice number the resolver finds, or the identifier. *)
Lemma invoiceNo_resolved html tx :
  invoiceNo (extractCanonical html tx)
  = js_or (extractByRegex (Some (resolverBodyText html)) re_invoice) (Some tx).
Proof. done. Qed.

Lemma invoiceNo_from_page html tx g :
  match_group1 re_invoice (resolverBodyText html) = Some g →
  ∃ v, g = Some v ∧ forallb is_alnum v = true ∧ (6 ≤ length v)%nat
       ∧ invoiceNo (extractCanonical html tx) = Some v.
Proof.
  intros Hm. rewrite invoiceNo_resolved. unfold extractByRegex. simpl String_or_empty.
  rewrite Hm. apply match_group1_some in Hm as (k & st & _ & Hin & ->).
  apply re_invoice_capture in Hin as (v & -> & Hall & Hlen).
  exists v. repeat split; try done.
  rewrite cleanText_plain.
  - unfold js_or. destruct v; [simpl in Hlen; lia|done].
  - eapply forallb_impl, Hall. apply is_alnum_not_space.
  - eapply ends_in_forall, Hall. apply is_alnum_not_colon.
Qed.

Lemma test_re_tx_nonempty tx : test re_tx tx = true → tx ≠ [].
Proof. intros [Hl _]%test_re_tx ->. done. Qed.

Lemma buildReceiptUrlFromTx_code tx e :
  buildReceiptUrlFromTx tx = Throw e → code e ≠ PARSE_FAIL.
Proof.
  unfold buildReceiptUrlFromTx. destruct (encodeURIComponent tx); [done|].
  by intros [= <-].
Qed.

Lemma assertAllowedHost_code url e :
  assertAllowedHost url = Throw e → code e ≠ PARSE_FAIL.
Proof.
  unfold assertAllowedHost, throw_if. destruct (URL_new url) as [u|]; [|by intros [= <-]].
  destruct (negb (bool_decide (protocol u ∈ [js "http:"; js "https:"])));
    cbn [mbind result_bind]; [by intros [= <-]|].
  destruct (negb (bool_decide (hostname u ∈ ALLOWED_HOSTS))); [by intros [= <-]|done].
Qed.

Lemma fetchReceiptWithPuppeteer_code url t e :
  fetchReceiptWithPuppeteer url t = Throw e → code e ≠ PARSE_FAIL.
Proof.
  unfold fetchReceiptWithPuppeteer.
  destruct (browse url t) as [|name c|re|status html' url'].
  - by intros [= <-].
  - case_bool_decide; [by intros [= <-]|].
    destruct c as [[|x xs]|]; by intros [= <-].
  - by intros [= <-].
  - destruct (400 <=? status); [by intros [= <-]|done].
Qed.

(** A [PARSE_FAIL] comes from the acceptance gate alone. *)
Lemma getReceiptCanonical_parse_fail tx e :
  getReceiptCanonical tx = Throw e → code e = PARSE_FAIL →
  test re_tx tx = true
  ∧ ∃ html, requireCriticalFields (extractCanonical html tx) = Throw e.
Proof.
  unfold getReceiptCanonical.
  destruct (test re_tx tx) eqn:Htx; cbn [negb throw_if mbind result_bind];
    [|by intros [= <-]].
  destruct (buildReceiptUrlFromTx tx) as [url|e1] eqn:Hb; cbn [mbind result_bind].
  2:{ intros [= <-] Hc. by apply buildReceiptUrlFromTx_code in Hb. }
  destruct (assertAllowedHost url) as [[]|e2] eqn:Ha; cbn [mbind result_bind].
  2:{ intros [= <-] Hc. by apply assertAllowedHost_code in Ha. }
  destruct (fetchReceiptWithPuppeteer url fetchTimeoutMs) as [page|e3] eqn:Hf;
    cbn [mbind result_bind].
  2:{ intros [= <-] Hc. by apply fetchReceiptWithPuppeteer_code in Hf. }
  destruct (negb (nonempty (f_html page)) || (length (f_html page) <? 200)%nat);
    cbn [throw_if mbind result_bind]; [by intros [= <-]|].
  destruct (test re_not_found (pageBodyText (f_html page)));
    cbn [throw_if mbind result_bind]; [by intros [= <-]|].
  destruct (requireCriticalFields (extractCanonical (f_html page) tx)) as [[]|e4] eqn:Hg;
    cbn [mbind result_bind]; [done|].
  intros [= <-] _. split; [done|]. by exists (f_html page).
Qed.

(** C10.  For every page and every non-empty identifier the resolved
    [invoiceNo] is non-empty, and it is the identifier when the invoice
    pattern matches nothing in the page text.  Hence whenever the
    pipeline raises [PARSE_FAIL], the details report [hasInvoiceNo:
    true]. *)
Theorem invoiceNo_present (html tx : jsstring) :
  tx ≠ [] →
  truthy (invoiceNo (extractCanonical html tx)) = true
  ∧ (test re_invoice (resolverBodyText html) = false →
     invoiceNo (extractCanonical html tx) = Some tx)
  ∧ (∀ e, getReceiptCanonical tx = Throw e → code e = PARSE_FAIL →
       ∃ hasSettledAmount hasCreditedPartyAccountNo,
         details e
         = Some (DetailPresence true hasSettledAmount hasCreditedPartyAccountNo)).
Proof.
  intros Hne. split; [|split].
  - rewrite invoiceNo_resolved. by apply js_or_truthy.
  - intros Hno. rewrite invoiceNo_resolved. unfold extractByRegex.
    cbn [String_or_empty]. apply match_group1_none in Hno. by rewrite Hno.
  - intros e He Hc.
    destruct (getReceiptCanonical_parse_fail tx e He Hc) as (_ & html' & Hg).
    unfold requireCriticalFields, throw_if in Hg.
    assert (Hi : truthy (invoiceNo (extractCanonical html' tx)) = true).
    { rewrite invoiceNo_resolved. by apply js_or_truthy. }
    rewrite Hi in Hg.
    destruct (negb true
              || negb (truthy (settledAmount (extractCanonical html' tx)))
              || negb (truthy (creditedPartyAccountNo (extractCanonical html' tx))));
      [|done].
    injection Hg as <-. by eexists _, _.
Qed.

End Resolver.

(** ** The not-found short circuit *)

Lemma includes_ci_pos s w :
  includes_ci s w = true → ∃ k, (k ≤ length s)%nat ∧ ci_prefix w (drop k s) = true.
Proof.
  induction s as [|c tl IH]; simpl.
  - rewrite orb_false_r. intros Hp. exists 0%nat. done.
  - intros [Hp|Hi]%orb_prop.
    + exists 0%nat. split; [lia|done].
    + destruct (IH Hi) as (k & Hk & Hp). exists (S k). split; [lia|done].
Qed.

Lemma ci_prefix_app w1 w2 s :
  ci_prefix (w1 ++ w2) s = true →
  ∃ occ rest, s = occ ++ rest ∧ ci_match w1 occ = true ∧ ci_prefix w2 rest = true.
Proof.
  revert s. induction w1 as [|p w1 IH]; intros s; simpl.
  - intros Hp. exists [], s. done.
  - destruct s as [|c s]; [done|]. intros [Hc Hp]%andb_prop.
    destruct (IH s Hp) as (occ & rest & -> & Hm & Hr).
    exists (c :: occ), rest. simpl. rewrite Hc, Hm. done.
Qed.

Lemma ci_prefix_match w s :
  ci_prefix w s = true → ∃ occ rest, s = occ ++ rest ∧ ci_match w occ = true.
Proof.
  intros Hp. rewrite <- (app_nil_r w) in Hp.
  apply ci_prefix_app in Hp as (occ & rest & -> & Hm & _). by exists occ, rest.
Qed.

Lemma ci_eqb_space c : ci_eqb 32 c = true → c = 32.
Proof.
  unfold ci_eqb, ascii_upper. change (is_lower 32) with false. cbn iota.
  unfold is_lower. destruct ((97 <=? c) && (c <=? 122)) eqn:E; bool_lia.
Qed.

Lemma lit_i_accepts w prev s cap :
  ci_prefix w s = true → ∃ st, In st (ends (lit_i w) (MState prev s cap)).
Proof.
  intros (occ & rest & -> & Hm)%ci_prefix_match.
  exists (MState (last_or prev occ) rest cap). apply in_ends_lit_i. by exists occ.
Qed.

Lemma word_blank_accepts w1 w2 r prev s cap :
  (∀ prev' s', ci_prefix w2 s' = true → ∃ st, In st (ends r (MState prev' s' cap))) →
  ci_prefix (w1 ++ 32 :: w2) s = true →
  ∃ st, In st (ends (Cat (lit_i w1) (Cat (Rep is_space 1 None) r)) (MState prev s cap)).
Proof.
  intros Hr (occ & rest & -> & Hm & Hp)%ci_prefix_app.
  destruct rest as [|c rest]; [done|]. simpl in Hp. apply andb_prop in Hp as [Hc Hp].
  apply ci_eqb_space in Hc as ->.
  destruct (Hr (Some 32) rest Hp) as [st Hst]. exists st.
  apply in_ends_cat. exists (MState (last_or prev occ) (32 :: rest) cap). split.
  { apply in_ends_lit_i. by exists occ. }
  apply in_ends_cat. exists (MState (Some 32) rest cap). split; [|done].
  apply in_ends_rep. exists [32]. simpl. repeat split; try done; try lia.
Qed.

Lemma re_not_found_accepts prev s :
  existsb (λ w, ci_prefix w s) not_found_phrases = true →
  ∃ st, In st (ends re_not_found (MState prev s None)).
Proof.
  unfold not_found_phrases, re_not_found. cbn [existsb]. rewrite orb_false_r.
  intros [H1|[H2|[H3|H4]%orb_prop]%orb_prop]%orb_prop.
  - destruct (word_blank_accepts (js "no") (js "data") (lit_i (js "data")) prev s None)
      as [st Hst]; [intros; by apply lit_i_accepts|exact H1|].
    exists st. apply in_ends_alt. by left.
  - destruct (word_blank_accepts (js "not") (js "found") (lit_i (js "found")) prev s None)
      as [st Hst]; [intros; by apply lit_i_accepts|exact H2|].
    exists st. apply in_ends_alt. right. apply in_ends_alt. by left.
  - destruct (word_blank_accepts (js "invalid") (js "invoice") (lit_i (js "invoice")) prev s None)
      as [st Hst]; [intros; by apply lit_i_accepts|exact H3|].
    exists st. do 2 (apply in_ends_alt; right). apply in_ends_alt. by left.
  - destruct (word_blank_accepts (js "does") (js "not exist")
                (Cat (lit_i (js "not")) (Cat (Rep is_space 1 None) (lit_i (js "exist"))))
                prev s None) as [st Hst]; [|exact H4|].
    { intros prev' s' Hp.
      apply (word_blank_accepts (js "not") (js "exist") (lit_i (js "exist")));
        [intros; by apply lit_i_accepts|exact Hp]. }
    exists st. do 3 (apply in_ends_alt; right). done.
Qed.

Lemma existsb_includes_pos s (ws : list jsstring) :
  existsb (includes_ci s) ws = true →
  ∃ k, (k ≤ length s)%nat ∧ existsb (λ w, ci_prefix w (drop k s)) ws = true.
Proof.
  induction ws as [|w ws IH]; simpl; [done|].
  intros [Hw|Hws]%orb_prop.
  - apply includes_ci_pos in Hw as (k & Hk & Hp). exists k. by rewrite Hp.
  - destruct (IH Hws) as (k & Hk & Hp). exists k. rewrite Hp, orb_true_r. done.
Qed.

(** A text that holds one of the phrases is one the pattern matches. *)
Lemma test_re_not_found body :
  existsb (includes_ci body) not_found_phrases = true → test re_not_found body = true.
Proof.
  intros (k & Hk & Hp)%existsb_includes_pos.
  apply test_true_iff.
  destruct (re_not_found_accepts (last (take k body)) (drop k body) Hp) as [st Hst].
  by exists k, st.
Qed.

Section NotFound.
Context `{Platform}.

Lemma getReceiptCanonical_fetched tx page :
  fetches tx page →
  getReceiptCanonical tx
  = (_ ← throw_if (negb (nonempty (f_html page)) || (length (f_html page) <? 200)%nat)
           (Error EMPTY_HTML None);
     _ ← throw_if (test re_not_found (pageBodyText (f_html page)))
           (Error TX_NOT_FOUND None);
     _ ← requireCriticalFields (extractCanonical (f_html page) tx);
     Ok (with_sourceUrl (extractCanonical (f_html page) tx) (f_url page))).
Proof.
  intros (Htx & url & Hb & Ha & Hf). unfold getReceiptCanonical.
  rewrite Htx, Hb. cbn [negb throw_if mbind result_bind]. rewrite Ha.
  cbn [mbind result_bind]. rewrite Hf. done.
Qed.

(** C1.  For every canonical record the acceptance gate succeeds if and
    only if [invoiceNo], [settledAmount] and [creditedPartyAccountNo] are
    all present (non-empty).  When it does not succeed it raises
    [PARSE_FAIL] whose details report the presence of each of the three
    fields; in particular a record without [creditedPartyAccountNo] fails
    with [hasCreditedPartyAccountNo: false], whatever the other two
    hold.  The gate is the last step of the pipeline: on a fetched page
    that is long enough and has none of the not-found wording, the
    pipeline returns what the gate decides on the resolved record. *)
Theorem acceptance_gate (c : CanonicalReceipt) (tx : jsstring) (page : fetched) :
  (requireCriticalFields c = Ok tt
   ↔ truthy (invoiceNo c) = true ∧ truthy (settledAmount c) = true
     ∧ truthy (creditedPartyAccountNo c) = true)
  ∧ (requireCriticalFields c ≠ Ok tt →
     requireCriticalFields c
     = Throw (Error PARSE_FAIL
                (Some (DetailPresence (truthy (invoiceNo c))
                         (truthy (settledAmount c))
                         (truthy (creditedPartyAccountNo c))))))
  ∧ (truthy (creditedPartyAccountNo c) = false →
     requireCriticalFields c
     = Throw (Error PARSE_FAIL
                (Some (DetailPresence (truthy (invoiceNo c))
                         (truthy (settledAmount c)) false))))
  ∧ (fetches tx page → (200 ≤ length (f_html page))%nat →
     test re_not_found (pageBodyText (f_html page)) = false →
     getReceiptCanonical tx
     = (_ ← requireCriticalFields (extractCanonical (f_html page) tx);
        Ok (with_sourceUrl (extractCanonical (f_html page) tx) (f_url page)))).
Proof.
  split; [|split; [|split]].
  4:{ intros Hf Hlen Hnf. rewrite (getReceiptCanonical_fetched tx page Hf), Hnf.
      assert (negb (nonempty (f_html page)) || (length (f_html page) <? 200)%nat = false)
        as ->; [|done].
      apply orb_false_iff. split.
      - destruct (f_html page); [simpl in Hlen; lia|done].
      - apply Nat.ltb_ge. lia. }
  all: unfold requireCriticalFields, throw_if;
    destruct (truthy (invoiceNo c)), (truthy (settledAmount c)),
      (truthy (creditedPartyAccountNo c)); simpl;
    repeat split; intros; destruct_and?; try done; try discriminate; congruence.
Qed.

(** C6, as amended.  When the pipeline has fetched a page of at least 200
    characters whose cleaned body text contains, up to case, one of the
    phrases [no data], [not found], [invalid invoice] or [does not
    exist], it raises [TX_NOT_FOUND]: the fields are not resolved and no
    record is produced. *)
Theorem not_found_short_circuit (tx : jsstring) (page : fetched) :
  fetches tx page →
  (200 ≤ length (f_html page))%nat →
  existsb (includes_ci (pageBodyText (f_html page))) not_found_phrases = true →
  getReceiptCanonical tx = Throw (Error TX_NOT_FOUND None).
Proof.
  intros Hf Hlen Hph. rewrite (getReceiptCanonical_fetched tx page Hf).
  assert (negb (nonempty (f_html page)) || (length (f_html page) <? 200)%nat = false) as ->.
  { apply orb_false_iff. split.
    - destruct (f_html page); [simpl in Hlen; lia|done].
    - apply Nat.ltb_ge. lia. }
  cbn [throw_if mbind result_bind]. rewrite (test_re_not_found _ Hph). done.
Qed.

End NotFound.

(** ** The settled amount *)

Lemma take_while_app p d f :
  forallb p d = true →
  match f with c :: _ => p c = false | [] => True end →
  take_while p (d ++ f) = d ∧ drop_while p (d ++ f) = f.
Proof.
  intros Hd Hf. induction d as [|x d IH]; simpl.
  - destruct f as [|c f]; [done|]. simpl. by rewrite Hf.
  - simpl in Hd. apply andb_prop in Hd as [-> Hd]. destruct (IH Hd) as [-> ->]. done.
Qed.

Lemma is_amount_split v :
  is_amount v = true →
  ∃ d f, v = d ++ f ∧ d ≠ [] ∧ forallb is_digit_or_comma d = true
         ∧ (f = [] ∨ ∃ g, f = 46 :: g ∧ forallb is_digit g = true
                          ∧ (1 ≤ length g ≤ 2)%nat).
Proof.
  unfold is_amount. intros [Hd Hf]%andb_prop.
  exists (take_while is_digit_or_comma v), (drop_while is_digit_or_comma v).
  split; [by rewrite take_drop_while|]. split; [by destruct (take_while _ v)|].
  split; [apply take_while_all|].
  destruct (drop_while is_digit_or_comma v) as [|c g]; [by left|]. right.
  apply andb_prop in Hf as [[[Hc Hg]%andb_prop H1]%andb_prop H2].
  apply N.eqb_eq in Hc as ->. exists g. apply Nat.leb_le in H1, H2. done.
Qed.

Lemma is_amount_join d f :
  d ≠ [] → forallb is_digit_or_comma d = true →
  (f = [] ∨ ∃ g, f = 46 :: g ∧ forallb is_digit g = true ∧ (1 ≤ length g ≤ 2)%nat) →
  is_amount (d ++ f) = true.
Proof.
  intros Hne Hd Hf. unfold is_amount.
  destruct (take_while_app is_digit_or_comma d f Hd) as [-> ->].
  { destruct Hf as [->|(g & -> & _)]; done. }
  destruct d; [done|]. cbn [nonempty andb].
  destruct Hf as [->|(g & -> & Hg & H1 & H2)]; [done|].
  rewrite !andb_true_iff, N.eqb_eq, !Nat.leb_le. done.
Qed.

Lemma ci_eqb_word p c : ci_eqb p c = true → is_word p = true → is_word c = true.
Proof.
  unfold ci_eqb, ascii_upper, is_word, is_alnum, is_upper, is_lower, is_digit.
  destruct ((97 <=? p) && (p <=? 122)) eqn:E1, ((97 <=? c) && (c <=? 122)) eqn:E2;
    bool_lia.
Qed.

Lemma ci_match_head w occ p w' :
  w = p :: w' → ci_match w occ = true →
  ∃ c occ', occ = c :: occ' ∧ ci_eqb p c = true.
Proof.
  intros -> Hm. destruct occ as [|c occ']; [done|]. simpl in Hm.
  apply andb_prop in Hm as [Hc _]. by exists c, occ'.
Qed.

Lemma ci_match_last w occ p w' prev :
  w = w' ++ [p] → ci_match w occ = true →
  ∃ c, last_or prev occ = Some c ∧ ci_eqb p c = true.
Proof.
  intros -> . revert occ prev. induction w' as [|q w' IH]; intros occ prev Hm.
  - destruct occ as [|c [|? ?]]; simpl in Hm; try done.
    + exists c. rewrite andb_true_r in Hm. done.
    + by rewrite andb_false_r in Hm.
  - destruct occ as [|c occ]; [done|]. simpl in Hm. apply andb_prop in Hm as [_ Hm].
    rewrite last_or_cons. by apply IH.
Qed.

Lemma settled_anchor_word a rest :
  ci_match (js "Settled Amount") a = true → word_after (a ++ rest) = true.
Proof.
  intros Hm. eapply (ci_match_head _ a 83) in Hm as (c & a' & -> & Hc); [|reflexivity].
  simpl. by apply (ci_eqb_word 83).
Qed.

Lemma birr_word b prev :
  ci_match (js "Birr") b = true → word_before (last_or prev b) = true.
Proof.
  intros Hm. eapply (ci_match_last _ b 114 (js "Bir") prev) in Hm as (c & -> & Hc);
    [|reflexivity].
  simpl. by apply (ci_eqb_word 114).
Qed.

(** What a match of [re_settled_amount] is. *)
Lemma re_settled_amount_sound body k st :
  In st (ends re_settled_amount (at_pos body k)) →
  ∃ v, m_cap st = Some v ∧ settled_at body k v.
Proof.
  unfold re_settled_amount.
  intros (s1 & [-> Hb1]%in_ends_wordb & H)%in_ends_cat.
  apply in_ends_cat in H as (s2 & (a & Ha & Hma & Hpa & _)%in_ends_lit_i & H).
  apply in_ends_cat in H as (s3 & (ws & Hws & Hsp & _ & _ & _ & _)%in_ends_rep & H).
  apply in_ends_cat in H as (s4 & (e & He & ->)%in_ends_cap & H).
  apply in_ends_cat in H as (s5 & (ws' & Hws' & Hsp' & _ & _ & Hp5 & Hc5)%in_ends_rep & H).
  apply in_ends_cat in H as (s6 & (b & Hb & Hmb & Hp6 & Hc6)%in_ends_lit_i
                             & [-> Hb2]%in_ends_wordb).
  apply in_ends_cat in He as (e1 & (d & Hd & Hdall & Hdlo & _)%in_ends_rep & He).
  simpl in Ha, Hb1, Hpa, Hws', Hp5, Hc5.
  assert (Hv : ∃ f, m_rest e1 = f ++ m_rest e
             ∧ (f = [] ∨ ∃ g, f = 46 :: g ∧ forallb is_digit g = true
                              ∧ (1 ≤ length g ≤ 2)%nat)).
  { apply in_ends_opt in He as [He| ->].
    2:{ exists []. split; [done|]. by left. }
    apply in_ends_cat in He as (e2 & (x & Hx & Hx46 & _)%in_ends_chr
                                & (g & Hg & Hgall & Hglo & Hghi & _)%in_ends_rep).
    apply N.eqb_eq in Hx46 as <-. exists (46 :: g). split.
    - rewrite Hx, Hg. done.
    - right. exists g. done. }
  destruct Hv as (f & Hf & Hfshape).
  exists (d ++ f). split.
  - rewrite Hc6, Hc5. simpl. rewrite Hd, Hf, app_assoc, take_app_length_sub. done.
  - exists a, ws, ws', b, (m_rest s6).
    rewrite Ha, Hws, Hd, Hf, Hws', Hb, <- !app_assoc. repeat split; try done.
    + apply is_amount_join; try done. destruct d; [simpl in Hdlo; lia|done].
    + rewrite Ha, (settled_anchor_word a _ Hma) in Hb1. by destruct (word_before _).
    + rewrite Hp6, (birr_word b _ Hmb) in Hb2.
      destruct (word_after (m_rest s6)); [discriminate Hb2|done].
Qed.

(** Where the anchor, a numeric text and the currency word stand as whole
    words, the pattern matches. *)
Lemma re_settled_amount_complete body k v :
  settled_at body k v → ∃ st, In st (ends re_settled_amount (at_pos body k)).
Proof.
  intros (a & ws & ws' & b & post & Hbody & Hma & Hws & Hv & Hws' & Hmb & Hb1 & Hb2).
  apply is_amount_split in Hv as (d & f & -> & Hdne & Hd & Hf).
  set (p0 := last (take k body)) in *.
  set (p1 := last_or p0 a). set (p2 := last_or p1 ws).
  set (p3 := last_or p2 d).
  set (p4 := match f with [] => p3 | _ => last_or p3 f end).
  set (p5 := last_or p4 ws'). set (p6 := last_or p5 b).
  set (cap := Some (d ++ f)).
  exists (MState p6 post cap). unfold re_settled_amount, at_pos. fold p0. rewrite Hbody.
  apply in_ends_cat. eexists. split.
  { apply in_ends_wordb. split; [reflexivity|]. simpl.
    rewrite Hb1, (settled_anchor_word a _ Hma). done. }
  apply in_ends_cat. exists (MState p1 (ws ++ (d ++ f) ++ ws' ++ b ++ post) None). split.
  { apply in_ends_lit_i. by exists a. }
  apply in_ends_cat. exists (MState p2 ((d ++ f) ++ ws' ++ b ++ post) None). split.
  { apply in_ends_rep. exists ws. simpl. repeat split; try done. lia. }
  apply in_ends_cat. exists (MState p4 (ws' ++ b ++ post) cap). split.
  { apply in_ends_cap. exists (MState p4 (ws' ++ b ++ post) None). split.
    - apply in_ends_cat. exists (MState p3 (f ++ ws' ++ b ++ post) None). split.
      + apply in_ends_rep. exists d. simpl. rewrite <- app_assoc.
        repeat split; try done. destruct d; [done|simpl; lia].
      + apply in_ends_opt. destruct Hf as [->|(g & -> & Hg & Hglen)].
        * right. done.
        * left. apply in_ends_cat.
          exists (MState (Some 46) (g ++ ws' ++ b ++ post) None). split.
          -- apply in_ends_chr. exists 46. done.
          -- apply in_ends_rep. exists g. simpl. repeat split; try done; try lia.
             subst p4. by rewrite last_or_cons.
    - simpl. unfold cap. f_equal. f_equal. by rewrite take_app_length_sub. }
  apply in_ends_cat. exists (MState p5 (b ++ post) cap). split.
  { apply in_ends_rep. exists ws'. simpl. repeat split; try done. lia. }
  apply in_ends_cat. exists (MState p6 post cap). split.
  { apply in_ends_lit_i. by exists b. }
  apply in_ends_wordb. split; [done|]. simpl. unfold p6.
  rewrite (birr_word b _ Hmb), Hb2. done.
Qed.

Lemma is_dc_not_space c : is_digit_or_comma c = true → negb (is_space c) = true.
Proof. unfold is_digit_or_comma, is_digit, is_space. bool_lia. Qed.

Lemma is_dc_not_colon c : is_digit_or_comma c = true → is_colon c = false.
Proof. unfold is_digit_or_comma, is_digit, is_colon. bool_lia. Qed.

Lemma is_digit_dc c : is_digit c = true → is_digit_or_comma c = true.
Proof. unfold is_digit_or_comma. by intros ->. Qed.

(** The characters of a numeric text: no blank, no colon. *)
Lemma is_amount_chars v :
  is_amount v = true →
  v ≠ []
  ∧ forallb (λ c, negb (is_space c) && negb (is_colon c)) v = true.
Proof.
  intros (d & f & -> & Hne & Hd & Hf)%is_amount_split. split; [by destruct d|].
  rewrite forallb_app. apply andb_true_iff. split.
  - eapply forallb_impl, Hd. intros c Hc.
    rewrite (is_dc_not_space c Hc), (is_dc_not_colon c Hc). done.
  - destruct Hf as [->|(g & -> & Hg & _)]; [done|]. simpl.
    eapply forallb_impl, Hg. intros c Hc%is_digit_dc.
    rewrite (is_dc_not_space c Hc), (is_dc_not_colon c Hc). done.
Qed.

Lemma cleanText_amount v : is_amount v = true → cleanText (Some v) = v.
Proof.
  intros [_ Hall]%is_amount_chars. apply cleanText_plain.
  - eapply forallb_impl, Hall. by intros c [-> _]%andb_prop.
  - eapply ends_in_forall, Hall. intros c [_ Hc]%andb_prop. by apply negb_true_iff.
Qed.

Lemma scan_amount_app v t :
  is_amount v = true →
  match t with c :: _ => is_digit_or_comma c = false ∧ c ≠ 46 | [] => True end →
  scan_amount (v ++ t) = v.
Proof.
  intros (d & f & -> & Hne & Hd & Hf)%is_amount_split Ht.
  unfold scan_amount. rewrite <- app_assoc.
  destruct (take_while_app is_digit_or_comma d (f ++ t) Hd) as [-> ->].
  { destruct Hf as [->|(g & -> & _)]; [|done]. destruct t; [done|]. apply Ht. }
  destruct Hf as [->|(g & -> & Hg & _)].
  - rewrite app_nil_r. simpl. destruct t as [|c t]; [done|].
    destruct Ht as [_ Hc]. destruct c as [|p]; [done|].
    do 6 (destruct p as [p|p|]; try done).
  - simpl. destruct (take_while_app is_digit g t Hg) as [-> _]; [|done].
    destruct t as [|c t]; [done|]. destruct Ht as [Ht _].
    unfold is_digit_or_comma in Ht. by apply orb_false_iff in Ht as [-> _].
Qed.

Lemma ci_eqb_B c : ci_eqb 66 c = true → c = 66 ∨ c = 98.
Proof.
  unfold ci_eqb, ascii_upper, is_lower. change ((97 <=? 66) && (66 <=? 122)) with false.
  cbn iota. destruct ((97 <=? c) && (c <=? 122)) eqn:E; bool_lia.
Qed.

Lemma is_space_stops c : is_space c = true → is_digit_or_comma c = false ∧ c ≠ 46.
Proof. unfold is_space, is_digit_or_comma, is_digit. bool_lia. Qed.

(** The numeric text at an index is determined by the text. *)
Lemma settled_at_scan body k v :
  settled_at body k v →
  v = scan_amount (drop_while is_space (drop 14 (drop k body))).
Proof.
  intros (a & ws & ws' & b & post & -> & Hma & Hws & Hv & Hws' & Hmb & _ & _).
  apply ci_match_length in Hma as Hla. change (length (js "Settled Amount")) with 14%nat in Hla.
  rewrite <- Hla, drop_app_length.
  destruct (is_amount_chars v Hv) as [Hne Hchars].
  destruct (take_while_app is_space ws (v ++ ws' ++ b ++ post) Hws) as [_ ->].
  { destruct v as [|c v]; [done|]. simpl in Hchars.
    apply andb_prop in Hchars as [[Hc _]%andb_prop _]. by apply negb_true_iff in Hc. }
  symmetry. apply scan_amount_app; [done|].
  destruct ws' as [|c ws'].
  - eapply (ci_match_head _ b 66) in Hmb as (c & b' & -> & Hc); [|reflexivity].
    simpl. apply ci_eqb_B in Hc as [->| ->]; done.
  - simpl in Hws'. apply andb_prop in Hws' as [Hc _]. by apply is_space_stops.
Qed.

Lemma settled_at_unique body k v v' :
  settled_at body k v → settled_at body k v' → v = v'.
Proof. intros H1%settled_at_scan H2%settled_at_scan. congruence. Qed.

Lemma settled_at_lt body k v : settled_at body k v → (k < length body)%nat.
Proof.
  intros (a & ws & ws' & b & post & Hb & Hma & _).
  apply ci_match_length in Hma. change (length (js "Settled Amount")) with 14%nat in Hma.
  destruct (decide (k < length body)%nat) as [|Hge]; [done|].
  rewrite drop_ge in Hb by lia. destruct a; done.
Qed.

Lemma extractByRegex_settled body v :
  extractByRegex (Some body) re_settled_amount = Some v
  ↔ ∃ k, settled_at body k v ∧ ∀ j v', (j < k)%nat → ¬ settled_at body j v'.
Proof.
  unfold extractByRegex, match_group1. cbn [String_or_empty]. split.
  - destruct (search re_settled_amount [] body) as [[before st]|] eqn:E; [|done].
    apply search_some in E as (k & Hk & _ & Hh & Hj).
    assert (Hin : In st (ends re_settled_amount (at_pos body k))).
    { destruct (ends re_settled_amount (at_pos body k)); [done|].
      simpl in Hh. injection Hh as ->. by left. }
    apply re_settled_amount_sound in Hin as (v0 & -> & Hs).
    rewrite (cleanText_amount v0).
    2:{ by destruct Hs as (? & ? & ? & ? & ? & _ & _ & _ & ? & _). }
    intros [= <-]. exists k. split; [done|].
    intros j v' Hlt (st' & Hst')%re_settled_amount_complete.
    rewrite (Hj j Hlt) in Hst'. destruct Hst'.
  - intros (k & Hs & Hfirst).
    destruct (re_settled_amount_complete body k v Hs) as [st0 Hst0].
    destruct (ends re_settled_amount (at_pos body k)) as [|st l] eqn:Ek; [destruct Hst0|].
    assert (Hsearch : search re_settled_amount [] body = Some (take k body, st)).
    { apply search_some. exists k. repeat split.
      - apply settled_at_lt in Hs. lia.
      - by rewrite Ek.
      - intros j Hlt. destruct (ends re_settled_amount (at_pos body j)) as [|st' l'] eqn:Ej;
          [done|].
        assert (Hin : In st' (ends re_settled_amount (at_pos body j)))
          by (rewrite Ej; by left).
        apply re_settled_amount_sound in Hin as (v' & _ & Hs').
        by destruct (Hfirst j v' Hlt). }
    rewrite Hsearch.
    assert (Hin : In st (ends re_settled_amount (at_pos body k))) by (rewrite Ek; by left).
    apply re_settled_amount_sound in Hin as (v0 & -> & Hs0).
    rewrite (settled_at_unique body k v0 v Hs0 Hs).
    rewrite cleanText_amount; [done|].
    by destruct Hs as (? & ? & ? & ? & ? & _ & _ & _ & ? & _).
Qed.

Lemma extractByRegex_settled_none body :
  extractByRegex (Some body) re_settled_amount = None
  ↔ ∀ k v, ¬ settled_at body k v.
Proof.
  unfold extractByRegex. cbn [String_or_empty]. split.
  - destruct (match_group1 re_settled_amount body) eqn:E; [done|]. intros _.
    apply match_group1_none in E. intros k v Hs.
    pose proof (settled_at_lt body k v Hs) as Hlt.
    apply re_settled_amount_complete in Hs as (st & Hst).
    assert (test re_settled_amount body = true); [|congruence].
    apply test_true_iff. exists k, st. split; [lia|done].
  - intros Hno. destruct (match_group1 re_settled_amount body) as [m1|] eqn:E; [|done].
    apply match_group1_some in E as (k & st & _ & Hin & _).
    apply re_settled_amount_sound in Hin as (v & _ & Hs). by destruct (Hno k v).
Qed.

Section Amount.
Context `{Platform}.

Lemma settledAmount_resolved html tx :
  settledAmount (extractCanonical html tx)
  = js_or (extractByRegex (Some (resolverBodyText html)) re_settled_amount) None.
Proof. done. Qed.

(** C5, as amended.  The resolved [settledAmount] is [v] exactly when the
    body text (cleaned, with the [download the pdf] occurrences removed)
    holds at some index, as whole words, the anchor [Settled Amount],
    optional blanks, the numeric text [v], optional blanks and the word
    [Birr], and holds no such occurrence at an earlier index; it is
    absent exactly when there is no such occurrence.  In particular a
    body text that holds [Settled Amount 1,234.50 Birr] as whole words,
    with no occurrence before it, resolves to [1,234.50]. *)
Theorem settled_amount_resolution (html tx v : jsstring) :
  (settledAmount (extractCanonical html tx) = Some v
   ↔ ∃ k, settled_at (resolverBodyText html) k v
          ∧ ∀ j v', (j < k)%nat → ¬ settled_at (resolverBodyText html) j v')
  ∧ (settledAmount (extractCanonical html tx) = None
     ↔ ∀ k v', ¬ settled_at (resolverBodyText html) k v')
  ∧ (∀ pre post,
       resolverBodyText html = pre ++ js "Settled Amount 1,234.50 Birr" ++ post →
       word_before (last pre) = false → word_after post = false →
       (∀ j v', (j < length pre)%nat → ¬ settled_at (resolverBodyText html) j v') →
       settledAmount (extractCanonical html tx) = Some (js "1,234.50")).
Proof.
  rewrite settledAmount_resolved. split; [|split].
  3:{ intros pre post Hbody Hb1 Hb2 Hfirst.
      assert (He : extractByRegex (Some (resolverBodyText html)) re_settled_amount
                   = Some (js "1,234.50")); [|by rewrite He].
      apply extractByRegex_settled. exists (length pre). split; [|done].
      exists (js "Settled Amount"), [32], [32], (js "Birr"), post.
      rewrite Hbody, drop_app_length, take_app_length. repeat split; done. }
  - rewrite <- extractByRegex_settled. unfold js_or.
    destruct (extractByRegex (Some (resolverBodyText html)) re_settled_amount)
      as [w|] eqn:E; [|done].
    apply extractByRegex_settled in E as Hw. destruct Hw as (k & Hs & _).
    destruct Hs as (? & ? & ? & ? & ? & _ & _ & _ & Hv & _).
    destruct (is_amount_chars w Hv) as [Hne _]. destruct w; done.
  - rewrite <- extractByRegex_settled_none. unfold js_or.
    destruct (extractByRegex (Some (resolverBodyText html)) re_settled_amount)
      as [w|] eqn:E; [|done].
    apply extractByRegex_settled in E as Hw. destruct Hw as (k & Hs & _).
    destruct Hs as (? & ? & ? & ? & ? & _ & _ & _ & Hv & _).
    destruct (is_amount_chars w Hv) as [Hne _]. destruct w; done.
Qed.

End Amount.

(** ** The raw pair extractor *)

Lemma pairs_ind (P : list jsstring → Prop) :
  P [] → (∀ x, P [x]) → (∀ x y l, P l → P (x :: y :: l)) → ∀ l, P l.
Proof.
  intros H0 H1 H2 l. assert (P l ∧ ∀ x, P (x :: l)) as [? _]; [|done].
  induction l as [|y l [IH1 IH2]]; [done|]. split; [apply IH2|].
  intros x. by apply H2.
Qed.

Lemma first_value_app k l1 l2 :
  first_value k (l1 ++ l2)
  = match first_value k l1 with Some v => Some v | None => first_value k l2 end.
Proof.
  unfold first_value. induction l1 as [|[k' v'] l1 IH]; [done|]. simpl.
  case_bool_decide; [done|]. exact IH.
Qed.

Lemma not_inherited_proto k : inherited k = false → k ≠ js "__proto__".
Proof. intros Hk ->. by vm_compute in Hk. Qed.

Lemma pair_loop_lookup arr : ∀ raw k,
  values_ok raw →
  values_ok (pair_loop raw arr)
  ∧ (inherited k = false →
     pair_loop raw arr !! k
     = match raw !! k with Some v => Some v | None => first_value k (survivors arr) end)
  ∧ (inherited k = true → raw !! k = None → pair_loop raw arr !! k = None).
Proof.
  induction arr as [| x | k' v' tl IH] using pairs_ind; intros raw k Hok.
  - simpl. split; [done|]. split; [|done]. intros _. by destruct (raw !! k).
  - simpl. split; [done|]. split; [|done]. intros _. by destruct (raw !! k).
  - cbn [pair_loop]. unfold survivors. cbn [consecutive_pairs List.filter fst snd].
    fold (survivors tl).
    set (raw' := if negb (nonempty k') || negb (nonempty v') then raw
                 else if negb (prop_truthy (obj_get raw k')) then obj_set raw k' v'
                 else raw).
    assert (Hok' : values_ok raw').
    { unfold raw'. destruct (negb (nonempty k') || negb (nonempty v')) eqn:E; [done|].
      destruct (negb (prop_truthy (obj_get raw k'))); [|done].
      unfold obj_set. case_bool_decide; [done|]. intros k0 v0.
      rewrite lookup_insert. case_decide; [|by apply Hok].
      intros [= <-]. apply orb_false_iff in E as [_ E]. by apply negb_false_iff in E. }
    destruct (IH raw' k Hok') as (Hok'' & Hown & Hinh). split; [done|]. split.
    + intros Hk. rewrite (Hown Hk). unfold raw'.
      destruct (nonempty k') eqn:Ek'; cbn [negb orb andb]; [|done].
      destruct (nonempty v') eqn:Ev'; cbn [negb orb andb]; [|done].
      unfold first_value. cbn [List.find fst snd].
      unfold obj_get. destruct (decide (k' = k)) as [->|Hne].
      * rewrite bool_decide_eq_true_2 by done.
        destruct (raw !! k) as [v0|] eqn:E0.
        -- cbn [prop_truthy]. rewrite (Hok k v0 E0). cbn [negb]. by rewrite E0.
        -- rewrite Hk. cbn [prop_truthy negb]. unfold obj_set.
           rewrite bool_decide_eq_false_2 by (by apply not_inherited_proto).
           by rewrite lookup_insert_eq.
      * rewrite bool_decide_eq_false_2 by done.
        assert (∀ o, (if negb (prop_truthy o) then obj_set raw k' v' else raw) !! k
                     = raw !! k) as ->; [|done].
        intros o. destruct (negb (prop_truthy o)); [|done]. unfold obj_set.
        case_bool_decide; [done|]. by rewrite lookup_insert_ne.
    + intros Hk Hnone. apply (Hinh Hk). unfold raw'.
      destruct (negb (nonempty k') || negb (nonempty v')); [done|].
      unfold obj_get. destruct (decide (k' = k)) as [->|Hne].
      * rewrite Hnone, Hk. done.
      * destruct (negb (prop_truthy _)); [|done]. unfold obj_set.
        case_bool_decide; [done|]. by rewrite lookup_insert_ne.
Qed.

Section RawPairs.
Context `{Platform}.

Lemma row_step_lookup raw row k :
  values_ok raw →
  values_ok (row_step raw row)
  ∧ (inherited k = false →
     row_step raw row !! k
     = match raw !! k with Some v => Some v | None => first_value k (row_pairs row) end)
  ∧ (inherited k = true → raw !! k = None → row_step raw row !! k = None).
Proof.
  intros Hok. unfold row_step, row_pairs.
  destruct (length (cheerio_find row (js "th, td")) <? 2)%nat.
  - split; [done|]. split; [|done]. intros _. by destruct (raw !! k).
  - by apply pair_loop_lookup.
Qed.

Lemma fold_rows_lookup rows : ∀ raw k,
  values_ok raw →
  (inherited k = false →
   fold_left row_step rows raw !! k
   = match raw !! k with
     | Some v => Some v
     | None => first_value k (flat_map row_pairs rows)
     end)
  ∧ (inherited k = true → raw !! k = None → fold_left row_step rows raw !! k = None).
Proof.
  induction rows as [|row rows IH]; intros raw k Hok.
  - simpl. split; [|done]. intros _. by destruct (raw !! k).
  - cbn [fold_left flat_map].
    destruct (row_step_lookup raw row k Hok) as (Hok' & Hown & Hinh).
    destruct (IH (row_step raw row) k Hok') as [Hown' Hinh']. split.
    + intros Hk. rewrite (Hown' Hk), (Hown Hk), first_value_app.
      by destruct (raw !! k).
    + intros Hk Hnone. apply (Hinh' Hk). by apply Hinh.
Qed.

(** X1.  For every document and every label that is no property name of
    [Object.prototype], the extractor stores the value of the first pair
    of the document with that label (rows of fewer than two cells give no
    pair, cells pair up consecutively, a trailing cell and every pair with
    an empty side are left out); a label that is such a name is never
    stored. *)
Theorem raw_pairs_first_wins (html k : jsstring) :
  (inherited k = false →
   extractReceiptRawPairs html !! k = first_value k (document_pairs html))
  ∧ (inherited k = true → extractReceiptRawPairs html !! k = None).
Proof.
  unfold extractReceiptRawPairs, document_pairs.
  destruct (fold_rows_lookup (cheerio_find (cheerio_load html) (js "table tr")) ∅ k)
    as [Hown Hinh]; [done|].
  split; [intros Hk; by rewrite (Hown Hk)|intros Hk; by apply Hinh].
Qed.

End RawPairs.

(** ** The pipeline on concrete pages *)

(** C7, the code at the failing input.  [cleanText] strips the trailing
    colons before it trims, so a text that ends in a colon followed by
    blanks keeps its colon, and a second application removes it:
    [cleanText] is not idempotent.  [Payer Name: ] is cleaned to
    [Payer Name:], while [Payer Name:] is cleaned to [Payer Name].  A page
    that writes the account label as [Credited party account no: ] has
    it stored with its colon, which is none of the labels the resolver
    looks up: the record has no account number and the page is refused,
    while the same page with the label [Credited party account no:] is
    accepted. *)
Theorem cleanText_colon_before_trim (t ws : jsstring) (c : N) :
  (is_colon c = true → forallb is_space ws = true → ws ≠ [] →
   ends_in is_colon (cleanText (Some (t ++ c :: ws))) = true
   ∧ cleanText (Some (cleanText (Some (t ++ c :: ws))))
     ≠ cleanText (Some (t ++ c :: ws)))
  ∧ cleanText (Some (js "Payer Name: ")) = js "Payer Name:"
  ∧ cleanText (Some (js "Payer Name:")) = js "Payer Name"
  ∧ cleanText (Some (cleanText (Some (js "Payer Name: ")))) = js "Payer Name"
  ∧ @extractReceiptRawPairs (labelled_platform "Credited party account no: ") []
    !! js "Credited party account no:" = Some (js "0911000000")
  ∧ creditedPartyAccountNo
      (@extractCanonical (labelled_platform "Credited party account no: ") [] sample_tx)
    = None
  ∧ @getReceiptCanonical (labelled_platform "Credited party account no: ") sample_tx
    = Throw (Error PARSE_FAIL (Some (DetailPresence true true false)))
  ∧ summary (@getReceiptCanonical (labelled_platform "Credited party account no:")
               sample_tx)
    = Some (Some (js "ABC12345XYZ"), Some (js "500.00"), Some (js "0911000000"),
            Some sample_url).
Proof.
  split.
  - intros Hc Hws Hne.
    pose proof (cleanText_keeps_colon t c ws Hc Hws Hne) as Hkeep.
    split; [exact Hkeep|]. intros Heq.
    apply cleanText_idempotent_iff in Heq. congruence.
  - vm_compute. repeat split; done.
Qed.


Lemma fetches_not_found :
  @fetches not_found_platform sample_tx (Fetched not_found_html 200 sample_url).
Proof.
  split; [by vm_compute|]. exists sample_url. repeat split; by vm_compute.
Defined.

(** C6, witness: the unknown-invoice page. *)
Lemma not_found_short_circuit_witness :
  @fetches not_found_platform sample_tx (Fetched not_found_html 200 sample_url)
  ∧ (200 ≤ length not_found_html)%nat
  ∧ existsb (includes_ci (@pageBodyText not_found_platform not_found_html))
      not_found_phrases = true
  ∧ @getReceiptCanonical not_found_platform sample_tx
    = Throw (Error TX_NOT_FOUND None).
Proof.
  assert (H1 : (200 ≤ length not_found_html)%nat) by (apply Nat.leb_le; by vm_compute).
  assert (H2 : existsb (includes_ci (@pageBodyText not_found_platform not_found_html))
                 not_found_phrases = true) by (by vm_compute).
  split; [exact fetches_not_found|]. split; [exact H1|]. split; [exact H2|].
  exact (@not_found_short_circuit not_found_platform sample_tx
           (Fetched not_found_html 200 sample_url) fetches_not_found H1 H2).
Defined.

(** C6, counterexample.  A page of 67 characters that says [not found] is
    refused as [EMPTY_HTML]. *)
Lemma not_found_on_short_page :
  @fetches short_platform sample_tx (Fetched short_html 200 sample_url)
  ∧ existsb (includes_ci (@pageBodyText short_platform short_html))
      not_found_phrases = true
  ∧ @getReceiptCanonical short_platform sample_tx = Throw (Error EMPTY_HTML None).
Proof.
  split; [|split; by vm_compute].
  split; [by vm_compute|]. exists sample_url. repeat split; by vm_compute.
Qed.

(** C5, counterexample.  The body text holds [Settled Amount 1,234.50
    Birr], but right after the text of the cell before it, so the anchor
    starts at no word boundary and no amount is resolved. *)
Lemma settled_amount_packed :
  @resolverBodyText packed_platform [] = js "PaidSettled Amount 1,234.50 Birr"
  ∧ includes (@resolverBodyText packed_platform []) (js "Settled Amount 1,234.50 Birr")
    = true
  ∧ settledAmount (@extractCanonical packed_platform [] sample_tx) = None.
Proof. vm_compute. done. Qed.

Example settled_amount_sample :
  settledAmount (@extractCanonical sample_platform [] sample_tx) = Some (js "1,234.50")
  ∧ settled_at (js "Settled Amount 1,234.50 Birr") 0 (js "1,234.50").
Proof.
  split; [by vm_compute|].
  exists (js "Settled Amount"), [32], [32], (js "Birr"), []. by vm_compute.
Qed.

(** C10, witness: the page without an amount. *)
Lemma invoiceNo_present_witness :
  sample_tx ≠ []
  ∧ truthy (invoiceNo (@extractCanonical no_amount_platform no_amount_html sample_tx)) = true
  ∧ @getReceiptCanonical no_amount_platform sample_tx
    = Throw (Error PARSE_FAIL (Some (DetailPresence true false true))).
Proof.
  assert (Hne : sample_tx ≠ []) by done.
  split; [exact Hne|]. split; [|by vm_compute].
  exact (proj1 (@invoiceNo_present no_amount_platform no_amount_html sample_tx Hne)).
Defined.

(** C4, the code at the failing input.  The row labelled [constructor] is
    among the pairs of the document, yet nothing is stored under that
    label: the read [raw[k]] finds the function inherited from
    [Object.prototype], so the pair is taken for a duplicate. *)
Lemma raw_pairs_constructor_label :
  @document_pairs constructor_platform []
  = [(js "constructor", js "Acme Builders"); (js "Payer Name", js "Abebe Kebede")]
  ∧ @extractReceiptRawPairs constructor_platform [] !! js "constructor" = None
  ∧ @extractReceiptRawPairs constructor_platform [] !! js "Payer Name"
    = Some (js "Abebe Kebede").
Proof. vm_compute. done. Qed.

Example raw_pairs_sample :
  @document_pairs sample_platform []
  = [ (js "Payer Name", js "Abebe Kebede"); (js "Payer Name", js "Duplicate Value");
      (js "Credited party account no", js "0911000000");
      (js "Invoice No.", js "ABC12345XYZ") ]
  ∧ @extractReceiptRawPairs sample_platform [] !! js "Payer Name"
    = Some (js "Abebe Kebede").
Proof. vm_compute. done. Qed.

Example transaction_id_samples :
  test re_tx (js "ABCDE12345") = true ∧ test re_tx (js "abcde12345") = true
  ∧ test re_tx (js "ABCDE1234") = false ∧ test re_tx (js "ABCDE123456") = false
  ∧ test re_tx (js "ABCDE1234!") = false ∧ test re_tx (js "ABCDE1234ä") = false.
Proof. vm_compute. done. Qed.

Example url_gate_samples :
  @assertAllowedHost sample_platform sample_url = Ok tt
  ∧ @assertAllowedHost sample_platform (js "ftp://transactioninfo.ethiotelecom.et/x")
    = Throw (Error INVALID_PROTOCOL None)
  ∧ code <$> (match @assertAllowedHost sample_platform
                      (js "https://a.transactioninfo.ethiotelecom.et/receipt/X") with
              | Throw e => Some e | Ok _ => None end)
    = Some HOST_NOT_ALLOWED
  ∧ @assertAllowedHost sample_platform (js "not a url") = Throw (Error INVALID_URL None).
Proof. vm_compute. done. Qed.

Example extractTxFromUrl_samples :
  @extractTxFromUrl sample_platform sample_url = Some sample_tx
  ∧ @extractTxFromUrl sample_platform (js "https://h.example/check?tx=ABCDE12345")
    = Some sample_tx
  ∧ @extractTxFromUrl sample_platform (js "https://h.example/check?id=ABCDE12345")
    = Some sample_tx
  ∧ @extractTxFromUrl sample_platform (js "https://h.example/r/ABCDE12345")
    = Some sample_tx
  ∧ @extractTxFromUrl sample_platform (js "https://h.example/") = None.
Proof. vm_compute. done. Qed.

(** C5, witness: the amount line alone. *)
Lemma settled_amount_resolution_witness :
  @resolverBodyText amount_only_platform [] = js "Settled Amount 1,234.50 Birr"
  ∧ settledAmount (@extractCanonical amount_only_platform [] sample_tx)
    = Some (js "1,234.50").
Proof.
  split; [by vm_compute|].
  apply (proj2 (proj2 (@settled_amount_resolution amount_only_platform [] sample_tx []))
           [] []).
  - by vm_compute.
  - by vm_compute.
  - by vm_compute.
  - intros j v' Hj. simpl in Hj. lia.
Defined.

(** C1, witness: a record without an account number. *)
Lemma acceptance_gate_witness :
  truthy (creditedPartyAccountNo no_account_record) = false
  ∧ @requireCriticalFields no_account_record
    = Throw (Error PARSE_FAIL (Some (DetailPresence true true false))).
Proof.
  split; [by vm_compute|].
  apply (proj1 (proj2 (proj2
           (@acceptance_gate sample_platform no_account_record sample_tx
              (Fetched [] 200 []))))).
  by vm_compute.
Defined.

(** C2, witness: an identifier of nine characters is refused, and one of
    ten letters and digits passes the check and, on the accepted page,
    the whole pipeline. *)
Lemma transaction_id_validation_witness :
  (test re_tx (js "ABCDE1234") = false
   ∧ @getReceiptCanonical sample_platform (js "ABCDE1234")
     = Throw (Error TX_FORMAT None))
  ∧ (test re_tx sample_tx = true
     ∧ (∀ e, @getReceiptCanonical accepted_platform sample_tx = Throw e →
             code e ≠ TX_FORMAT)
     ∧ summary (@getReceiptCanonical accepted_platform sample_tx)
       = Some (Some (js "ABC12345XYZ"), Some (js "500.00"), Some (js "0911000000"),
               Some sample_url)).
Proof.
  split.
  - split; [by vm_compute|].
    apply (proj1 (proj2 (@transaction_id_validation sample_platform (js "ABCDE1234")))).
    by vm_compute.
  - assert (Ht : test re_tx sample_tx = true) by (by vm_compute).
    split; [exact Ht|].
    destruct (proj1 (proj2 (proj2
                (@transaction_id_validation accepted_platform sample_tx))) Ht)
      as [Hpass Hgo].
    split; [exact Hpass|]. rewrite Hgo. by vm_compute.
Defined.

(** C3, witness: a subdomain of the allowed host. *)
Lemma url_safety_gate_witness :
  code <$> (match @assertAllowedHost sample_platform
                    (js "https://a.transactioninfo.ethiotelecom.et/receipt/X") with
            | Throw e => Some e
            | Ok _ => None
            end)
  = Some HOST_NOT_ALLOWED.
Proof.
  destruct (@simple_URL (js "https://a.transactioninfo.ethiotelecom.et/receipt/X"))
    as [u|] eqn:Hu; [|by vm_compute in Hu].
  pose proof (proj2 (@url_safety_gate sample_platform
                (js "https://a.transactioninfo.ethiotelecom.et/receipt/X")) u Hu)
    as (_ & Hhost & _).
  vm_compute in Hu. injection Hu as <-.
  rewrite Hhost.
  - done.
  - right. by vm_compute.
  - by vm_compute.
Defined.


(** C9, witness: a name of five tokens. *)
Lemma name_segmentation_witness :
  cleanText (Some (js " Abebe  Kebede Tesfaye Gebre  Mariam: ")) ≠ []
  ∧ parseEthiopianName (Some (js " Abebe  Kebede Tesfaye Gebre  Mariam: "))
    = Some {| full := js "Abebe Kebede Tesfaye Gebre Mariam:";
              first := Some (js "Abebe"); father := Some (js "Kebede");
              grandfather := Some (js "Tesfaye");
              rest := Some (js "Gebre Mariam:") |}.
Proof.
  assert (Hne : cleanText (Some (js " Abebe  Kebede Tesfaye Gebre  Mariam: ")) ≠ [])
    by (by vm_compute).
  split; [exact Hne|].
  rewrite (proj2 (proj1 (proj2
             (name_segmentation (Some (js " Abebe  Kebede Tesfaye Gebre  Mariam: "))))
             Hne)).
  by vm_compute.
Defined.

(** ** Further properties of the pipeline *)

Section More.
Context `{Platform}.

(** X2.  A pair whose label and value have the same normalised key is
    junk. *)
Theorem isJunkPair_same_key (key value : option jsstring) :
  normalizeKey key = normalizeKey value → isJunkPair key value = true.
Proof.
  intros Heq. unfold isJunkPair.
  destruct (negb (truthy key) || negb (truthy value)); [done|].
  destruct (isPdfJunkValue value); [done|].
  by rewrite bool_decide_eq_true_2.
Qed.

(** X3.  A fetched page of fewer than 200 characters is refused as
    [EMPTY_HTML], whatever it holds. *)
Theorem short_page_rejected (tx : jsstring) (page : fetched) :
  fetches tx page → (length (f_html page) < 200)%nat →
  getReceiptCanonical tx = Throw (Error EMPTY_HTML None).
Proof.
  intros Hf Hlen. rewrite (getReceiptCanonical_fetched tx page Hf).
  assert ((length (f_html page) <? 200)%nat = true) as -> by (by apply Nat.ltb_lt).
  rewrite orb_true_r. done.
Qed.

(** X4.  Both entry points put the URL safety gate before the fetch: a
    URL the gate refuses is an error of [getReceiptFromUrl], and a
    receipt URL the gate refuses is an error of [getReceiptCanonical],
    whatever the browser would return. *)
Theorem url_gate_first (url tx receiptUrl : jsstring) (e : error) :
  (assertAllowedHost url = Throw e → getReceiptFromUrl url = Throw e)
  ∧ (test re_tx tx = true → buildReceiptUrlFromTx tx = Ok receiptUrl →
     assertAllowedHost receiptUrl = Throw e → getReceiptCanonical tx = Throw e).
Proof.
  split.
  - intros Ha. unfold getReceiptFromUrl. by rewrite Ha.
  - intros Htx Hb Ha. unfold getReceiptCanonical. rewrite Htx, Hb.
    cbn [negb throw_if mbind result_bind]. by rewrite Ha.
Qed.

End More.

Lemma fetches_short :
  @fetches short_platform sample_tx (Fetched short_html 200 sample_url).
Proof.
  split; [by vm_compute|]. exists sample_url. repeat split; by vm_compute.
Defined.

(** X3, witness: the page of 67 characters. *)
Lemma short_page_rejected_witness :
  (length short_html < 200)%nat
  ∧ @getReceiptCanonical short_platform sample_tx = Throw (Error EMPTY_HTML None).
Proof.
  assert (H1 : (length short_html < 200)%nat) by (apply Nat.ltb_lt; by vm_compute).
  split; [exact H1|].
  exact (@short_page_rejected short_platform sample_tx
           (Fetched short_html 200 sample_url) fetches_short H1).
Defined.

(** X2, witness: a label repeated as its own value. *)
Lemma isJunkPair_same_key_witness :
  @isJunkPair sample_platform (Some (js "Payer Name:")) (Some (js "payer  name")) = true.
Proof.
  apply (@isJunkPair_same_key sample_platform). by vm_compute.
Defined.

(** X5.  The end-to-end example of the specification: an invoice row, an
    account row and the amount text give an accepted record. *)
Example accepted_receipt :
  summary (@getReceiptCanonical accepted_platform sample_tx)
  = Some (Some (js "ABC12345XYZ"), Some (js "500.00"), Some (js "0911000000"),
          Some sample_url).
Proof. by vm_compute. Qed.

(** * Further properties *)

(** ** The text normaliser, the name parser and the table fields *)

Lemma squeeze_length b s : (length (squeeze b s) ≤ length s)%nat.
Proof.
  revert b. induction s as [|x tl IH]; intros b; simpl; [lia|].
  pose proof (IH true). pose proof (IH false).
  destruct (is_space x); [destruct b|]; simpl; lia.
Qed.

(** X6.  Whatever [cleanText] is given, its result is in normal form: the
    only blanks left are single U+0020 spaces, none of them at either end,
    and the result is never longer than the input. *)
Theorem cleanText_normal_form (input : option jsstring) :
  single_spaced false (cleanText input) = true
  ∧ match cleanText input with x :: _ => is_space x = false | [] => True end
  ∧ ends_in is_space (cleanText input) = false
  ∧ (length (cleanText input) ≤ length (String_or_empty input))%nat.
Proof.
  destruct (cleanText_shape input) as (H1 & H2 & H3).
  split; [done|]. split; [done|]. split; [done|].
  destruct input as [s|]; [|by rewrite cleanText_None].
  rewrite cleanText_eq. simpl.
  etransitivity; [apply trim_length|].
  etransitivity; [apply strip_trailing_length|].
  etransitivity; [apply squeeze_length|].
  by rewrite length_map.
Qed.

Lemma join_split_on sep t : join [sep] (split_on sep t) = t.
Proof.
  induction t as [|c tl IH]; [done|]. simpl.
  destruct (c =? sep) eqn:Hc.
  - apply N.eqb_eq in Hc as ->.
    destruct (split_on sep tl) as [|w ws] eqn:Hs; simpl in *; [by subst|].
    by rewrite IH.
  - destruct (split_on sep tl) as [|w ws] eqn:Hs; simpl in *; [by subst|].
    destruct ws; by rewrite <- IH.
Qed.

Lemma ends_in_tail p x y tl : ends_in p (x :: y :: tl) = ends_in p (y :: tl).
Proof. done. Qed.

Lemma split_on_pieces t : ∀ b,
  single_spaced b t = true → ends_in is_space t = false →
  ∃ w ws, split_on 32 t = w :: ws ∧ forallb nonempty ws = true
          ∧ (w = [] → match t with x :: _ => is_space x = true | [] => True end).
Proof.
  induction t as [|x tl IH]; intros b Hs He; [by exists [], []|].
  simpl in Hs. simpl. destruct (is_space x) eqn:Hx.
  - apply andb_true_iff in Hs as [Hs1 Hs]. apply andb_true_iff in Hs1 as [Hs1 _].
    rewrite Hs1. destruct tl as [|y tl']; [unfold ends_in in He; simpl in He; congruence|].
    rewrite ends_in_tail in He.
    destruct (IH true Hs He) as (w & ws & -> & Hws & Hw).
    exists [], (w :: ws). split; [done|]. split; [|done]. simpl. rewrite Hws.
    destruct w; [|done]. specialize (Hw eq_refl). simpl in Hw, Hs.
    rewrite Hw in Hs. simpl in Hs. by rewrite andb_false_r in Hs.
  - assert ((x =? 32) = false) as ->.
    { apply N.eqb_neq. intros ->. by vm_compute in Hx. }
    destruct tl as [|y tl'].
    + by exists [x], [].
    + rewrite ends_in_tail in He.
      destruct (IH false Hs He) as (w & ws & -> & Hws & Hw).
      by exists (x :: w), ws.
Qed.

Lemma cleaned_parts input :
  cleanText input ≠ [] →
  List.filter nonempty (split_on 32 (cleanText input)) = split_on 32 (cleanText input).
Proof.
  intros Hne. destruct (cleanText_shape input) as (H1 & H2 & H3).
  destruct (split_on_pieces _ _ H1 H3) as (w & ws & -> & Hws & Hw).
  assert (nonempty w = true) as Hwne.
  { destruct w; [|done]. specialize (Hw eq_refl).
    destruct (cleanText input); [done|congruence]. }
  simpl. rewrite Hwne. f_equal.
  clear -Hws. induction ws as [|a ws IH]; [done|]. simpl in *.
  apply andb_true_iff in Hws as [-> Hws]. by rewrite IH.
Qed.

Lemma join_cons sep x y l : join sep (x :: y :: l) = x ++ sep ++ join sep (y :: l).
Proof. done. Qed.

(** X7.  For every name whose cleaned text is not empty,
    [parseEthiopianName] yields the cleaned text as [full], and the parts
    it yields, joined by single spaces, give that text back. *)
Theorem parseEthiopianName_full (fullName : option jsstring) :
  cleanText fullName ≠ [] →
  ∃ p, parseEthiopianName fullName = Some p
       ∧ full p = cleanText fullName
       ∧ join [32] (omap id [first p; father p; grandfather p; rest p])
         = cleanText fullName.
Proof.
  intros Hne. unfold parseEthiopianName. cbv zeta.
  destruct (cleanText fullName) as [|c0 t0] eqn:Hc; [done|]. simpl negb. cbv iota.
  rewrite <- Hc in *. rewrite (cleaned_parts fullName Hne).
  pose proof (join_split_on 32 (cleanText fullName)) as Hj.
  pose proof (cleaned_parts fullName Hne) as Hf.
  assert (Hall : Forall (λ w, nonempty w = true) (split_on 32 (cleanText fullName))).
  { rewrite <- Hf. apply List.Forall_forall. intros w Hw.
    by apply List.filter_In in Hw as [_ Hw]. }
  destruct (split_on 32 (cleanText fullName)) as [|a [|b [|c [|d r]]]] eqn:Hs.
  - simpl in Hj. congruence.
  - eexists. split; [done|]. inversion Hall as [|? ? Ha _]; subst.
    destruct a; [done|]. simpl. split; done.
  - eexists. split; [done|]. inversion Hall as [|? ? Ha Hr]; subst.
    inversion Hr as [|? ? Hb _]; subst.
    destruct a; [done|]. destruct b; [done|]. simpl. split; done.
  - eexists. split; [done|]. inversion Hall as [|? ? Ha Hr]; subst.
    inversion Hr as [|? ? Hb Hr']; subst. inversion Hr' as [|? ? Hc' _]; subst.
    destruct a; [done|]. destruct b; [done|]. destruct c; [done|].
    simpl. split; done.
  - eexists. split; [done|]. inversion Hall as [|? ? Ha Hr]; subst.
    inversion Hr as [|? ? Hb Hr']; subst. inversion Hr' as [|? ? Hc' _]; subst.
    destruct a; [done|]. destruct b; [done|]. destruct c; [done|].
    split; [done|].
    cbn [full first father grandfather rest nth_error lookup list_lookup js_or truthy
         drop length Nat.ltb Nat.leb omap list_omap id].
    rewrite <- Hj. by rewrite !join_cons.
Qed.

(** X7, witness: a name of five tokens with blanks to spare. *)
Lemma parseEthiopianName_full_witness :
  ∃ p, parseEthiopianName (Some (js " Abebe  Kebede Tesfaye Gebre  Mariam "))
       = Some p
       ∧ full p = js "Abebe Kebede Tesfaye Gebre Mariam"
       ∧ rest p = Some (js "Gebre Mariam").
Proof.
  destruct (parseEthiopianName_full (Some (js " Abebe  Kebede Tesfaye Gebre  Mariam ")))
    as (p & Hp & Hfull & _); [by vm_compute|].
  exists p. split; [exact Hp|]. split; [rewrite Hfull; by vm_compute|].
  vm_compute in Hp. injection Hp as <-. by vm_compute.
Defined.

Section Cleaning.
Context `{Platform}.

Lemma cleanRawPairs_entry (rawPairs : gmap jsstring jsstring) (k v : jsstring) :
  cleanRawPairs rawPairs !! k = Some v
  ↔ rawPairs !! k = Some v ∧ isJunkPair (Some k) (Some v) = false
    ∧ k ≠ js "__proto__".
Proof.
  unfold cleanRawPairs. revert k v.
  apply (map_fold_weak_ind
    (λ (r m : gmap jsstring jsstring), ∀ k v,
       r !! k = Some v
       ↔ m !! k = Some v ∧ isJunkPair (Some k) (Some v) = false
         ∧ k ≠ js "__proto__")).
  - intros k v. rewrite lookup_empty. split; [done|]. by intros [? _].
  - intros i x m r Hi IH k v.
    destruct (decide (k = i)) as [->|Hk].
    + rewrite lookup_insert_eq.
      assert (r !! i = None) as Hr.
      { destruct (r !! i) as [w|] eqn:Hw; [|done].
        apply IH in Hw as [Hw _]. congruence. }
      destruct (isJunkPair (Some i) (Some x)) eqn:Hj.
      * rewrite Hr. split; [done|]. intros ([= ->] & Hv & _). congruence.
      * unfold obj_set. case_bool_decide as Hp.
        -- rewrite Hr. split; [done|]. by intros (_ & _ & ?).
        -- rewrite lookup_insert_eq. split.
           ++ intros [= ->]. done.
           ++ by intros ([= ->] & _).
    + rewrite lookup_insert_ne by done.
      destruct (isJunkPair (Some i) (Some x)); [apply IH|].
      unfold obj_set. case_bool_decide; [apply IH|].
      rewrite lookup_insert_ne by done. apply IH.
Qed.

(** X8.  [cleanRawPairs] keeps exactly the pairs of its argument that
    [isJunkPair] accepts (a pair stored under [__proto__] apart, which the
    assignment drops), each under its own label and with its value
    unchanged; cleaning a cleaned object changes nothing. *)
Theorem cleanRawPairs_keeps_clean_pairs (rawPairs : gmap jsstring jsstring) :
  (∀ k v, cleanRawPairs rawPairs !! k = Some v
          ↔ rawPairs !! k = Some v ∧ isJunkPair (Some k) (Some v) = false
            ∧ k ≠ js "__proto__")
  ∧ cleanRawPairs rawPairs ⊆ rawPairs
  ∧ cleanRawPairs (cleanRawPairs rawPairs) = cleanRawPairs rawPairs.
Proof.
  split; [apply cleanRawPairs_entry|]. split.
  - apply map_subseteq_spec. intros k v Hk. by apply cleanRawPairs_entry in Hk as [? _].
  - apply map_eq. intros k. apply option_eq. intros v.
    rewrite (cleanRawPairs_entry (cleanRawPairs rawPairs)), cleanRawPairs_entry. tauto.
Qed.

Lemma isJunkPair_value k v : isJunkPair k (Some v) = false → nonempty v = true.
Proof.
  unfold isJunkPair. destruct v; [|done]. simpl. by rewrite orb_true_r.
Qed.

Lemma cleanRawPairs_values_ok rawPairs : values_ok (cleanRawPairs rawPairs).
Proof.
  intros k v Hk. apply cleanRawPairs_entry in Hk as (_ & Hj & _).
  by eapply isJunkPair_value.
Qed.

Lemma first_value_In k v pairs : first_value k pairs = Some v → In (k, v) pairs.
Proof.
  unfold first_value. destruct (List.find _ pairs) as [[k' v']|] eqn:Hf; [|done].
  intros [= <-]. apply List.find_some in Hf as [Hin Hk].
  apply bool_decide_eq_true in Hk. simpl in Hk. by subst.
Qed.

Lemma consecutive_pairs_In arr k v :
  In (k, v) (consecutive_pairs arr) → In k arr ∧ In v arr.
Proof.
  induction arr as [| |x y l IH] using pairs_ind; simpl; [done..|].
  intros [[= -> ->]|Hin]; [tauto|]. destruct (IH Hin). tauto.
Qed.

Lemma cellTextNoLinks_kept cell :
  nonempty (cellTextNoLinks cell) = true →
  isPdfJunkValue (Some (cellTextNoLinks cell)) = false.
Proof.
  unfold cellTextNoLinks. cbv zeta.
  destruct (isPdfJunkValue (Some (cleanText _))) eqn:Hj; [done|]. by rewrite Hj.
Qed.

Lemma document_pairs_In html k v :
  In (k, v) (document_pairs html) →
  nonempty k = true ∧ nonempty v = true ∧ isPdfJunkValue (Some v) = false.
Proof.
  unfold document_pairs. intros Hin. apply List.in_flat_map in Hin as (row & _ & Hin).
  unfold row_pairs in Hin. cbv zeta in Hin.
  destruct (length (cheerio_find row (js "th, td")) <? 2)%nat; [done|].
  unfold survivors in Hin. apply List.filter_In in Hin as [Hin Hne].
  simpl in Hne. apply andb_true_iff in Hne as [Hk Hv].
  apply consecutive_pairs_In in Hin as [_ Hin].
  apply List.in_map_iff in Hin as (cell & <- & _).
  split; [done|]. split; [done|]. by apply cellTextNoLinks_kept.
Qed.

Lemma rawData_resolved html tx :
  rawData (extractCanonical html tx) = cleanRawPairs (extractReceiptRawPairs html).
Proof. done. Qed.

Lemma extractReceiptRawPairs_lookup html k :
  (inherited k = false →
   extractReceiptRawPairs html !! k = first_value k (document_pairs html))
  ∧ (inherited k = true → extractReceiptRawPairs html !! k = None).
Proof.
  unfold extractReceiptRawPairs, document_pairs. cbv zeta.
  assert (Hok : values_ok (∅ : gmap jsstring jsstring)) by (by intros ? ?).
  destruct (fold_rows_lookup
              (cheerio_find (cheerio_load html) (js "table tr")) ∅ k Hok) as [H1 H2].
  split.
  - intros Hk. rewrite (H1 Hk). by rewrite lookup_empty.
  - intros Hk. by apply H2.
Qed.

(** X9.  The [rawData] of a resolved record holds, under a label that is
    no property name of [Object.prototype], the value of the first pair of
    the document with that label, unless label and value are equal once
    normalised, in which case it holds nothing under that label: on the
    cell texts of a page the other tests of [isJunkPair] never fire.
    Under a property name of [Object.prototype] it holds nothing. *)
Theorem rawData_entries (html tx k : jsstring) :
  (inherited k = false →
   rawData (extractCanonical html tx) !! k
   = match first_value k (document_pairs html) with
     | Some v =>
       if bool_decide (normalizeKey (Some k) = normalizeKey (Some v)) then None
       else Some v
     | None => None
     end)
  ∧ (inherited k = true → rawData (extractCanonical html tx) !! k = None).
Proof.
  rewrite rawData_resolved.
  destruct (extractReceiptRawPairs_lookup html k) as [H1 H2]. split.
  - intros Hk. specialize (H1 Hk). apply option_eq. intros v.
    rewrite cleanRawPairs_entry, H1.
    destruct (first_value k (document_pairs html)) as [w|] eqn:Hw.
    + apply first_value_In, document_pairs_In in Hw as (Hkne & Hwne & Hpdf).
      assert (isJunkPair (Some k) (Some w)
              = bool_decide (normalizeKey (Some k) = normalizeKey (Some w))) as Hj.
      { unfold isJunkPair. destruct k; [done|]. destruct w; [done|].
        simpl truthy. simpl negb. simpl orb. cbv iota. rewrite Hpdf.
        by case_bool_decide. }
      split.
      * intros ([= ->] & Hv & _). rewrite <- Hj, Hv. done.
      * rewrite <- Hj. destruct (isJunkPair (Some k) (Some w)) eqn:Hjw; [done|].
        intros [= ->]. split; [done|]. split; [done|]. by apply not_inherited_proto.
    + split; [by intros [? _]|done].
  - intros Hk. specialize (H2 Hk).
    destruct (cleanRawPairs _ !! k) as [v|] eqn:Hv; [|done].
    apply cleanRawPairs_entry in Hv as [Hv _]. congruence.
Qed.

Lemma pickExact_two raw k1 k2 :
  values_ok raw → inherited k1 = false → inherited k2 = false →
  own_string (pickExact raw [k1; k2])
  = match raw !! k1 with Some v => Some v | None => raw !! k2 end.
Proof.
  intros Hok H1 H2. unfold pickExact, obj_get. rewrite H1, H2.
  destruct (raw !! k1) as [v1|] eqn:E1.
  - simpl. by rewrite (Hok _ _ E1).
  - simpl. destruct (raw !! k2) as [v2|] eqn:E2; [|done].
    simpl. by rewrite (Hok _ _ E2).
Qed.

Lemma pickExact_three raw k1 k2 k3 :
  values_ok raw → inherited k1 = false → inherited k2 = false →
  inherited k3 = false →
  own_string (pickExact raw [k1; k2; k3])
  = match raw !! k1 with
    | Some v => Some v
    | None => match raw !! k2 with Some v => Some v | None => raw !! k3 end
    end.
Proof.
  intros Hok H1 H2 H3. unfold pickExact, obj_get. rewrite H1, H2, H3.
  destruct (raw !! k1) as [v1|] eqn:E1.
  - simpl. by rewrite (Hok _ _ E1).
  - simpl. destruct (raw !! k2) as [v2|] eqn:E2.
    + simpl. by rewrite (Hok _ _ E2).
    + simpl. destruct (raw !! k3) as [v3|] eqn:E3; [|done].
      simpl. by rewrite (Hok _ _ E3).
Qed.

Lemma cleaned_name (o : option jsstring) :
  match o with Some v => nonempty v = true | None => True end →
  (if truthy o then Some (cleanText o) else None) = (λ v, cleanText (Some v)) <$> o.
Proof. destruct o as [[|]|]; done. Qed.

(** X10.  Each field that [extractCanonical] reads from the table is the
    entry of [rawData] under the first of its labels that [rawData] has:
    the bilingual label before the English one.  The two names are the
    cleaned text of that entry; the three other fields are the entry as it
    is. *)
Theorem table_fields_by_label (html tx : jsstring) :
  let c := extractCanonical html tx in
  let entry k1 k2 :=
    match rawData c !! js k1 with Some v => Some v | None => rawData c !! js k2 end in
  payerTelebirrNo c = entry "የከፋይ ቴሌብር ቁ./Payer telebirr no." "Payer telebirr no."
  ∧ creditedPartyAccountNo c
    = entry "የገንዘብ ተቀባይ ቴሌብር ቁ./Credited party account no" "Credited party account no"
  ∧ transactionStatus c
    = entry "የክፍያው ሁኔታ/transaction status" "Transaction status"
  ∧ payerName c
    = (λ v, cleanText (Some v)) <$> entry "የከፋይ ስም/Payer Name" "Payer Name"
  ∧ creditedPartyName c
    = (λ v, cleanText (Some v))
      <$> match rawData c !! js "የገንዘብ ተቀባይ ስም/Credited Party name" with
          | Some v => Some v
          | None => entry "የገንዘብ ተቀባይ ስም/Credited party name" "Credited Party name"
          end.
Proof.
  cbv zeta. rewrite rawData_resolved.
  pose proof (cleanRawPairs_values_ok (extractReceiptRawPairs html)) as Hok.
  set (raw := cleanRawPairs (extractReceiptRawPairs html)) in *.
  assert (Hval : ∀ k1 k2, match match raw !! k1 with Some v => Some v | None => raw !! k2 end
                          with Some v => nonempty v = true | None => True end).
  { intros k1 k2. destruct (raw !! k1) eqn:E1; [by eapply Hok|].
    destruct (raw !! k2) eqn:E2; [by eapply Hok|done]. }
  repeat split.
  - change (payerTelebirrNo (extractCanonical html tx))
      with (own_string (pickExact raw [js "የከፋይ ቴሌብር ቁ./Payer telebirr no."; js "Payer telebirr no."])).
    by apply pickExact_two.
  - change (creditedPartyAccountNo (extractCanonical html tx))
      with (own_string (pickExact raw [js "የገንዘብ ተቀባይ ቴሌብር ቁ./Credited party account no"; js "Credited party account no"])).
    by apply pickExact_two.
  - change (transactionStatus (extractCanonical html tx))
      with (own_string (pickExact raw [js "የክፍያው ሁኔታ/transaction status"; js "Transaction status"])).
    by apply pickExact_two.
  - change (payerName (extractCanonical html tx))
      with (let s := own_string (pickExact raw [js "የከፋይ ስም/Payer Name"; js "Payer Name"]) in
            if truthy s then Some (cleanText s) else None).
    cbv zeta. rewrite pickExact_two by done. apply cleaned_name, Hval.
  - change (creditedPartyName (extractCanonical html tx))
      with (let s := own_string (pickExact raw
              [js "የገንዘብ ተቀባይ ስም/Credited Party name";
               js "የገንዘብ ተቀባይ ስም/Credited party name"; js "Credited Party name"]) in
            if truthy s then Some (cleanText s) else None).
    cbv zeta. rewrite pickExact_three by done. apply cleaned_name.
    destruct (raw !! js "የገንዘብ ተቀባይ ስም/Credited Party name") eqn:E1; [by eapply Hok|].
    apply Hval.
Qed.

End Cleaning.

(** ** The payment date *)

Lemma squeeze_app_plain d r :
  forallb (λ c, negb (is_space c)) d = true →
  squeeze false (d ++ r) = d ++ squeeze false r.
Proof.
  induction d as [|x d IH]; [done|]. simpl. intros [Hx Hd]%andb_true_iff.
  apply negb_true_iff in Hx. rewrite Hx. by rewrite IH.
Qed.

(** Two texts without blanks, some blanks apart, are cleaned to the two
    texts one space apart. *)
Lemma cleanText_two_words d ws t :
  forallb (λ c, negb (is_space c)) d = true → d ≠ [] →
  forallb is_space ws = true → ws ≠ [] →
  forallb (λ c, negb (is_space c)) t = true → t ≠ [] →
  ends_in is_colon t = false →
  cleanText (Some (d ++ ws ++ t)) = d ++ 32 :: t.
Proof.
  intros Hd Hdne Hws Hwsne Ht Htne Hcolon.
  rewrite cleanText_eq, !map_app, (nbsp_no_space d), (nbsp_no_space t) by done.
  rewrite squeeze_app_plain by done.
  destruct ws as [|w ws]; [done|]. simpl in Hws. apply andb_true_iff in Hws as [Hw Hws].
  cbn [List.map app squeeze]. rewrite (nbsp_to_space_blank w Hw).
  rewrite squeeze_true_blanks, (squeeze_no_space true t) by
    (done || (rewrite forallb_forall in *; intros x (y & <- & Hy)%in_map_iff;
              by apply nbsp_to_space_blank, Hws)).
  assert (Hlast : ends_in is_space (d ++ 32 :: t) = false).
  { rewrite (ends_in_app _ d (32 :: t)) by done.
    change (32 :: t) with ([32] ++ t). rewrite ends_in_app by done.
    by apply ends_in_no_space. }
  assert (strip_trailing is_colon (d ++ 32 :: t) = d ++ 32 :: t) as ->.
  { apply strip_trailing_fix. rewrite (ends_in_app _ d (32 :: t)) by done.
    change (32 :: t) with ([32] ++ t). by rewrite ends_in_app. }
  apply trim_fix; [|done].
  destruct d as [|x d]; [done|]. simpl in Hd. apply andb_true_iff in Hd as [Hx _].
  by apply negb_true_iff in Hx.
Qed.

Lemma is_digit_not_space c : is_digit c = true → negb (is_space c) = true.
Proof. unfold is_digit, is_space. intros Hc. apply negb_true_iff. bool_lia. Qed.

Lemma is_dash_or_slash_not_space c : is_dash_or_slash c = true → negb (is_space c) = true.
Proof. unfold is_dash_or_slash, is_space. intros Hc. apply negb_true_iff. bool_lia. Qed.

Lemma is_digit_not_colon c : is_digit c = true → is_colon c = false.
Proof. unfold is_digit, is_colon. intros Hc. bool_lia. Qed.

Lemma run_of_two (p : N → bool) (run : jsstring) :
  forallb p run = true → (2 ≤ length run)%nat → (length run ≤ 2)%nat →
  ∃ a b, run = [a; b] ∧ p a = true ∧ p b = true.
Proof.
  destruct run as [|a [|b [|c r]]]; simpl; try lia.
  intros [Ha [Hb _]%andb_true_iff]%andb_true_iff _ _. by exists a, b.
Qed.

Lemma run_of_four (p : N → bool) (run : jsstring) :
  forallb p run = true → (4 ≤ length run)%nat → (length run ≤ 4)%nat →
  ∃ a b c d, run = [a; b; c; d] ∧ p a = true ∧ p b = true ∧ p c = true ∧ p d = true.
Proof.
  destruct run as [|a [|b [|c [|d [|e r]]]]]; simpl; try lia.
  intros [Ha [Hb [Hc [Hd _]%andb_true_iff]%andb_true_iff]%andb_true_iff]%andb_true_iff _ _.
  by exists a, b, c, d.
Qed.

(** What [re_payment_date] captures: the date, some blanks and the
    time. *)
Lemma re_payment_date_capture st0 st :
  In st (ends re_payment_date st0) →
  ∃ d ws t,
    m_cap st = Some (d ++ ws ++ t)
    ∧ forallb is_space ws = true ∧ ws ≠ []
    ∧ is_payment_date (d ++ 32 :: t) = true
    ∧ length d = 10%nat ∧ length t = 8%nat.
Proof.
  unfold re_payment_date.
  intros (m1 & _ & (m2 & _ & (m3 & _ & (m4 & H4 & H5)%in_ends_cat)%in_ends_cat)%in_ends_cat)%in_ends_cat.
  apply in_ends_wordb in H5 as [-> _].
  apply in_ends_cap in H4 as (e & He & ->). cbn [m_cap].
  apply in_ends_cat in He as (a1 & (r1 & E1 & P1 & L1 & U1 & _)%in_ends_rep & He).
  apply in_ends_cat in He as (a2 & (x1 & E2 & P2 & _)%in_ends_chr & He).
  apply in_ends_cat in He as (a3 & (r2 & E3 & P3 & L3 & U3 & _)%in_ends_rep & He).
  apply in_ends_cat in He as (a4 & (x2 & E4 & P4 & _)%in_ends_chr & He).
  apply in_ends_cat in He as (a5 & (r3 & E5 & P5 & L5 & U5 & _)%in_ends_rep & He).
  apply in_ends_cat in He as (a6 & (ws & E6 & P6 & L6 & _)%in_ends_rep & He).
  apply in_ends_cat in He as (a7 & (r4 & E7 & P7 & L7 & U7 & _)%in_ends_rep & He).
  apply in_ends_cat in He as (a8 & (c1 & E8 & P8 & _)%in_ends_chr & He).
  apply in_ends_cat in He as (a9 & (r5 & E9 & P9 & L9 & U9 & _)%in_ends_rep & He).
  apply in_ends_cat in He as (a10 & (c2 & E10 & P10 & _)%in_ends_chr & He).
  apply in_ends_rep in He as (r6 & E11 & P11 & L11 & U11 & _).
  apply N.eqb_eq in P8 as <-. apply N.eqb_eq in P10 as <-.
  destruct (run_of_two _ _ P1 L1 U1) as (d1 & d2 & -> & ? & ?).
  destruct (run_of_two _ _ P3 L3 U3) as (m1' & m2' & -> & ? & ?).
  destruct (run_of_four _ _ P5 L5 U5) as (y1 & y2 & y3 & y4 & -> & ? & ? & ? & ?).
  destruct (run_of_two _ _ P7 L7 U7) as (h1 & h2 & -> & ? & ?).
  destruct (run_of_two _ _ P9 L9 U9) as (n1 & n2 & -> & ? & ?).
  destruct (run_of_two _ _ P11 L11 U11) as (e1 & e2 & -> & ? & ?).
  exists [d1; d2; x1; m1'; m2'; x2; y1; y2; y3; y4], ws, [h1; h2; 58; n1; n2; 58; e1; e2].
  split.
  - f_equal. rewrite E1, E2, E3, E4, E5, E6, E7, E8, E9, E10, E11.
    change ([d1; d2] ++ x1 :: [m1'; m2'] ++ x2 :: [y1; y2; y3; y4] ++ ws
            ++ [h1; h2] ++ 58 :: [n1; n2] ++ 58 :: [e1; e2] ++ m_rest e)
      with ([d1; d2; x1; m1'; m2'; x2; y1; y2; y3; y4]
            ++ (ws ++ [h1; h2; 58; n1; n2; 58; e1; e2] ++ m_rest e)).
    rewrite (app_assoc ws), app_assoc. apply take_app_length_sub.
  - split; [done|]. split; [destruct ws; [simpl in L6; lia|done]|].
    split; [|done]. cbn [app is_payment_date forallb].
    repeat match goal with Hx : _ ?c = true |- _ => rewrite Hx; clear Hx end.
    reflexivity.
Qed.

Lemma payment_date_plain d t :
  is_payment_date (d ++ 32 :: t) = true → length d = 10%nat →
  forallb (λ c, negb (is_space c)) d = true
  ∧ forallb (λ c, negb (is_space c)) t = true ∧ ends_in is_colon t = false.
Proof.
  intros Hp Hd.
  destruct d as [|d1 [|d2 [|s1 [|m1 [|m2 [|s2 [|y1 [|y2 [|y3 [|y4 [|? ?]]]]]]]]]]];
    try done.
  destruct t as [|h1 [|h2 [|c1 [|n1 [|n2 [|c2 [|e1 [|e2 [|? ?]]]]]]]]]; try done.
  cbn [app is_payment_date forallb] in Hp.
  rewrite !andb_true_iff in Hp. destruct_and!.
  repeat match goal with
  | Hx : (_ =? _) = true |- _ => apply N.eqb_eq in Hx; subst
  end.
  split; [|split].
  - cbn [forallb].
    repeat (apply andb_true_intro; split);
      first [by apply is_digit_not_space | by apply is_dash_or_slash_not_space | done].
  - cbn [forallb].
    repeat (apply andb_true_intro; split);
      first [by apply is_digit_not_space | reflexivity].
  - unfold ends_in. cbn [last]. by apply is_digit_not_colon.
Qed.

Lemma extractByRegex_payment_date body v :
  extractByRegex (Some body) re_payment_date = Some v → is_payment_date v = true.
Proof.
  unfold extractByRegex. simpl String_or_empty.
  destruct (match_group1 re_payment_date body) as [g|] eqn:Hm; [|done].
  intros [= <-]. apply match_group1_some in Hm as (k & st & _ & Hin & ->).
  apply re_payment_date_capture in Hin as (d & ws & t & -> & Hws & Hne & Hp & Hd & Ht).
  destruct (payment_date_plain d t Hp Hd) as (Hd' & Ht' & Hc).
  rewrite cleanText_two_words; try done.
  - by destruct d.
  - by destruct t.
Qed.

Section Dates.
Context `{Platform}.

(** X11.  The payment date of a resolved record, when it has one, is 19
    characters long: two digits, [-] or [/], two digits, [-] or [/], four
    digits, one space, and [hh:mm:ss] in digits; however many blanks the
    page has between date and time, the record has one space. *)
Theorem paymentDate_format (html tx v : jsstring) :
  paymentDate (extractCanonical html tx) = Some v → is_payment_date v = true.
Proof.
  change (paymentDate (extractCanonical html tx))
    with (js_or (extractByRegex (Some (resolverBodyText html)) re_payment_date) None).
  unfold js_or.
  destruct (extractByRegex _ re_payment_date) as [w|] eqn:Hw; [|done].
  destruct (truthy (Some w)); [|done]. intros [= ->].
  by eapply extractByRegex_payment_date.
Qed.

End Dates.

(** X11, witness: a date with mixed separators, three blanks before the
    time. *)
Lemma paymentDate_format_witness :
  paymentDate (@extractCanonical dated_platform [] sample_tx)
  = Some (js "12-05/2024 10:11:12")
  ∧ is_payment_date (js "12-05/2024 10:11:12") = true.
Proof.
  split; [by vm_compute|].
  apply (@paymentDate_format dated_platform [] sample_tx). by vm_compute.
Defined.

(** ** The pipeline as a whole *)

(** Membership in a list that is written out. *)
Ltac in_list :=
  first [apply list_elem_of_here | apply list_elem_of_further; in_list].

Section Whole.
Context `{Platform}.

Lemma requireCriticalFields_ok c :
  requireCriticalFields c = Ok tt →
  truthy (invoiceNo c) = true ∧ truthy (settledAmount c) = true
  ∧ truthy (creditedPartyAccountNo c) = true.
Proof.
  unfold requireCriticalFields, throw_if.
  destruct (truthy (invoiceNo c)), (truthy (settledAmount c)),
    (truthy (creditedPartyAccountNo c)); done.
Qed.

(** What a successful run went through. *)
Lemma getReceiptCanonical_ok tx c :
  getReceiptCanonical tx = Ok c →
  ∃ page, fetches tx page ∧ (200 ≤ length (f_html page))%nat
    ∧ test re_not_found (pageBodyText (f_html page)) = false
    ∧ requireCriticalFields (extractCanonical (f_html page) tx) = Ok tt
    ∧ c = with_sourceUrl (extractCanonical (f_html page) tx) (f_url page).
Proof.
  unfold getReceiptCanonical.
  destruct (test re_tx tx) eqn:Htx; cbn [negb throw_if mbind result_bind]; [|done].
  destruct (buildReceiptUrlFromTx tx) as [url|e1] eqn:Hb; cbn [mbind result_bind];
    [|done].
  destruct (assertAllowedHost url) as [[]|e2] eqn:Ha; cbn [mbind result_bind]; [|done].
  destruct (fetchReceiptWithPuppeteer url fetchTimeoutMs) as [page|e3] eqn:Hf;
    cbn [mbind result_bind]; [|done].
  destruct (negb (nonempty (f_html page)) || (length (f_html page) <? 200)%nat) eqn:Hlen;
    cbn [throw_if mbind result_bind]; [done|].
  destruct (test re_not_found (pageBodyText (f_html page))) eqn:Hnf;
    cbn [throw_if mbind result_bind]; [done|].
  destruct (requireCriticalFields (extractCanonical (f_html page) tx)) as [[]|e4] eqn:Hg;
    cbn [mbind result_bind]; [|done].
  intros [= <-]. exists page. split; [|split; [|done]].
  - split; [done|]. by exists url.
  - apply orb_false_iff in Hlen as [_ Hlen]. apply Nat.ltb_ge in Hlen. lia.
Qed.

(** X12.  A record that [getReceiptCanonical] returns has an invoice
    number of six or more ASCII letters and digits, a settled amount that
    is a numeric text, a non-empty credited-party account number and the
    URL of the fetched page as [sourceUrl]; its payment date, if it has
    one, has the format [DD-MM-YYYY hh:mm:ss]; and the identifier it was
    asked for is ten ASCII letters and digits. *)
Theorem accepted_record_shape (tx : jsstring) (c : CanonicalReceipt) :
  getReceiptCanonical tx = Ok c →
  (length tx = 10%nat ∧ forallb is_alnum tx = true)
  ∧ (∃ v, invoiceNo c = Some v ∧ forallb is_alnum v = true ∧ (6 ≤ length v)%nat)
  ∧ (∃ a, settledAmount c = Some a ∧ is_amount a = true)
  ∧ truthy (creditedPartyAccountNo c) = true
  ∧ (∃ page, fetches tx page ∧ sourceUrl c = Some (f_url page))
  ∧ (∀ d, paymentDate c = Some d → is_payment_date d = true).
Proof.
  intros (page & Hf & Hlen & Hnf & Hg & ->)%getReceiptCanonical_ok.
  apply requireCriticalFields_ok in Hg as (Hi & Hs & Ha).
  set (html := f_html page) in *.
  change (invoiceNo (with_sourceUrl (extractCanonical html tx) (f_url page)))
    with (invoiceNo (extractCanonical html tx)).
  change (settledAmount (with_sourceUrl (extractCanonical html tx) (f_url page)))
    with (settledAmount (extractCanonical html tx)).
  change (creditedPartyAccountNo (with_sourceUrl (extractCanonical html tx) (f_url page)))
    with (creditedPartyAccountNo (extractCanonical html tx)).
  change (paymentDate (with_sourceUrl (extractCanonical html tx) (f_url page)))
    with (paymentDate (extractCanonical html tx)).
  change (sourceUrl (with_sourceUrl (extractCanonical html tx) (f_url page)))
    with (Some (f_url page)).
  pose proof Hf as [Htx _]. apply test_re_tx in Htx as [Htl Hta].
  split; [done|]. split; [|split; [|split; [done|split]]].
  - destruct (match_group1 re_invoice (resolverBodyText html)) as [g|] eqn:Hm.
    + destruct (invoiceNo_from_page html tx g Hm) as (v & _ & ? & ? & ?). by exists v.
    + exists tx. rewrite invoiceNo_resolved. unfold extractByRegex.
      simpl String_or_empty. rewrite Hm. split; [done|]. split; [done|lia].
  - rewrite settledAmount_resolved in Hs |- *. unfold js_or in *.
    destruct (extractByRegex (Some (resolverBodyText html)) re_settled_amount)
      as [a|] eqn:Ea; [|done].
    destruct (truthy (Some a)); [|done]. exists a. split; [done|].
    apply extractByRegex_settled in Ea as (k & (? & ? & ? & ? & ? & ? & ? & ? & Hk) & _).
    tauto.
  - by exists page.
  - intros d Hd.
    change (paymentDate (extractCanonical html tx))
      with (js_or (extractByRegex (Some (resolverBodyText html)) re_payment_date) None)
      in Hd.
    unfold js_or in Hd.
    destruct (extractByRegex _ re_payment_date) as [w|] eqn:Hw; [|done].
    destruct (truthy (Some w)); [|done]. injection Hd as ->.
    by eapply extractByRegex_payment_date.
Qed.

Lemma buildReceiptUrlFromTx_valid tx :
  test re_tx tx = true →
  buildReceiptUrlFromTx tx = Ok (replace_str (js "{tx}") tx RECEIPT_URL_TEMPLATE).
Proof.
  intros [_ Ha]%test_re_tx. unfold buildReceiptUrlFromTx.
  by rewrite encodeURIComponent_alnum.
Qed.

Lemma assertAllowedHost_errors url e :
  assertAllowedHost url = Throw e →
  (code e = INVALID_URL ∨ code e = INVALID_PROTOCOL ∨ code e = HOST_NOT_ALLOWED)
  ∧ (details e ≠ None → code e = HOST_NOT_ALLOWED).
Proof.
  unfold assertAllowedHost, throw_if. destruct (URL_new url) as [u|].
  2:{ intros [= <-]. simpl. tauto. }
  destruct (negb (bool_decide (protocol u ∈ [js "http:"; js "https:"])));
    cbn [mbind result_bind]; [intros [= <-]; simpl; tauto|].
  destruct (negb (bool_decide (hostname u ∈ ALLOWED_HOSTS))); [|done].
  intros [= <-]. simpl. tauto.
Qed.

Lemma fetchReceiptWithPuppeteer_errors url t e :
  fetchReceiptWithPuppeteer url t = Throw e →
  (code e ∈ getReceiptCanonical_codes ∨ ∃ c, c ≠ [] ∧ code e = Foreign c)
  ∧ (details e ≠ None → code e = PAGE_LOAD_FAILED).
Proof.
  unfold fetchReceiptWithPuppeteer, getReceiptCanonical_codes.
  destruct (browse url t) as [|name c|re|status html' url'].
  - intros [= <-]. simpl. split; [left; in_list|done].
  - case_bool_decide; [intros [= <-]; simpl; split; [left; in_list|done]|].
    destruct c as [[|x xs]|]; intros [= <-]; simpl.
    + split; [left; in_list|done].
    + split; [right; by exists (x :: xs)|done].
    + split; [left; in_list|done].
  - intros [= <-]. simpl. split; [left; in_list|done].
  - destruct (400 <=? status); [|done]. intros [= <-]. simpl.
    split; [left; in_list|done].
Qed.

Lemma getReceiptCanonical_errors tx e :
  getReceiptCanonical tx = Throw e →
  (code e ∈ getReceiptCanonical_codes ∨ ∃ c, c ≠ [] ∧ code e = Foreign c)
  ∧ (details e ≠ None →
     code e = HOST_NOT_ALLOWED ∨ code e = PAGE_LOAD_FAILED ∨ code e = PARSE_FAIL).
Proof.
  unfold getReceiptCanonical, getReceiptCanonical_codes.
  destruct (test re_tx tx) eqn:Htx; cbn [negb throw_if mbind result_bind].
  2:{ intros [= <-]. simpl. split; [left; in_list|done]. }
  rewrite buildReceiptUrlFromTx_valid by done. cbn [mbind result_bind].
  destruct (assertAllowedHost _) as [[]|e2] eqn:Ha; cbn [mbind result_bind].
  2:{ intros [= <-]. apply assertAllowedHost_errors in Ha as [Hc Hd].
      split; [left; destruct Hc as [->|[->| ->]]; in_list|]. intros ?%Hd. tauto. }
  destruct (fetchReceiptWithPuppeteer _ fetchTimeoutMs) as [page|e3] eqn:Hf;
    cbn [mbind result_bind].
  2:{ intros [= <-]. apply fetchReceiptWithPuppeteer_errors in Hf as [Hc Hd].
      split; [done|]. intros ?%Hd. tauto. }
  destruct (negb (nonempty (f_html page)) || (length (f_html page) <? 200)%nat);
    cbn [throw_if mbind result_bind].
  { intros [= <-]. simpl. split; [left; in_list|done]. }
  destruct (test re_not_found (pageBodyText (f_html page)));
    cbn [throw_if mbind result_bind].
  { intros [= <-]. simpl. split; [left; in_list|done]. }
  unfold requireCriticalFields, throw_if.
  destruct (negb _ || negb _ || negb _); cbn [mbind result_bind]; [|done].
  intros [= <-]. cbn [code details]. split; [left; in_list|tauto].
Qed.

Lemma getReceiptFromUrl_errors url e :
  getReceiptFromUrl url = Throw e →
  (code e ∈ TX_EXTRACT_FAILED :: getReceiptCanonical_codes
   ∨ ∃ c, c ≠ [] ∧ code e = Foreign c)
  ∧ (details e ≠ None →
     code e = HOST_NOT_ALLOWED ∨ code e = PAGE_LOAD_FAILED ∨ code e = PARSE_FAIL
     ∨ code e = TX_FORMAT).
Proof.
  unfold getReceiptFromUrl.
  destruct (assertAllowedHost url) as [[]|e2] eqn:Ha; cbn [mbind result_bind].
  2:{ intros [= <-]. apply assertAllowedHost_errors in Ha as [Hc Hd].
      split; [left; unfold getReceiptCanonical_codes;
              destruct Hc as [->|[->| ->]]; in_list|].
      intros ?%Hd. tauto. }
  destruct (truthy (extractTxFromUrl url)); cbn [negb throw_if mbind result_bind].
  2:{ intros [= <-]. simpl. split; [left; in_list|done]. }
  destruct (test re_tx (String_or_empty (extractTxFromUrl url)));
    cbn [negb throw_if mbind result_bind].
  2:{ intros [= <-]. cbn [code details].
      split; [left; unfold getReceiptCanonical_codes; in_list|tauto]. }
  intros [Hc Hd]%getReceiptCanonical_errors. split.
  - destruct Hc as [Hc|Hc]; [left|by right]. by apply list_elem_of_further.
  - intros ?%Hd. tauto.
Qed.

(** X13.  The errors of the two entry points.  [getReceiptCanonical]
    raises only the twelve codes of [getReceiptCanonical_codes], or passes
    on an error of the browser library that carries a code of its own;
    [getReceiptFromUrl] adds [TX_EXTRACT_FAILED].  Neither raises
    [UNKNOWN_ERROR] or an error without a code, and only
    [HOST_NOT_ALLOWED], [PAGE_LOAD_FAILED], [PARSE_FAIL] and the
    [TX_FORMAT] of [getReceiptFromUrl] come with details. *)
Theorem entry_point_errors (tx url : jsstring) (e : error) :
  (getReceiptCanonical tx = Throw e →
   (code e ∈ getReceiptCanonical_codes ∨ ∃ c, c ≠ [] ∧ code e = Foreign c)
   ∧ (details e ≠ None →
      code e = HOST_NOT_ALLOWED ∨ code e = PAGE_LOAD_FAILED ∨ code e = PARSE_FAIL))
  ∧ (getReceiptFromUrl url = Throw e →
     (code e ∈ TX_EXTRACT_FAILED :: getReceiptCanonical_codes
      ∨ ∃ c, c ≠ [] ∧ code e = Foreign c)
     ∧ (details e ≠ None →
        code e = HOST_NOT_ALLOWED ∨ code e = PAGE_LOAD_FAILED ∨ code e = PARSE_FAIL
        ∨ code e = TX_FORMAT))
  ∧ (getReceiptCanonical tx = Throw e ∨ getReceiptFromUrl url = Throw e →
     code e ≠ UNKNOWN_ERROR ∧ ∀ name, code e ≠ Uncaught name).
Proof.
  split; [apply getReceiptCanonical_errors|]. split; [apply getReceiptFromUrl_errors|].
  intros He.
  assert (Hc : code e ∈ TX_EXTRACT_FAILED :: getReceiptCanonical_codes
               ∨ ∃ c, c ≠ [] ∧ code e = Foreign c).
  { destruct He as [He|He].
    - apply getReceiptCanonical_errors in He as [[Hc|Hc] _]; [left|by right].
      by apply list_elem_of_further.
    - by apply getReceiptFromUrl_errors in He as [Hc _]. }
  destruct Hc as [Hc|(c & _ & ->)]; [|done].
  unfold getReceiptCanonical_codes in Hc.
  repeat (apply elem_of_cons in Hc as [->|Hc]; [done|]).
  by apply elem_of_nil in Hc.
Qed.

(** X14.  A URL on the allowed host whose path starts with the segments
    [receipt] and [tx] is handled by [getReceiptFromUrl] as the identifier
    [tx] is by [getReceiptCanonical], whatever else the URL holds (further
    segments, a query): the page that is fetched is the one of the URL
    built from [tx], not the URL supplied.  An identifier of the wrong
    format is refused with [TX_FORMAT] and the extracted text. *)
Theorem getReceiptFromUrl_receipt_path (url tx : jsstring) (u : URL)
    (more : list jsstring) :
  URL_new url = Some u →
  protocol u = js "http:" ∨ protocol u = js "https:" →
  hostname u = js "transactioninfo.ethiotelecom.et" →
  List.filter nonempty (split_on 47 (pathname u)) = js "receipt" :: tx :: more →
  tx ≠ [] ∧
  getReceiptFromUrl url
  = if test re_tx tx then getReceiptCanonical tx
    else Throw (Error TX_FORMAT
                  (Some (DetailText (js "Extracted code: " ++ [34] ++ tx ++ [34])))).
Proof.
  intros Hu Hp Hh Hparts.
  assert (Htx : nonempty tx = true).
  { assert (In tx (List.filter nonempty (split_on 47 (pathname u)))) as Hin
      by (rewrite Hparts; simpl; tauto).
    by apply List.filter_In in Hin as [_ ?]. }
  split; [by destruct tx|].
  assert (Ha : assertAllowedHost url = Ok tt).
  { unfold assertAllowedHost. rewrite Hu.
    rewrite (bool_decide_eq_true_2 (protocol u ∈ _)) by (destruct Hp as [-> | ->]; in_list).
    cbn [negb throw_if mbind result_bind].
    rewrite bool_decide_eq_true_2; [done|]. rewrite Hh. by apply elem_of_singleton. }
  assert (He : extractTxFromUrl url = Some tx).
  { unfold extractTxFromUrl. rewrite Hu. cbv zeta. rewrite Hparts.
    cbn [length Nat.leb lookup list_lookup].
    rewrite bool_decide_eq_true_2 by done. done. }
  unfold getReceiptFromUrl. rewrite Ha, He. cbn [mbind result_bind String_or_empty].
  destruct tx as [|x tx']; [done|]. cbn [truthy negb throw_if mbind result_bind].
  destruct (test re_tx (x :: tx')); done.
Qed.

Lemma split_on_plain sep s :
  forallb (λ c, negb (c =? sep)) s = true → split_on sep s = [s].
Proof.
  induction s as [|c s IH]; [done|]. simpl. intros [Hc Hs]%andb_true_iff.
  apply negb_true_iff in Hc. rewrite Hc, IH; done.
Qed.

Lemma is_alnum_not_slash c : is_alnum c = true → negb (c =? 47) = true.
Proof.
  unfold is_alnum, is_upper, is_lower, is_digit. intros Hc.
  apply negb_true_iff. bool_lia.
Qed.

(** X15.  With no template configured, the URL built for a valid
    identifier is the operator's receipt address followed by the
    identifier as it is, and [extractTxFromUrl] gets the identifier back
    from it, given a parser that reports the path [/receipt/tx] for that
    URL. *)
Theorem receipt_url_round_trip (tx : jsstring) :
  truthy (process_env (js "RECEIPT_URL_TEMPLATE")) = false →
  test re_tx tx = true →
  buildReceiptUrlFromTx tx
  = Ok (js "https://transactioninfo.ethiotelecom.et/receipt/" ++ tx)
  ∧ ∀ u, URL_new (js "https://transactioninfo.ethiotelecom.et/receipt/" ++ tx) = Some u →
         pathname u = js "/receipt/" ++ tx →
         extractTxFromUrl (js "https://transactioninfo.ethiotelecom.et/receipt/" ++ tx)
         = Some tx.
Proof.
  intros Henv Htx. split.
  - rewrite buildReceiptUrlFromTx_valid by done. f_equal.
    unfold RECEIPT_URL_TEMPLATE, js_or. rewrite Henv. cbn [String_or_empty].
    transitivity (js "https://transactioninfo.ethiotelecom.et/receipt/" ++ tx ++ []);
      [vm_compute; reflexivity|by rewrite app_nil_r].
  - intros u Hu Hpath. unfold extractTxFromUrl. rewrite Hu, Hpath. cbv zeta.
    apply test_re_tx in Htx as [Hl Ha].
    assert (split_on 47 (js "/receipt/" ++ tx) = [[]; js "receipt"; tx]) as ->.
    { change (js "/receipt/" ++ tx)
        with (47 :: 114 :: 101 :: 99 :: 101 :: 105 :: 112 :: 116 :: 47 :: tx).
      cbn [split_on N.eqb Pos.eqb]. rewrite split_on_plain; [done|].
      eapply forallb_impl, Ha. apply is_alnum_not_slash. }
    destruct tx as [|x tx']; [done|]. done.
Qed.

End Whole.

(** X16.  The browser is asked for no URL but the one built from a valid
    identifier that passed the URL gate, with the configured timeout: two
    browsers that agree on those requests give the same result on both
    entry points, whatever they would serve for any other URL, the URL
    handed to [getReceiptFromUrl] included. *)
Theorem browser_asked_for_receipt_url_only (P : Platform)
    (b1 b2 : jsstring → js_number → browser_outcome) (tx url : jsstring) :
  (∀ tx' u, test re_tx tx' = true → @buildReceiptUrlFromTx P tx' = Ok u →
            @assertAllowedHost P u = Ok tt →
            b1 u (@fetchTimeoutMs P) = b2 u (@fetchTimeoutMs P)) →
  @getReceiptCanonical (with_browse P b1) tx = @getReceiptCanonical (with_browse P b2) tx
  ∧ @getReceiptFromUrl (with_browse P b1) url = @getReceiptFromUrl (with_browse P b2) url.
Proof.
  intros Hb.
  assert (Hc : ∀ t, @getReceiptCanonical (with_browse P b1) t
                    = @getReceiptCanonical (with_browse P b2) t).
  { intros t. unfold getReceiptCanonical.
    destruct (test re_tx t) eqn:Ht; cbn [negb throw_if mbind result_bind]; [|done].
    change (@buildReceiptUrlFromTx (with_browse P b1) t) with (@buildReceiptUrlFromTx P t).
    change (@buildReceiptUrlFromTx (with_browse P b2) t) with (@buildReceiptUrlFromTx P t).
    destruct (@buildReceiptUrlFromTx P t) as [u|] eqn:Hbu; cbn [mbind result_bind]; [|done].
    change (@assertAllowedHost (with_browse P b1) u) with (@assertAllowedHost P u).
    change (@assertAllowedHost (with_browse P b2) u) with (@assertAllowedHost P u).
    destruct (@assertAllowedHost P u) as [[]|] eqn:Ha; cbn [mbind result_bind]; [|done].
    unfold fetchReceiptWithPuppeteer. cbn [browse with_browse].
    change (@fetchTimeoutMs (with_browse P b1)) with (@fetchTimeoutMs P).
    change (@fetchTimeoutMs (with_browse P b2)) with (@fetchTimeoutMs P).
    rewrite (Hb t u Ht Hbu Ha). done. }
  split; [apply Hc|].
  unfold getReceiptFromUrl.
  change (@assertAllowedHost (with_browse P b1) url) with (@assertAllowedHost P url).
  change (@assertAllowedHost (with_browse P b2) url) with (@assertAllowedHost P url).
  change (@extractTxFromUrl (with_browse P b1) url) with (@extractTxFromUrl P url).
  change (@extractTxFromUrl (with_browse P b2) url) with (@extractTxFromUrl P url).
  destruct (@assertAllowedHost P url) as [[]|]; cbn [mbind result_bind]; [|done].
  destruct (truthy (@extractTxFromUrl P url));
    cbn [negb throw_if mbind result_bind]; [|done].
  destruct (test re_tx (String_or_empty (@extractTxFromUrl P url)));
    cbn [negb throw_if mbind result_bind]; [|done].
  apply Hc.
Qed.

(** X12, witness: the accepted page. *)
Lemma accepted_record_shape_witness :
  ∃ c, @getReceiptCanonical accepted_platform sample_tx = Ok c
       ∧ (∃ v, invoiceNo c = Some v ∧ forallb is_alnum v = true ∧ (6 ≤ length v)%nat)
       ∧ (∃ a, settledAmount c = Some a ∧ is_amount a = true).
Proof.
  destruct (@getReceiptCanonical accepted_platform sample_tx) as [c|e] eqn:E;
    [|by vm_compute in E].
  exists c. split; [done|].
  destruct (@accepted_record_shape accepted_platform sample_tx c E)
    as (_ & Hi & Hs & _).
  by split.
Defined.

(** X14, witness: a receipt URL with a further segment and a query. *)
Lemma getReceiptFromUrl_receipt_path_witness :
  @getReceiptFromUrl accepted_platform long_receipt_url
  = @getReceiptCanonical accepted_platform sample_tx.
Proof.
  destruct (simple_URL long_receipt_url) as [u|] eqn:Hu; [|by vm_compute in Hu].
  pose proof (@getReceiptFromUrl_receipt_path accepted_platform long_receipt_url
                sample_tx u [js "print"] Hu) as Hr.
  vm_compute in Hu. injection Hu as <-.
  destruct Hr as [_ Hr].
  - right. by vm_compute.
  - by vm_compute.
  - by vm_compute.
  - rewrite Hr. by vm_compute.
Defined.

(** X15, witness: the sample identifier. *)
Lemma receipt_url_round_trip_witness :
  @buildReceiptUrlFromTx sample_platform sample_tx = Ok sample_url
  ∧ @extractTxFromUrl sample_platform sample_url = Some sample_tx.
Proof.
  destruct (@receipt_url_round_trip sample_platform sample_tx) as [Hb He].
  - by vm_compute.
  - by vm_compute.
  - split; [exact Hb|].
    destruct (simple_URL sample_url) as [u|] eqn:Hu; [|by vm_compute in Hu].
    apply (He u); [exact Hu|].
    vm_compute in Hu. injection Hu as <-. by vm_compute.
Defined.

(** X16, witness: a browser that would serve a page for every URL the
    gate rejects gets no such request. *)
Lemma browser_asked_for_receipt_url_only_witness :
  @getReceiptFromUrl (with_browse sample_platform rogue_browser)
    (js "https://evil.example/receipt/ABCDE12345")
  = @getReceiptFromUrl (with_browse sample_platform (λ _ _, LaunchFails))
      (js "https://evil.example/receipt/ABCDE12345")
  ∧ @getReceiptCanonical (with_browse sample_platform rogue_browser) sample_tx
    = Throw (Error BROWSER_LAUNCH_FAILED None).
Proof.
  destruct (browser_asked_for_receipt_url_only sample_platform rogue_browser
              (λ _ _, LaunchFails) sample_tx
              (js "https://evil.example/receipt/ABCDE12345")) as [Hc Hu].
  - intros tx' u _ _ Ha. unfold rogue_browser. by rewrite Ha.
  - split; [exact Hu|]. rewrite Hc. by vm_compute.
Defined.

(** ** The HTTP front end *)

Lemma status_map_values k n : status_map !! k = Some n → n ∈ error_statuses.
Proof.
  unfold status_map. intros Hk%elem_of_list_to_map_2.
  unfold error_statuses.
  repeat (apply elem_of_cons in Hk as [[= -> ->]|Hk]; [in_list|]).
  by apply elem_of_nil in Hk.
Qed.

(** X17.  [getStatusCodeForError] never yields a status below 400: for
    every code, or none, that is no property name of [Object.prototype]
    the status is one of 400, 403, 404, 422, 502, 503 and 504 if the map
    has the code, and 500 if it has not. *)
Theorem getStatusCodeForError_range (code : option jsstring) :
  inherited (match code with Some c => c | None => js "undefined" end) = false →
  ∃ n, getStatusCodeForError code = StatusNumber n
       ∧ (match code ≫= (status_map !!.) with
          | Some m => n = m ∧ n ∈ error_statuses
          | None => n = 500
          end)
       ∧ 400 ≤ n ≤ 504.
Proof.
  intros Hk. unfold getStatusCodeForError. cbv zeta.
  assert (Hrange : ∀ m, m ∈ error_statuses → 400 ≤ m ≤ 504 ∧ (m =? 0) = false).
  { intros m Hm. unfold error_statuses in Hm.
    repeat (apply elem_of_cons in Hm as [->|Hm]; [split; [lia|done]|]).
    by apply elem_of_nil in Hm. }
  destruct code as [c|]; cbn [mbind option_bind].
  - destruct (status_map !! c) as [m|] eqn:Hm.
    + pose proof (status_map_values _ _ Hm) as Hin.
      destruct (Hrange m Hin) as [? ->]. by exists m.
    + rewrite Hk. exists 500. repeat split; lia.
  - exists 500. vm_compute. repeat split; discriminate.
Qed.

(** X17, witness: the status of [PARSE_FAIL]. *)
Lemma getStatusCodeForError_range_witness :
  getStatusCodeForError (Some (js "PARSE_FAIL")) = StatusNumber 422.
Proof.
  destruct (getStatusCodeForError_range (Some (js "PARSE_FAIL")))
    as (n & -> & Hn & _); [by vm_compute|].
  vm_compute in Hn. by destruct Hn as [-> _].
Defined.

Lemma getStatusCodeForError_not_200 code :
  getStatusCodeForError code ≠ StatusNumber 200.
Proof.
  unfold getStatusCodeForError. cbv zeta.
  destruct (status_map !! _) as [m|] eqn:Hm.
  - apply status_map_values in Hm. unfold error_statuses in Hm.
    repeat (apply elem_of_cons in Hm as [->|Hm]; [done|]).
    by apply elem_of_nil in Hm.
  - by destruct (inherited _).
Qed.

Lemma status_of_code c :
  c ∈ TX_EXTRACT_FAILED :: getReceiptCanonical_codes →
  ∃ n, getStatusCodeForError (code_text c) = StatusNumber n ∧ n ∈ error_statuses
       ∧ js_or (code_text c) (Some (js "UNKNOWN_ERROR")) = code_text c.
Proof.
  unfold getReceiptCanonical_codes, error_statuses. intros Hc.
  repeat (apply elem_of_cons in Hc as [->|Hc];
          [eexists; split; [by vm_compute|]; split; [in_list|done]|]).
  by apply elem_of_nil in Hc.
Qed.

Lemma trim_blank s : forallb is_space s = true → trim s = [].
Proof.
  intros Hs. unfold trim.
  assert (drop_while is_space s = []) as ->; [|done].
  induction s as [|x s IH]; [done|]. simpl in *.
  apply andb_true_iff in Hs as [-> Hs]. by apply IH.
Qed.

Lemma drop_while_blanks ws s :
  forallb is_space ws = true → drop_while is_space (ws ++ s) = drop_while is_space s.
Proof.
  induction ws as [|x ws IH]; [done|]. simpl. intros [-> Hws]%andb_true_iff.
  by apply IH.
Qed.

Lemma drop_while_app_keep p s ws :
  drop_while p s ≠ [] → drop_while p (s ++ ws) = drop_while p s ++ ws.
Proof.
  induction s as [|x s IH]; [done|]. simpl. destruct (p x); [apply IH|done].
Qed.

(** Blanks around a text do not change what [trim] makes of it. *)
Lemma trim_padded ws1 s ws2 :
  forallb is_space ws1 = true → forallb is_space ws2 = true →
  trim (ws1 ++ s ++ ws2) = trim s.
Proof.
  intros H1 H2. unfold trim. rewrite drop_while_blanks by done.
  destruct (drop_while is_space s) as [|x d] eqn:Hd.
  - assert (forallb is_space s = true) as Hs.
    { clear -Hd. induction s as [|y s IH]; [done|]. simpl in *.
      destruct (is_space y); [by apply IH|done]. }
    assert (forallb is_space (s ++ ws2) = true) as Hall
      by (by rewrite forallb_app, Hs, H2).
    apply trim_blank in Hall. unfold trim in Hall. by rewrite Hall.
  - rewrite drop_while_app_keep by (by rewrite Hd). rewrite Hd.
    by apply strip_trailing_blanks.
Qed.

Section Front.
Context `{Platform}.

(** X18.  Every error of the two entry points that has one of the
    module's own codes is answered with the status the map gives that
    code, one of 400, 403, 404, 422, 502, 503 and 504, and with the code
    itself: the map of [getStatusCodeForError] lacks none of the codes the
    pipeline raises, so 500 and [UNKNOWN_ERROR] are left to the errors of
    the browser library. *)
Theorem entry_point_errors_have_a_status (tx url : jsstring) (e : error) :
  getReceiptCanonical tx = Throw e ∨ getReceiptFromUrl url = Throw e →
  (∃ n, r_status (error_response e) = StatusNumber n ∧ n ∈ error_statuses
        ∧ r_code (error_response e) = code_text (code e)
        ∧ r_success (error_response e) = false)
  ∨ (∃ c, c ≠ [] ∧ code e = Foreign c).
Proof.
  intros He.
  assert (Hc : code e ∈ TX_EXTRACT_FAILED :: getReceiptCanonical_codes
               ∨ ∃ c, c ≠ [] ∧ code e = Foreign c).
  { destruct He as [He|He].
    - apply getReceiptCanonical_errors in He as [[Hc|Hc] _]; [left|by right].
      by apply list_elem_of_further.
    - by apply getReceiptFromUrl_errors in He as [Hc _]. }
  destruct Hc as [Hc|Hc]; [left|by right].
  destruct (status_of_code _ Hc) as (n & Hn & Hin & Hcode). by exists n.
Qed.

Lemma getReceiptFromUrl_ok url c :
  getReceiptFromUrl url = Ok c → ∃ tx, getReceiptCanonical tx = Ok c.
Proof.
  unfold getReceiptFromUrl.
  destruct (assertAllowedHost url) as [[]|]; cbn [mbind result_bind]; [|done].
  destruct (truthy (extractTxFromUrl url)); cbn [negb throw_if mbind result_bind]; [|done].
  destruct (test re_tx (String_or_empty (extractTxFromUrl url)));
    cbn [negb throw_if mbind result_bind]; [|done].
  intros Hc. by eexists.
Qed.

Lemma respond_success r :
  (r_success (respond r) = true ↔ r_status (respond r) = StatusNumber 200)
  ∧ (r_success (respond r) = true ↔ ∃ c, r = Ok c ∧ r_data (respond r) = Some c)
  ∧ (r_success (respond r) = false → r_data (respond r) = None).
Proof.
  destruct r as [c|e]; cbn [respond success_response error_response r_success r_status
                             r_data].
  - split; [done|]. split; [|done]. split; [by exists c|done].
  - split; [|split; [|done]].
    + split; [done|]. intros Hs. by apply getStatusCodeForError_not_200 in Hs.
    + split; [done|]. by intros (c & [=] & _).
Qed.

(** X19.  The receipt handlers answer [success: true] exactly when they
    answer with status 200, and then the record they send is one that
    [getReceiptCanonical] returned for some identifier: its invoice
    number, settled amount and credited-party account number are not
    empty and it has a [sourceUrl].  Every other answer has
    [success: false] and no record. *)
Theorem success_means_accepted (url transactionCode : body_field)
    (txCode : jsstring) (r : response) :
  r = check_receipt url transactionCode ∨ r = get_receipt txCode →
  (r_success r = true ↔ r_status r = StatusNumber 200)
  ∧ (r_success r = false → r_data r = None)
  ∧ (r_success r = true →
     ∃ c tx, r_data r = Some c ∧ getReceiptCanonical tx = Ok c
             ∧ truthy (invoiceNo c) = true ∧ truthy (settledAmount c) = true
             ∧ truthy (creditedPartyAccountNo c) = true
             ∧ is_Some (sourceUrl c)).
Proof.
  intros Hr.
  assert (Hres : r = Response (StatusNumber 400) false None (Some (js "MISSING_INPUT")) None
                 ∨ ∃ res, r = respond res
                          ∧ ∀ c, res = Ok c → ∃ tx, getReceiptCanonical tx = Ok c).
  { destruct Hr as [-> | ->].
    - unfold check_receipt.
      destruct (negb (field_truthy url) && negb (field_truthy transactionCode));
        [by left|right].
      eexists. split; [done|]. intros c.
      destruct (field_truthy transactionCode).
      + destruct (field_trim transactionCode) as [tx|]; cbn [mbind result_bind]; [|done].
        intros Hc. by exists tx.
      + destruct (field_trim url) as [u|]; cbn [mbind result_bind]; [|done].
        apply getReceiptFromUrl_ok.
    - right. unfold get_receipt. eexists. split; [done|]. intros c Hc. by eexists. }
  destruct Hres as [-> | (res & -> & Hres)]; [done|].
  destruct (respond_success res) as (H1 & H2 & H3).
  split; [done|]. split; [done|].
  intros (c & -> & Hd)%H2. destruct (Hres c eq_refl) as (tx & Htx).
  exists c, tx. split; [done|]. split; [done|].
  apply getReceiptCanonical_ok in Htx as (page & _ & _ & _ & Hg & ->).
  apply requireCriticalFields_ok in Hg as (Hi & Hs & Ha).
  repeat split; first [done | by eexists].
Qed.

(** X20.  Blanks around the transaction code do not count: a code with
    blanks before and after it is answered as the code alone, by the POST
    handler whatever the [url] member holds, and as the GET handler
    answers it.  A code of blanks only is not a missing input: it is
    answered with 400 and [TX_FORMAT], also when a URL is supplied. *)
Theorem transaction_code_whitespace (url url' : body_field) (ws1 s ws2 : jsstring) :
  forallb is_space ws1 = true → forallb is_space ws2 = true →
  (trim s ≠ [] →
   check_receipt url (FText (ws1 ++ s ++ ws2)) = check_receipt url' (FText s)
   ∧ check_receipt url (FText (ws1 ++ s ++ ws2)) = get_receipt s)
  ∧ (ws1 ≠ [] →
     check_receipt url (FText ws1)
     = Response (StatusNumber 400) false None (Some (js "TX_FORMAT")) None).
Proof.
  intros H1 H2.
  assert (Hcode : ∀ u x, x ≠ [] →
            check_receipt u (FText x) = respond (getReceiptCanonical (trim x))).
  { intros u x Hx. unfold check_receipt. destruct x as [|c x]; [done|].
    cbn [field_truthy nonempty negb]. rewrite andb_false_r.
    by cbn [field_trim mbind result_bind]. }
  split.
  - intros Hs.
    assert (s ≠ []) as Hne by (by intros ->).
    assert (ws1 ++ s ++ ws2 ≠ []) as Hne'.
    { destruct ws1; [|done]. by destruct s. }
    rewrite !Hcode by done. unfold get_receipt. by rewrite trim_padded.
  - intros Hne. rewrite Hcode, trim_blank by done. by vm_compute.
Qed.

Lemma error_response_500 e :
  r_status (error_response e) = StatusNumber 500 →
  code e ∈ TX_EXTRACT_FAILED :: getReceiptCanonical_codes
  ∨ (∃ c, c ≠ [] ∧ code e = Foreign c) →
  ∃ c, c ≠ [] ∧ code e = Foreign c ∧ status_map !! c = None.
Proof.
  intros Hs [Hc|(c & Hne & Hc)].
  - destruct (status_of_code _ Hc) as (n & Hn & Hin & _).
    cbn [error_response r_status] in Hs. rewrite Hn in Hs. injection Hs as ->.
    unfold error_statuses in Hin.
    repeat (apply elem_of_cons in Hin as [Hin|Hin]; [done|]).
    by apply elem_of_nil in Hin.
  - exists c. split; [done|]. split; [done|].
    cbn [error_response r_status] in Hs. rewrite Hc in Hs. cbn [code_text] in Hs.
    unfold getStatusCodeForError in Hs. cbv zeta in Hs.
    destruct (status_map !! c) as [m|] eqn:Hm; [|done].
    apply status_map_values in Hm. unfold error_statuses in Hm.
    repeat (apply elem_of_cons in Hm as [->|Hm]; [done|]).
    by apply elem_of_nil in Hm.
Qed.

(** An error with a code of the library comes from the browser: the fetch
    passes it on. *)
Lemma getReceiptCanonical_foreign tx e c :
  getReceiptCanonical tx = Throw e → code e = Foreign c →
  test re_tx tx = true
  ∧ ∃ receiptUrl name,
      buildReceiptUrlFromTx tx = Ok receiptUrl
      ∧ assertAllowedHost receiptUrl = Ok tt
      ∧ browse receiptUrl fetchTimeoutMs = Throws name (Some c)
      ∧ name ≠ js "TimeoutError" ∧ c ≠ []
      ∧ e = Error (Foreign c) None.
Proof.
  unfold getReceiptCanonical.
  destruct (test re_tx tx) eqn:Htx; cbn [negb throw_if mbind result_bind];
    [|by intros [= <-]].
  destruct (buildReceiptUrlFromTx tx) as [u|e1] eqn:Hb; cbn [mbind result_bind].
  2:{ intros [= <-] Hc. rewrite buildReceiptUrlFromTx_valid in Hb by done. done. }
  destruct (assertAllowedHost u) as [[]|e2] eqn:Ha; cbn [mbind result_bind].
  2:{ intros [= <-] Hc.
      apply assertAllowedHost_errors in Ha as [[Hx|[Hx|Hx]] _]; congruence. }
  destruct (fetchReceiptWithPuppeteer u fetchTimeoutMs) as [page|e3] eqn:Hf;
    cbn [mbind result_bind].
  2:{ intros [= <-] Hc. split; [done|]. exists u.
      unfold fetchReceiptWithPuppeteer in Hf.
      destruct (browse u fetchTimeoutMs) as [|name c'|re|status html' url'] eqn:Hbr.
      - injection Hf as <-. done.
      - exists name. case_bool_decide as Hn; [injection Hf as <-; done|].
        destruct c' as [[|x xs]|]; injection Hf as <-; try done.
        cbn [code] in Hc. injection Hc as <-. done.
      - injection Hf as <-. done.
      - destruct (400 <=? status); [injection Hf as <-; done|done]. }
  destruct (negb (nonempty (f_html page)) || (length (f_html page) <? 200)%nat);
    cbn [throw_if mbind result_bind]; [by intros [= <-]|].
  destruct (test re_not_found (pageBodyText (f_html page)));
    cbn [throw_if mbind result_bind]; [by intros [= <-]|].
  unfold requireCriticalFields, throw_if.
  destruct (negb _ || negb _ || negb _); cbn [mbind result_bind]; [|done].
  by intros [= <-].
Qed.

Lemma getReceiptFromUrl_foreign url e c :
  getReceiptFromUrl url = Throw e → code e = Foreign c →
  ∃ tx, getReceiptCanonical tx = Throw e.
Proof.
  unfold getReceiptFromUrl.
  destruct (assertAllowedHost url) as [[]|e2] eqn:Ha; cbn [mbind result_bind].
  2:{ intros [= <-] Hc.
      apply assertAllowedHost_errors in Ha as [[Hx|[Hx|Hx]] _]; congruence. }
  destruct (truthy (extractTxFromUrl url)); cbn [negb throw_if mbind result_bind];
    [|by intros [= <-]].
  destruct (test re_tx (String_or_empty (extractTxFromUrl url)));
    cbn [negb throw_if mbind result_bind]; [|by intros [= <-]].
  intros He _. by eexists.
Qed.

(** X21.  When the member the POST handler works on is no string, the
    answer is 500 with [UNKNOWN_ERROR].  The handler answers with status
    500 in no other case but one: the fetch of the receipt URL of a valid
    identifier failed in the browser with an error of the library that is
    no timeout and has a code of its own, which the fetch passed on and
    the map of [getStatusCodeForError] lacks; the answer then has that
    code. *)
Theorem internal_error_causes (url transactionCode : body_field) :
  let r := check_receipt url transactionCode in
  (transactionCode = FOther ∨ (field_truthy transactionCode = false ∧ url = FOther) →
   r = Response (StatusNumber 500) false None (Some (js "UNKNOWN_ERROR")) None)
  ∧ (r_status r = StatusNumber 500 →
     transactionCode = FOther ∨ (field_truthy transactionCode = false ∧ url = FOther)
     ∨ ∃ tx receiptUrl name c,
         test re_tx tx = true
         ∧ buildReceiptUrlFromTx tx = Ok receiptUrl
         ∧ assertAllowedHost receiptUrl = Ok tt
         ∧ browse receiptUrl fetchTimeoutMs = Throws name (Some c)
         ∧ name ≠ js "TimeoutError" ∧ c ≠ []
         ∧ status_map !! c = None
         ∧ r = Response (StatusNumber 500) false None (Some c) None).
Proof.
  cbv zeta. split.
  - intros [-> | [Htc ->]].
    + unfold check_receipt. cbn [field_truthy negb]. rewrite andb_false_r.
      cbn [field_trim mbind result_bind]. by vm_compute.
    + unfold check_receipt. rewrite Htc. cbn [field_truthy negb andb].
      cbn [field_trim mbind result_bind]. by vm_compute.
  - assert (Hlib : ∀ tx e,
              getReceiptCanonical tx = Throw e →
              r_status (error_response e) = StatusNumber 500 →
              (code e ∈ TX_EXTRACT_FAILED :: getReceiptCanonical_codes
               ∨ ∃ c, c ≠ [] ∧ code e = Foreign c) →
              ∃ tx receiptUrl name c,
                test re_tx tx = true
                ∧ buildReceiptUrlFromTx tx = Ok receiptUrl
                ∧ assertAllowedHost receiptUrl = Ok tt
                ∧ browse receiptUrl fetchTimeoutMs = Throws name (Some c)
                ∧ name ≠ js "TimeoutError" ∧ c ≠ []
                ∧ status_map !! c = None
                ∧ error_response e
                  = Response (StatusNumber 500) false None (Some c) None).
    { intros tx e He Hs Hcodes.
      destruct (error_response_500 e Hs Hcodes) as (c & Hne & Hc & Hmap).
      destruct (getReceiptCanonical_foreign tx e c He Hc)
        as (Htx & u & name & Hb & Ha & Hbr & Hn & _ & ->).
      exists tx, u, name, c. repeat split; try done.
      unfold error_response in *. cbn [code details code_text r_status] in *.
      rewrite Hs. destruct c; done. }
    unfold check_receipt.
    destruct (negb (field_truthy url) && negb (field_truthy transactionCode)) eqn:Hm;
      [done|].
    destruct transactionCode as [s| |]; cbn [field_truthy] in *; [| |by left].
    + destruct (nonempty s) eqn:Hne.
      * cbn [field_trim mbind result_bind].
        destruct (getReceiptCanonical (trim s)) as [c|e] eqn:He; [done|].
        cbn [respond]. intros Hs. right. right.
        apply (Hlib (trim s) e He Hs).
        apply getReceiptCanonical_errors in He as [[Hc|Hc] _]; [left|by right].
        by apply list_elem_of_further.
      * destruct url as [u| |]; cbn [field_trim mbind result_bind];
          [|by cbn in Hm|tauto].
        destruct (getReceiptFromUrl (trim u)) as [c|e] eqn:He; [done|].
        cbn [respond]. intros Hs. right. right.
        pose proof (getReceiptFromUrl_errors _ _ He) as [Hcodes _].
        destruct (error_response_500 e Hs Hcodes) as (c & _ & Hc & _).
        destruct (getReceiptFromUrl_foreign _ _ _ He Hc) as (tx & Htx).
        by apply (Hlib tx e Htx Hs).
    + destruct url as [u| |]; cbn [field_trim mbind result_bind];
        [|by cbn in Hm|tauto].
      destruct (getReceiptFromUrl (trim u)) as [c|e] eqn:He; [done|].
      cbn [respond]. intros Hs. right. right.
      pose proof (getReceiptFromUrl_errors _ _ He) as [Hcodes _].
      destruct (error_response_500 e Hs Hcodes) as (c & _ & Hc & _).
      destruct (getReceiptFromUrl_foreign _ _ _ He Hc) as (tx & Htx).
      by apply (Hlib tx e Htx Hs).
Qed.

End Front.

(** X18, witness: the page that reports an unknown invoice is answered
    with 404. *)
Lemma entry_point_errors_have_a_status_witness :
  @getReceiptCanonical not_found_platform sample_tx = Throw (Error TX_NOT_FOUND None)
  ∧ r_status (error_response (Error TX_NOT_FOUND None)) = StatusNumber 404.
Proof.
  assert (He : @getReceiptCanonical not_found_platform sample_tx
               = Throw (Error TX_NOT_FOUND None)) by (by vm_compute).
  split; [exact He|].
  destruct (@entry_point_errors_have_a_status not_found_platform sample_tx []
              (Error TX_NOT_FOUND None) (or_introl He))
    as [(n & Hn & _)|(c & _ & Hc)]; [|done].
  rewrite Hn. by vm_compute in Hn.
Defined.

(** X19, witness: the accepted page, asked for by a padded code. *)
Lemma success_means_accepted_witness :
  r_success (@check_receipt accepted_platform FFalsy (FText (js " ABCDE12345 "))) = true
  ∧ r_status (@check_receipt accepted_platform FFalsy (FText (js " ABCDE12345 ")))
    = StatusNumber 200.
Proof.
  assert (Hs : r_success (@check_receipt accepted_platform FFalsy
                            (FText (js " ABCDE12345 "))) = true) by (by vm_compute).
  split; [exact Hs|].
  destruct (@success_means_accepted accepted_platform FFalsy (FText (js " ABCDE12345 "))
              [] _ (or_introl eq_refl)) as [H200 _].
  by apply H200.
Defined.

(** X20, witness: a code with a space before and a line feed after it. *)
Lemma transaction_code_whitespace_witness :
  @check_receipt accepted_platform (FText (js "ignored")) (FText ([32] ++ sample_tx ++ [10]))
  = @get_receipt accepted_platform sample_tx.
Proof.
  destruct (@transaction_code_whitespace accepted_platform (FText (js "ignored")) FFalsy
              [32] sample_tx [10]) as [Hpad _]; [done..|].
  destruct Hpad as [_ Hget]; [by vm_compute|]. exact Hget.
Defined.

(** X21, witness: a number as transaction code; and a fetch that the
    browser refuses with a code of its own. *)
Lemma internal_error_causes_witness :
  @check_receipt sample_platform (FText sample_url) FOther
  = Response (StatusNumber 500) false None (Some (js "UNKNOWN_ERROR")) None
  ∧ ∃ tx receiptUrl name c,
      @browse refused_platform receiptUrl (@fetchTimeoutMs refused_platform)
      = Throws name (Some c)
      ∧ test re_tx tx = true
      ∧ @check_receipt refused_platform FFalsy (FText sample_tx)
        = Response (StatusNumber 500) false None (Some c) None.
Proof.
  split.
  - destruct (@internal_error_causes sample_platform (FText sample_url) FOther)
      as [H500 _].
    apply H500. by left.
  - destruct (@internal_error_causes refused_platform FFalsy (FText sample_tx))
      as [_ Hcause].
    destruct Hcause as [Hc|[[_ Hc]|(tx & u & name & c & Ht & _ & _ & Hb & _ & _ & _ & Hr)]];
      [by vm_compute|done|done|].
    by exists tx, u, name, c.
Defined.

(** ** The browser session *)

(** One step of a computation of the session. *)
Ltac run :=
  cbv beta iota zeta delta
    [mbind mret Browser.M_bind Browser.M_ret Browser.try_catch Browser.try_finally
     Browser.throw Browser.await Browser.await_value Browser.get_state
     Browser.set_page Browser.set_browserInstance Browser.console_error
     Browser.record fst snd Browser.browserInstance Browser.page Browser.trace].

Section Session.
Import Browser.

Lemma fetch_catch_run error st : fetch_catch error st = (inl (rethrown error), st).
Proof.
  unfold fetch_catch, rethrown. case_bool_decide; [done|].
  by destruct (truthy (code_of error)).
Qed.

Lemma fetch_finally_run s st :
  fetch_finally s st
  = (inr tt,
     if page st
     then State (browserInstance st) (page st) (trace st ++ closing s)
     else st).
Proof.
  destruct st as [bi pg tr]. unfold fetch_finally, closing. run.
  destruct pg; [|done]. destruct (s_pageClose s); run; [|done].
  by rewrite <- app_assoc.
Qed.

Lemma getBrowser_run s st :
  getBrowser s st
  = if needs_launch s st
    then match s_launch s with
         | inl _ => (inl (Own (Error BROWSER_LAUNCH_FAILED None)),
                     record (Ev Launch false) st)
         | inr b => (inr b, State (Some b) (page st) (trace st ++ [Ev Launch true]))
         end
    else (inr (default 0 (browserInstance st)), st).
Proof.
  destruct st as [bi pg tr]. unfold getBrowser, needs_launch, launch. run.
  destruct bi as [b|]; [destruct (s_isConnected s); [done|]|];
    cbn [negb]; destruct (s_launch s); done.
Qed.

(** What the [catch] block makes of an error of the library. *)
Lemma rethrown_lib e :
  to_error (rethrown (Lib e))
  = (if bool_decide (e_name e = js "TimeoutError") then Error PAGE_TIMEOUT None
     else match e_code e with
          | Some (x :: xs) => Error (Foreign (x :: xs)) None
          | _ => Error NAVIGATION_ERROR None
          end).
Proof.
  unfold rethrown. cbn [name_of code_of]. case_bool_decide; [done|].
  destruct (e_code e) as [[|x xs]|] eqn:E; cbn [truthy to_error]; by rewrite ?E.
Qed.

(** An error the module made passes the [catch] block as it is. *)
Lemma rethrown_own e : truthy (code_text (code e)) = true → rethrown (Own e) = Own e.
Proof.
  intros Hc. unfold rethrown. cbn [name_of code_of]. rewrite Hc.
  rewrite bool_decide_eq_false_2; [done|]. intros Hn. by vm_compute in Hn.
Qed.

(** The steps of the fetch after an error in the [try] block. *)
Ltac caught :=
  rewrite fetch_catch_run; run; rewrite fetch_finally_run; run;
  unfold result_of; cbn [fst]; rewrite ?rethrown_lib, ?rethrown_own by done;
  try done.

(** What the [try], [catch] and [finally] blocks come to. *)
Lemma fetch_try_outcome s url timeoutMs st1 :
  result_of (try_finally (try_catch (fetch_try s url timeoutMs) fetch_catch)
               (fetch_finally s) st1)
  = match
      match first_error [s_newPage s; s_setViewport s; s_setUserAgent s;
                         s_setExtraHTTPHeaders s; s_setRequestInterception s] with
      | Some e => Throws (e_name e) (e_code e)
      | None =>
        match s_goto s with
        | inl e => Throws (e_name e) (e_code e)
        | inr None => NoResponse (requestError s)
        | inr (Some status) =>
          if 400 <=? status then Responds status [] []
          else match s_waitForSelector s, s_content s with
               | Some e, _ => Throws (e_name e) (e_code e)
               | None, inl e => Throws (e_name e) (e_code e)
               | None, inr html => Responds status html (s_url s)
               end
        end
      end
    with
    | LaunchFails => Throw (Error BROWSER_LAUNCH_FAILED None)
    | Throws name c =>
      if bool_decide (name = js "TimeoutError") then Throw (Error PAGE_TIMEOUT None)
      else match c with
           | Some (x :: xs) => Throw (Error (Foreign (x :: xs)) None)
           | _ => Throw (Error NAVIGATION_ERROR None)
           end
    | NoResponse requestError =>
      Throw (Error PAGE_LOAD_FAILED
               (if truthy requestError then DetailText <$> requestError else None))
    | Responds status html url' =>
      if 400 <=? status then Throw (Error HTTP_ERROR None)
      else Ok (Fetched html status url')
    end.
Proof.
  destruct st1 as [bi1 pg1 tr1]. unfold fetch_try. cbn [first_error]. run.
  destruct (s_newPage s) as [e|]; run.
  { caught. case_bool_decide; [done|]. by destruct (e_code e) as [[|]|]. }
  destruct (s_setViewport s) as [e|]; run.
  { caught. case_bool_decide; [done|]. by destruct (e_code e) as [[|]|]. }
  destruct (s_setUserAgent s) as [e|]; run.
  { caught. case_bool_decide; [done|]. by destruct (e_code e) as [[|]|]. }
  destruct (s_setExtraHTTPHeaders s) as [e|]; run.
  { caught. case_bool_decide; [done|]. by destruct (e_code e) as [[|]|]. }
  destruct (s_setRequestInterception s) as [e|]; run.
  { caught. case_bool_decide; [done|]. by destruct (e_code e) as [[|]|]. }
  destruct (s_goto s) as [e|[status|]]; run.
  { caught. case_bool_decide; [done|]. by destruct (e_code e) as [[|]|]. }
  2:{ caught. }
  destruct (400 <=? status) eqn:Hs; run.
  { caught. by rewrite Hs. }
  destruct (s_waitForSelector s) as [e|]; run.
  { caught. case_bool_decide; [done|]. by destruct (e_code e) as [[|]|]. }
  destruct (s_content s) as [e|html]; run.
  { caught. case_bool_decide; [done|]. by destruct (e_code e) as [[|]|]. }
  rewrite fetch_finally_run. run. unfold result_of. cbn [fst]. by rewrite Hs.
Qed.

Lemma fetch_unfold s url timeoutMs st :
  Browser.fetchReceiptWithPuppeteer s url timeoutMs st
  = match getBrowser s st with
    | (inr _, st1) =>
      try_finally (try_catch (fetch_try s url timeoutMs) fetch_catch) (fetch_finally s)
        (State (browserInstance st1) false (trace st1))
    | (inl e, st1) => (inl e, st1)
    end.
Proof.
  unfold Browser.fetchReceiptWithPuppeteer.
  cbv beta iota delta [mbind M_bind set_page].
  by destruct (getBrowser s st) as [[e|b] st1].
Qed.

(** The events of the [try] and [catch] blocks, from a state without a
    page. *)
Lemma fetch_try_trace s url timeoutMs bi tr :
  ∃ body,
    trace (snd (try_catch (fetch_try s url timeoutMs) fetch_catch (State bi false tr)))
    = tr ++ body
    ∧ page (snd (try_catch (fetch_try s url timeoutMs) fetch_catch (State bi false tr)))
      = existsb opens body
    ∧ browserInstance
        (snd (try_catch (fetch_try s url timeoutMs) fetch_catch (State bi false tr)))
      = bi
    ∧ existsb closes body = false ∧ existsb on_browser body = false
    ∧ (length (List.filter opens body) ≤ 1)%nat.
Proof.
  unfold fetch_try. run.
  destruct (s_newPage s) as [e|]; run.
  { rewrite fetch_catch_run. run. eexists. rewrite <- ?app_assoc.
    split; [reflexivity|]. cbn. repeat split; first [done | lia]. }
  destruct (s_setViewport s) as [e|]; run.
  { rewrite fetch_catch_run. run. eexists. rewrite <- ?app_assoc.
    split; [reflexivity|]. cbn. repeat split; first [done | lia]. }
  destruct (s_setUserAgent s) as [e|]; run.
  { rewrite fetch_catch_run. run. eexists. rewrite <- ?app_assoc.
    split; [reflexivity|]. cbn. repeat split; first [done | lia]. }
  destruct (s_setExtraHTTPHeaders s) as [e|]; run.
  { rewrite fetch_catch_run. run. eexists. rewrite <- ?app_assoc.
    split; [reflexivity|]. cbn. repeat split; first [done | lia]. }
  destruct (s_setRequestInterception s) as [e|]; run.
  { rewrite fetch_catch_run. run. eexists. rewrite <- ?app_assoc.
    split; [reflexivity|]. cbn. repeat split; first [done | lia]. }
  destruct (s_goto s) as [e|[status|]]; run.
  { rewrite fetch_catch_run. run. eexists. rewrite <- ?app_assoc.
    split; [reflexivity|]. cbn. repeat split; first [done | lia]. }
  2:{ rewrite fetch_catch_run. run. eexists. rewrite <- ?app_assoc.
      split; [reflexivity|]. cbn. repeat split; first [done | lia]. }
  destruct (400 <=? status); run.
  { rewrite fetch_catch_run. run. eexists. rewrite <- ?app_assoc.
    split; [reflexivity|]. cbn. repeat split; first [done | lia]. }
  destruct (s_waitForSelector s) as [e|]; run.
  { rewrite fetch_catch_run. run. eexists. rewrite <- ?app_assoc.
    split; [reflexivity|]. cbn. repeat split; first [done | lia]. }
  destruct (s_content s) as [e|html]; run.
  { rewrite fetch_catch_run. run. eexists. rewrite <- ?app_assoc.
    split; [reflexivity|]. cbn. repeat split; first [done | lia]. }
  eexists. rewrite <- ?app_assoc.
  split; [reflexivity|]. cbn. repeat split; first [done | lia].
Qed.

(** The state a fetch leaves. *)
Lemma fetch_state s url timeoutMs st :
  ∃ body,
    snd (Browser.fetchReceiptWithPuppeteer s url timeoutMs st)
    = (if needs_launch s st
       then match s_launch s with
            | inl _ => record (Ev Launch false) st
            | inr b =>
              State (Some b) (existsb opens body)
                (trace st ++ [Ev Launch true] ++ body
                 ++ (if existsb opens body then closing s else []))
            end
       else State (browserInstance st) (existsb opens body)
              (trace st ++ body ++ (if existsb opens body then closing s else [])))
    ∧ existsb closes body = false ∧ existsb on_browser body = false
    ∧ (length (List.filter opens body) ≤ 1)%nat.
Proof.
  assert (Hrest : ∀ bi tr, ∃ body,
    snd (try_finally (try_catch (fetch_try s url timeoutMs) fetch_catch)
           (fetch_finally s) (State bi false tr))
    = State bi (existsb opens body)
        (tr ++ body ++ (if existsb opens body then closing s else []))
    ∧ existsb closes body = false ∧ existsb on_browser body = false
    ∧ (length (List.filter opens body) ≤ 1)%nat).
  { intros bi tr.
    destruct (fetch_try_trace s url timeoutMs bi tr) as (body & Ht & Hp & Hb & Hrest).
    exists body. split; [|done]. unfold try_finally.
    destruct (try_catch _ _ _) as [r [bi1 pg1 tr1]]. cbn [snd trace page browserInstance] in *.
    subst bi1 pg1 tr1.
    rewrite fetch_finally_run. cbn [page browserInstance trace snd].
    destruct (existsb opens body); [by rewrite <- app_assoc|by rewrite !app_nil_r]. }
  rewrite fetch_unfold, getBrowser_run. destruct st as [bi pg tr].
  destruct (needs_launch s _).
  - destruct (s_launch s) as [e|b].
    + exists []. repeat split; first [done | simpl; lia].
    + cbn [browserInstance trace].
      destruct (Hrest (Some b) (tr ++ [Ev Launch true])) as (body & Hb & Hr).
      exists body. split; [|done]. rewrite Hb. by rewrite <- app_assoc.
  - cbn [browserInstance trace]. destruct (Hrest bi tr) as (body & Hb & Hr).
    by exists body.
Qed.

Lemma fetch_result s url timeoutMs st c :
  fst (Browser.fetchReceiptWithPuppeteer (with_pageClose s c) url timeoutMs st)
  = fst (Browser.fetchReceiptWithPuppeteer s url timeoutMs st).
Proof.
  rewrite !fetch_unfold.
  change (getBrowser (with_pageClose s c)) with (getBrowser s).
  change (fetch_try (with_pageClose s c)) with (fetch_try s).
  destruct (getBrowser s st) as [[t|b] st1]; [done|].
  unfold try_finally. destruct (try_catch _ _ _) as [r st2].
  by rewrite !fetch_finally_run.
Qed.

(** X23.  A fetch closes the page it opened, on every path: the calls of
    a fetch are those of its [try] block, none of them [page.close()],
    followed by one [page.close()] if and only if [newPage] gave a page,
    and by nothing else but the report of a close that failed.  What the
    fetch returns or throws does not depend on how [page.close()] ends. *)
Theorem page_closed_on_every_path (s : session) (st : state) (url : jsstring)
    (timeoutMs : js_number) (c : option lib_error) :
  (∃ body,
     trace (snd (Browser.fetchReceiptWithPuppeteer s url timeoutMs st))
     = trace st ++ body ++ (if existsb opens body then closing s else [])
     ∧ existsb closes body = false
     ∧ (length (List.filter opens body) ≤ 1)%nat)
  ∧ fst (Browser.fetchReceiptWithPuppeteer (with_pageClose s c) url timeoutMs st)
    = fst (Browser.fetchReceiptWithPuppeteer s url timeoutMs st).
Proof.
  split; [|apply fetch_result].
  destruct (fetch_state s url timeoutMs st) as (body & -> & Hc & _ & Hle).
  destruct (needs_launch s st).
  - destruct (s_launch s) as [e|b].
    + exists [Ev Launch false]. destruct st as [bi pg tr]. cbn.
      repeat split; first [done | lia].
    + exists (Ev Launch true :: body). cbn. by rewrite Hc.
  - by exists body.
Qed.

Lemma filter_none {A} (p : A → bool) l : existsb p l = false → List.filter p l = [].
Proof.
  induction l as [|x l IH]; [done|]. simpl. intros [-> Hl]%orb_false_iff. by apply IH.
Qed.

Lemma filter_some {A} (p : A → bool) l :
  existsb p l = true → (1 ≤ length (List.filter p l))%nat.
Proof.
  induction l as [|x l IH]; [done|]. simpl. destruct (p x); simpl; [lia|]. apply IH.
Qed.

Lemma closing_events s :
  List.filter closes (closing s) = [Ev PageClose (bool_decide (s_pageClose s = None))]
  ∧ List.filter opens (closing s) = [] ∧ existsb on_browser (closing s) = false.
Proof. unfold closing. by destruct (s_pageClose s). Qed.

(** One fetch: its events, and its browser. *)
Lemma fetch_events s url timeoutMs st :
  ∃ evs,
    trace (snd (Browser.fetchReceiptWithPuppeteer s url timeoutMs st)) = trace st ++ evs
    ∧ length (List.filter closes evs) = length (List.filter opens evs)
    ∧ (needs_launch s st = false →
       browserInstance (snd (Browser.fetchReceiptWithPuppeteer s url timeoutMs st))
       = browserInstance st
       ∧ existsb on_browser evs = false).
Proof.
  destruct (fetch_state s url timeoutMs st) as (body & -> & Hc & Hb & Hle).
  destruct (closing_events s) as (Hcc & Hco & Hcb).
  assert (Hbal : length (List.filter closes
                           (body ++ (if existsb opens body then closing s else [])))
                 = length (List.filter opens
                             (body ++ (if existsb opens body then closing s else [])))).
  { rewrite !List.filter_app, !length_app, (filter_none closes body Hc).
    destruct (existsb opens body) eqn:Ho.
    - rewrite Hcc, Hco. apply filter_some in Ho. simpl. lia.
    - by rewrite (filter_none opens body Ho). }
  destruct (needs_launch s st).
  - destruct (s_launch s) as [e|b].
    + exists [Ev Launch false]. by destruct st.
    + eexists. split; [reflexivity|]. split; [|done].
      change ([Ev Launch true] ++ ?l) with (Ev Launch true :: l).
      cbn [List.filter closes opens ev_call]. apply Hbal.
  - eexists. split; [reflexivity|]. split; [done|]. intros _. split; [done|].
    rewrite existsb_app, Hb. by destruct (existsb opens body).
Qed.

(** X24.  Whatever the browser does in a sequence of fetches, every page
    that was opened has been closed when the sequence is over: there are
    as many calls of [page.close()] as pages [newPage] gave.  As long as
    the browser stays connected the fetches share it: no browser is
    launched or closed, and [browserInstance] is the same at the end. *)
Theorem pages_closed_and_browser_kept (reqs : list (session * jsstring * js_number))
    (st : state) :
  ∃ evs,
    trace (fetch_all reqs st) = trace st ++ evs
    ∧ length (List.filter closes evs) = length (List.filter opens evs)
    ∧ (∀ b, browserInstance st = Some b →
            Forall (λ r, s_isConnected r.1.1 = true) reqs →
            browserInstance (fetch_all reqs st) = Some b
            ∧ existsb on_browser evs = false).
Proof.
  revert st. induction reqs as [|[[s url] timeoutMs] reqs IH]; intros st.
  - exists []. cbn [fetch_all]. by rewrite app_nil_r.
  - cbn [fetch_all].
    destruct (fetch_events s url timeoutMs st) as (evs1 & Ht1 & Hbal1 & Hkeep1).
    destruct (IH (snd (Browser.fetchReceiptWithPuppeteer s url timeoutMs st)))
      as (evs2 & Ht2 & Hbal2 & Hkeep2).
    exists (evs1 ++ evs2). split; [by rewrite Ht2, Ht1, app_assoc|]. split.
    + rewrite !List.filter_app, !length_app. lia.
    + intros b Hb Hconn. inversion Hconn as [|? ? Hs Hrest]; subst.
      cbn [fst] in Hs.
      assert (needs_launch s st = false) as Hn.
      { unfold needs_launch. by rewrite Hb, Hs. }
      destruct (Hkeep1 Hn) as [Hb1 Ho1]. rewrite Hb in Hb1.
      destruct (Hkeep2 b Hb1 Hrest) as [Hb2 Ho2].
      split; [done|]. by rewrite existsb_app, Ho1, Ho2.
Qed.

(** X25.  The life of the browser.  [getBrowser] hands out the browser
    that [browserInstance] holds as long as it is connected, without a
    call; otherwise it launches one, and a launch that fails is reported
    as [BROWSER_LAUNCH_FAILED] whatever the error of the library was,
    with [browserInstance] left as it was.  [closeBrowser] never throws,
    closes the browser there is and leaves [browserInstance] empty also
    when the close fails; a second [closeBrowser] does nothing, and the
    next [getBrowser] launches. *)
Theorem browser_lifecycle (s s' : session) (st : state) :
  (needs_launch s st = false →
   ∃ b, browserInstance st = Some b ∧ getBrowser s st = (inr b, st))
  ∧ (needs_launch s st = true →
     match s_launch s with
     | inl _ =>
       getBrowser s st
       = (inl (Own (Error BROWSER_LAUNCH_FAILED None)), record (Ev Launch false) st)
     | inr b =>
       getBrowser s st = (inr b, State (Some b) (page st) (trace st ++ [Ev Launch true]))
     end)
  ∧ fst (closeBrowser s st) = inr tt
  ∧ browserInstance (snd (closeBrowser s st)) = None
  ∧ trace (snd (closeBrowser s st))
    = trace st ++ match browserInstance st with
                  | Some _ => closing_browser s
                  | None => []
                  end
  ∧ closeBrowser s' (snd (closeBrowser s st)) = (inr tt, snd (closeBrowser s st))
  ∧ needs_launch s' (snd (closeBrowser s st)) = true
  ∧ needs_launch s' (snd (on_disconnected st)) = true.
Proof.
  split; [|split].
  - intros Hn. rewrite getBrowser_run, Hn. unfold needs_launch in Hn.
    destruct (browserInstance st) as [b|]; [|done]. by exists b.
  - intros Hn. rewrite getBrowser_run, Hn. by destruct (s_launch s).
  - destruct st as [[b|] pg tr]; unfold closeBrowser, closing_browser; run.
    + destruct (s_browserClose s); run; rewrite <- ?app_assoc; done.
    + by rewrite app_nil_r.
Qed.

End Session.

(** X22.  The fetch, call by call, comes to what the pipeline's
    [fetchReceiptWithPuppeteer] makes of the session's outcome: a launch
    that fails is [BROWSER_LAUNCH_FAILED]; an error of the library in any
    call from [newPage] to [content] is [PAGE_TIMEOUT] if its name is
    [TimeoutError], else passed on if it has a code, else
    [NAVIGATION_ERROR]; the errors the fetch makes itself for a missing
    response and for a status of 400 or more pass the [catch] block as
    they are; and a failure of [page.close()] changes nothing. *)
Theorem fetch_session_outcome (P : Platform) (s : Browser.session)
    (st : Browser.state) (url : jsstring) (timeoutMs : js_number) :
  Browser.result_of (Browser.fetchReceiptWithPuppeteer s url timeoutMs st)
  = @fetchReceiptWithPuppeteer (with_browse P (λ _ _, Browser.outcome s st))
      url timeoutMs.
Proof.
  unfold fetchReceiptWithPuppeteer. cbn [browse with_browse].
  rewrite fetch_unfold, getBrowser_run. unfold Browser.outcome.
  destruct (Browser.needs_launch s st).
  - destruct (Browser.s_launch s) as [e|b]; [done|]. apply fetch_try_outcome.
  - apply fetch_try_outcome.
Qed.

(** X22, witness: a navigation that times out; the page is closed, and
    the failure of the close is reported and changes nothing. *)
Lemma fetch_session_outcome_witness :
  Browser.result_of
    (Browser.fetchReceiptWithPuppeteer Browser.timeout_session sample_url (Num 30000)
       (Browser.State (Some 1) false []))
  = Throw (Error PAGE_TIMEOUT None)
  ∧ List.map Browser.ev_call
      (Browser.trace
         (snd (Browser.fetchReceiptWithPuppeteer Browser.timeout_session sample_url
                 (Num 30000) (Browser.State (Some 1) false []))))
    = [ Browser.NewPage; Browser.SetViewport; Browser.SetUserAgent;
        Browser.SetExtraHTTPHeaders; Browser.SetRequestInterception;
        Browser.Goto sample_url (Num 30000); Browser.PageClose; Browser.ConsoleError ].
Proof.
  split; [|by vm_compute].
  rewrite (fetch_session_outcome sample_platform). by vm_compute.
Defined.

(** ** Further properties of the entry points *)

Lemma replace_str_absent pat by_ s :
  includes s pat = false → replace_str pat by_ s = s.
Proof.
  induction s as [|c s IH]; simpl.
  - intros Hs. apply orb_false_iff in Hs as [-> _]. done.
  - intros Hs. apply orb_false_iff in Hs as [-> Hs]. by rewrite IH.
Qed.

Section Entry.
Context `{Platform}.

Lemma extractTxFromUrl_nonempty url tx : extractTxFromUrl url = Some tx → tx ≠ [].
Proof.
  unfold extractTxFromUrl. destruct (URL_new url) as [u|]; [|done]. cbv zeta.
  set (parts := List.filter nonempty (split_on 47 (pathname u))).
  assert (Hall : ∀ w, In w parts → w ≠ []).
  { intros w Hw. apply List.filter_In in Hw as [_ Hw]. by destruct w. }
  destruct (_ && _).
  - intros Hp. apply Hall. apply list_elem_of_In. by eapply list_elem_of_lookup_2.
  - unfold js_or.
    destruct (truthy (if truthy (searchParams_get (searchParams u) (js "tx"))
                      then _ else _)) eqn:Ht.
    + intros Hp. rewrite Hp in Ht. by destruct tx.
    + destruct (last parts) as [w|] eqn:Hl; [|done].
      assert (w ≠ []) as Hw.
      { apply Hall, list_elem_of_In. apply last_Some in Hl as [l' ->]. set_solver. }
      destruct w; [done|]. cbn [truthy]. by intros [= <-].
Qed.

(** X26.  [getReceiptFromUrl] raises [TX_EXTRACT_FAILED] exactly when the
    URL passes the URL gate and [extractTxFromUrl] finds no identifier in
    it; an identifier that [extractTxFromUrl] returns is never the empty
    text. *)
Theorem tx_extract_failed_iff (url : jsstring) :
  (∀ tx, extractTxFromUrl url = Some tx → tx ≠ [])
  ∧ ((∃ e, getReceiptFromUrl url = Throw e ∧ code e = TX_EXTRACT_FAILED)
     ↔ assertAllowedHost url = Ok tt ∧ extractTxFromUrl url = None).
Proof.
  split; [apply extractTxFromUrl_nonempty|].
  unfold getReceiptFromUrl.
  destruct (assertAllowedHost url) as [[]|e0] eqn:Ha; cbn [mbind result_bind].
  2:{ split; [|by intros [[=] _]]. intros (e & [= <-] & Hc).
      apply assertAllowedHost_errors in Ha as [[Hx|[Hx|Hx]] _]; congruence. }
  destruct (extractTxFromUrl url) as [tx|] eqn:He.
  - pose proof (extractTxFromUrl_nonempty _ _ He) as Hne.
    destruct tx as [|x tx]; [done|]. cbn [truthy negb throw_if mbind result_bind
                                          String_or_empty].
    split; [|by intros [_ [=]]]. intros (e & Hr & Hc). exfalso.
    destruct (test re_tx (x :: tx)); cbn [negb mbind result_bind] in Hr.
    + apply getReceiptCanonical_errors in Hr as [[Hin|(c & _ & Hf)] _]; [|congruence].
      rewrite Hc in Hin. unfold getReceiptCanonical_codes in Hin.
      repeat (apply elem_of_cons in Hin as [Hin|Hin]; [done|]).
      by apply elem_of_nil in Hin.
    + injection Hr as <-. done.
  - cbn [truthy negb throw_if mbind result_bind]. split; [done|].
    intros _. by eexists.
Qed.




Lemma isJunkPair_cells k v :
  nonempty k = true → nonempty v = true → isPdfJunkValue (Some v) = false →
  isJunkPair (Some k) (Some v)
  = bool_decide (normalizeKey (Some k) = normalizeKey (Some v)).
Proof.
  intros Hk Hv Hpdf. unfold isJunkPair. rewrite Hpdf.
  destruct k; [done|]. destruct v; [done|]. cbn [truthy negb orb].
  by case_bool_decide.
Qed.

(** X28.  Where the account number of an accepted record comes from: it is
    the value of the first row pair of the fetched page that is labelled
    with one of the two account labels, and that value differs from its
    label once both are normalised.  The bilingual label goes before the
    English one: the English row is used only when the record has no entry
    under the bilingual label, that is when the page has no row pair with
    the bilingual label or the first such pair repeats the label as its
    value. *)
Theorem accepted_account_from_table (tx : jsstring) (c : CanonicalReceipt) :
  getReceiptCanonical tx = Ok c →
  ∃ page k v,
    fetches tx page ∧ k ∈ account_labels
    ∧ creditedPartyAccountNo c = Some v
    ∧ first_value k (document_pairs (f_html page)) = Some v
    ∧ normalizeKey (Some k) ≠ normalizeKey (Some v)
    ∧ rawData c !! k = Some v
    ∧ (k = js "የገንዘብ ተቀባይ ቴሌብር ቁ./Credited party account no"
       ∨ (k = js "Credited party account no"
          ∧ rawData c !! js "የገንዘብ ተቀባይ ቴሌብር ቁ./Credited party account no" = None
          ∧ ∀ w, first_value (js "የገንዘብ ተቀባይ ቴሌብር ቁ./Credited party account no")
                   (document_pairs (f_html page)) = Some w →
                 normalizeKey (Some (js "የገንዘብ ተቀባይ ቴሌብር ቁ./Credited party account no"))
                 = normalizeKey (Some w))).
Proof.
  intros (page & Hf & _ & _ & Hg & ->)%getReceiptCanonical_ok.
  apply requireCriticalFields_ok in Hg as (_ & _ & Ha).
  set (html := f_html page) in *.
  change (creditedPartyAccountNo (with_sourceUrl (extractCanonical html tx) (f_url page)))
    with (creditedPartyAccountNo (extractCanonical html tx)).
  change (rawData (with_sourceUrl (extractCanonical html tx) (f_url page)))
    with (cleanRawPairs (extractReceiptRawPairs html)).
  change (creditedPartyAccountNo (extractCanonical html tx))
    with (own_string (pickExact (cleanRawPairs (extractReceiptRawPairs html))
            [ js "የገንዘብ ተቀባይ ቴሌብር ቁ./Credited party account no";
              js "Credited party account no" ])) in *.
  rewrite pickExact_two in Ha |- * by (done || apply cleanRawPairs_values_ok).
  assert (Hentry : ∀ k v, inherited k = false →
            cleanRawPairs (extractReceiptRawPairs html) !! k = Some v →
            first_value k (document_pairs html) = Some v
            ∧ normalizeKey (Some k) ≠ normalizeKey (Some v)).
  { intros k v Hk (Hr & Hj & _)%cleanRawPairs_entry.
    destruct (extractReceiptRawPairs_lookup html k) as [H1 _].
    rewrite H1 in Hr by done. split; [done|].
    unfold isJunkPair in Hj.
    destruct (negb (truthy (Some k)) || negb (truthy (Some v))); [done|].
    destruct (isPdfJunkValue (Some v)); [done|].
    by case_bool_decide. }
  assert (Hi1 : inherited (js "የገንዘብ ተቀባይ ቴሌብር ቁ./Credited party account no") = false)
    by reflexivity.
  exists page.
  destruct (cleanRawPairs _ !! js "የገንዘብ ተቀባይ ቴሌብር ቁ./Credited party account no")
    as [v|] eqn:E1.
  - destruct (Hentry _ v Hi1 E1) as [Hfv Hn].
    exists (js "የገንዘብ ተቀባይ ቴሌብር ቁ./Credited party account no"), v.
    split; [exact Hf|]. split; [apply list_elem_of_here|].
    split; [reflexivity|]. split; [exact Hfv|]. split; [exact Hn|].
    split; [exact E1|]. left. reflexivity.
  - destruct (cleanRawPairs _ !! js "Credited party account no") as [v|] eqn:E2; [|done].
    assert (Hi : inherited (js "Credited party account no") = false) by reflexivity.
    destruct (Hentry _ v Hi E2) as [Hfv Hn].
    exists (js "Credited party account no"), v.
    split; [exact Hf|]. split; [apply list_elem_of_further, list_elem_of_here|].
    split; [reflexivity|]. split; [exact Hfv|]. split; [exact Hn|].
    split; [exact E2|]. right. split; [reflexivity|]. split; [reflexivity|].
    intros w Hw.
    destruct (document_pairs_In html _ w (first_value_In _ _ _ Hw))
      as (Hkne & Hwne & Hpdf).
    destruct (extractReceiptRawPairs_lookup html
                (js "የገንዘብ ተቀባይ ቴሌብር ቁ./Credited party account no")) as [H1 _].
    pose proof (eq_trans (H1 Hi1) Hw) as Hraw.
    destruct (isJunkPair (Some (js "የገንዘብ ተቀባይ ቴሌብር ቁ./Credited party account no"))
                (Some w)) eqn:Hj.
    + rewrite isJunkPair_cells in Hj by done.
      by apply bool_decide_eq_true in Hj.
    + exfalso.
      assert (Hsome : cleanRawPairs (extractReceiptRawPairs html)
                        !! js "የገንዘብ ተቀባይ ቴሌብር ቁ./Credited party account no" = Some w).
      { apply cleanRawPairs_entry. split; [exact Hraw|]. split; [exact Hj|].
        intros Heq. rewrite Heq in Hi1. done. }
      rewrite E1 in Hsome. done.
Qed.

(** X29.  A configured receipt template without the placeholder [{tx}]
    gives every valid identifier the same URL, the template itself. *)
Theorem template_without_placeholder (tx : jsstring) :
  includes RECEIPT_URL_TEMPLATE (js "{tx}") = false →
  test re_tx tx = true →
  buildReceiptUrlFromTx tx = Ok RECEIPT_URL_TEMPLATE.
Proof.
  intros Hp Htx. rewrite buildReceiptUrlFromTx_valid by done.
  by rewrite replace_str_absent.
Qed.

End Entry.

(** X26, witness: a URL on the allowed host without a path. *)
Lemma tx_extract_failed_iff_witness :
  ∃ e, @getReceiptFromUrl sample_platform (js "https://transactioninfo.ethiotelecom.et/")
       = Throw e
       ∧ code e = TX_EXTRACT_FAILED.
Proof.
  apply (@tx_extract_failed_iff sample_platform
           (js "https://transactioninfo.ethiotelecom.et/")).
  by vm_compute.
Defined.


(** X28, witness: the accepted page; and a page with both account rows,
    the English one first, where the record has the account of the
    bilingual row. *)
Lemma accepted_account_from_table_witness :
  (∃ c page k v,
     @getReceiptCanonical accepted_platform sample_tx = Ok c
     ∧ k ∈ account_labels ∧ creditedPartyAccountNo c = Some v
     ∧ first_value k (@document_pairs accepted_platform (f_html page)) = Some v)
  ∧ (∃ c page v,
       @getReceiptCanonical both_labels_platform sample_tx = Ok c
       ∧ rawData c !! js "Credited party account no" = Some (js "0922000000")
       ∧ creditedPartyAccountNo c = Some v
       ∧ first_value (js "የገንዘብ ተቀባይ ቴሌብር ቁ./Credited party account no")
           (@document_pairs both_labels_platform (f_html page)) = Some v
       ∧ v = js "0911000000").
Proof.
  split.
  - destruct (@getReceiptCanonical accepted_platform sample_tx) as [c|e] eqn:E;
      [|by vm_compute in E].
    destruct (@accepted_account_from_table accepted_platform sample_tx c E)
      as (page & k & v & _ & Hk & Hc & Hv & _).
    exists c, page, k, v. split; [reflexivity|]. split; [exact Hk|].
    split; [exact Hc|exact Hv].
  - assert (Hacc : account_entries (@getReceiptCanonical both_labels_platform sample_tx)
                   = Some (Some (js "0911000000"), Some (js "0922000000"),
                           Some (js "0911000000"))) by (by vm_compute).
    destruct (@getReceiptCanonical both_labels_platform sample_tx) as [c|e] eqn:E;
      [|done].
    cbn [account_entries] in Hacc. injection Hacc as Hbil Heng Hno.
    destruct (@accepted_account_from_table both_labels_platform sample_tx c E)
      as (page & k & v & _ & _ & Hc & Hv & _ & Hr & Hprec).
    exists c, page, v. split; [reflexivity|]. split; [exact Heng|].
    split; [exact Hc|].
    destruct Hprec as [->|(_ & Hnone & _)].
    + split; [exact Hv|]. rewrite Hbil in Hr. by injection Hr as <-.
    + rewrite Hbil in Hnone. done.
Defined.

(** X29, witness: a template that names one receipt. *)
Lemma template_without_placeholder_witness :
  @buildReceiptUrlFromTx fixed_template_platform sample_tx
  = Ok (js "https://transactioninfo.ethiotelecom.et/receipt/latest")
  ∧ @buildReceiptUrlFromTx fixed_template_platform (js "ZZZZZ99999")
    = Ok (js "https://transactioninfo.ethiotelecom.et/receipt/latest").
Proof.
  split.
  - rewrite (@template_without_placeholder fixed_template_platform sample_tx);
      by vm_compute.
  - by vm_compute.
Defined.
